(** * rl-visual-learner: the grid world and its learning rules

    A shallow embedding of [types.ts], [constants.ts],
    [services/rlService.ts], [stepRL] of [App.tsx] and the rendering
    conditions of [components/GridWorld.tsx], and the properties of the
    value-iteration sweep, the transition model, the action-selection
    policies and the three single-transition updates.

    Conventions of the embedding.
    - Coordinates and indices are integers ([Z]).
    - [Math.random()] is an explicit argument: each function that draws
      takes the draws it consumes, in call order.
    - Reading a property of [undefined] raises [TypeError]; a result that
      is not a finite number is [NonFinite].  Both are values of [result].
    - A finite JavaScript [number] is the rational it denotes ([Q]); NaN
      and the infinities are outside the model, except for the
      [-Infinity] at which the running maxima start, which has type
      [bound].
    - The arithmetic is embedded twice.  The definitions named as in the
      source compute [+], [-] and [*] exactly; they carry the statements
      that depend on comparisons, on positions and on which fields are
      written, and not on the numbers stored.  The module [Binary64] holds
      the same arithmetic code with every operation rounded to binary64,
      as the code computes; it carries the statements about the numbers
      stored and about the draws of the tie-break, where the product of
      the draw and the length is rounded. *)

From Stdlib Require Import ZArith QArith Qround Qminmax Qabs Qpower Lqa Lia.
From stdpp Require Import base list.

Open Scope Z_scope.

(** ** Errors *)

Inductive error : Set := TypeError | NonFinite.

Inductive result (A : Type) : Type :=
| Ok (a : A)
| Err (e : error).
Arguments Ok {A} a.
Arguments Err {A} e.

Definition rbind {A B : Type} (m : result A) (f : A -> result B) : result B :=
  match m with
  | Ok a => f a
  | Err e => Err e
  end.

Notation "'let*' x := m 'in' k" := (rbind m (fun x => k))
  (at level 10, x pattern, m at level 100, k at level 200).

(** [for (const x of xs) { s = body(x, s) }] with early exit on a throw. *)
Fixpoint for_of {A S : Type} (xs : list A) (body : A -> S -> result S) (s : S)
  : result S :=
  match xs with
  | [] => Ok s
  | x :: xs' => let* s' := body x s in for_of xs' body s'
  end.

(** [for (let i = 0; i < n; i++)]. *)
Definition for_range {S : Type} (n : Z) (body : Z -> S -> result S) (s : S)
  : result S :=
  for_of (seqZ 0 n) body s.

(** ** types.ts *)

Inductive CellType : Set := EMPTY | WALL | TERMINAL | START.
Inductive Action : Set := UP | DOWN | LEFT | RIGHT.

#[global] Instance CellType_eq_dec : EqDecision CellType.
Proof. solve_decision. Defined.
#[global] Instance Action_eq_dec : EqDecision Action.
Proof. solve_decision. Defined.

(** [Record<Action, number>]: the four keys are always present, in the
    order in which [createInitialGrid] writes them. *)
Record QValues : Set := mkQ { qUP : Q; qDOWN : Q; qLEFT : Q; qRIGHT : Q }.

(** [q[a]] *)
Definition qget (q : QValues) (a : Action) : Q :=
  match a with
  | UP => qUP q
  | DOWN => qDOWN q
  | LEFT => qLEFT q
  | RIGHT => qRIGHT q
  end.

(** [{...q, [a]: v}] *)
Definition qset (q : QValues) (a : Action) (v : Q) : QValues :=
  match a with
  | UP => mkQ v (qDOWN q) (qLEFT q) (qRIGHT q)
  | DOWN => mkQ (qUP q) v (qLEFT q) (qRIGHT q)
  | LEFT => mkQ (qUP q) (qDOWN q) v (qRIGHT q)
  | RIGHT => mkQ (qUP q) (qDOWN q) (qLEFT q) v
  end.

(** [Object.values(q)] *)
Definition Object_values (q : QValues) : list Q :=
  [qUP q; qDOWN q; qLEFT q; qRIGHT q].

Record CellState : Set := mkCell {
  row : Z;
  col : Z;
  type : CellType;
  reward : Q;
  utility : Q;
  qValues : QValues;
  policy : option Action;
  visitCount : Z
}.

(** [CellState[][]] *)
Abbreviation Grid := (list (list CellState)).

(** Field assignments [cell.utility = u], [cell.policy = p],
    [cell.qValues = q]. *)
Definition set_utility (u : Q) (cell : CellState) : CellState :=
  mkCell (row cell) (col cell) (type cell) (reward cell) u (qValues cell)
         (policy cell) (visitCount cell).

Definition set_policy (p : option Action) (cell : CellState) : CellState :=
  mkCell (row cell) (col cell) (type cell) (reward cell) (utility cell)
         (qValues cell) p (visitCount cell).

Definition set_qValues (q : QValues) (cell : CellState) : CellState :=
  mkCell (row cell) (col cell) (type cell) (reward cell) (utility cell) q
         (policy cell) (visitCount cell).

(** [xs[i]]: [undefined] (here [None]) outside the array. *)
Definition index {A : Type} (xs : list A) (i : Z) : option A :=
  if i <? 0 then None else xs !! Z.to_nat i.

(** [grid[r][c]] followed by a property read: throws when the row or the
    cell is missing. *)
Definition cellAt (grid : Grid) (r c : Z) : result CellState :=
  match index grid r with
  | None => Err TypeError
  | Some cells =>
      match index cells c with
      | None => Err TypeError
      | Some cell => Ok cell
      end
  end.

(** [grid[r][c].field = v], as the change [f] of the cell. *)
Definition modifyCell (grid : Grid) (r c : Z) (f : CellState -> CellState)
  : result Grid :=
  let* _ := cellAt grid r c in
  Ok (alter (alter f (Z.to_nat c)) (Z.to_nat r) grid).

(** ** constants.ts *)

Definition ROWS : Z := 3.
Definition COLS : Z := 4.

Definition ACTIONS : list Action := [UP; DOWN; LEFT; RIGHT].

Definition createCell (stepReward : Q) (r c : Z) : CellState :=
  let '(type, reward) :=
    if (r =? 1) && (c =? 1) then (WALL, 0%Q)
    else if (r =? 0) && (c =? 3) then (TERMINAL, 1.0%Q)
    else if (r =? 1) && (c =? 3) then (TERMINAL, (-1.0)%Q)
    else if (r =? 2) && (c =? 0) then (START, stepReward)
    else (EMPTY, stepReward) in
  mkCell r c type reward 0%Q (mkQ 0 0 0 0) None 0.

Definition createInitialGrid (stepReward : Q) : Grid :=
  fold_left
    (fun (grid : Grid) (r : Z) =>
       let row :=
         fold_left (fun (row : list CellState) (c : Z) =>
                      row ++ [createCell stepReward r c])
                   (seqZ 0 COLS) [] in
       grid ++ [row])
    (seqZ 0 ROWS) [].

(** ** rlService.ts: the transition model *)

Definition Qltb (x y : Q) : bool := negb (Qle_bool y x).

Definition getOrthogonalActions (action : Action) : Action * Action :=
  match action with
  | UP | DOWN => (LEFT, RIGHT)
  | LEFT | RIGHT => (UP, DOWN)
  end.

(** Lines 14-23 of [getNextState]: the action that is executed, for the
    draw [rand] of [Math.random()]. *)
Definition executedAction (rand : Q) (action : Action) (isStochastic : bool)
  : Action :=
  if isStochastic then
    if Qltb 0.8 rand then
      let orthogonal := getOrthogonalActions action in
      if Qltb 0.9 rand then fst orthogonal else snd orthogonal
    else action
  else action.

(** The [switch] on the executed action. *)
Definition delta (a : Action) : Z * Z :=
  match a with
  | UP => (-1, 0)
  | DOWN => (1, 0)
  | LEFT => (0, -1)
  | RIGHT => (0, 1)
  end.

(** [rand] is read in stochastic mode only. *)
Definition getNextState (rand : Q) (grid : Grid) (row col : Z)
    (action : Action) (isStochastic : bool) : result (Z * Z) :=
  let intendedAction := executedAction rand action isStochastic in
  let '(dRow, dCol) := delta intendedAction in
  let newRow := row + dRow in
  let newCol := col + dCol in
  if (newRow <? 0) || (ROWS <=? newRow) || (newCol <? 0) || (COLS <=? newCol)
  then Ok (row, col)
  else
    let* dest := cellAt grid newRow newCol in
    if decide (type dest = WALL) then Ok (row, col)
    else Ok (newRow, newCol).

(** ** Running maxima *)

(** A running maximum: [-Infinity] before anything was seen, a rational
    afterwards. *)
Inductive bound : Set :=
| NegInfinity
| Finite (q : Q).

(** [x > m] *)
Definition gtb (x : Q) (m : bound) : bool :=
  match m with
  | NegInfinity => true
  | Finite y => Qltb y x
  end.

(** [x === m] *)
Definition eqb (x : Q) (m : bound) : bool :=
  match m with
  | NegInfinity => false
  | Finite y => Qeq_bool x y
  end.

(** A bound used as an operand of [+], [-] or [*]. *)
Definition finite (m : bound) : result Q :=
  match m with
  | NegInfinity => Err NonFinite
  | Finite q => Ok q
  end.

(** [Math.max(...xs)]: [-Infinity] for no argument. *)
Definition Math_max (xs : list Q) : bound :=
  fold_left (fun (m : bound) (x : Q) => if gtb x m then Finite x else m)
            xs NegInfinity.

(** ** rlService.ts: value iteration *)

(** The three outcomes of [action] and their probabilities. *)
Definition moves (action : Action) : list (Action * Q) :=
  [ (action, 0.8%Q);
    (fst (getOrthogonalActions action), 0.1%Q);
    (snd (getOrthogonalActions action), 0.1%Q) ].

(** The inner loop over [moves]; [getNextState] is called with
    [isStochastic = false] and draws nothing. *)
Definition expectedUtilityOf (grid : Grid) (r c : Z) (action : Action)
  : result Q :=
  for_of (moves action)
    (fun '(act, prob) (expectedUtility : Q) =>
       let* (nextRow, nextCol) := getNextState 0 grid r c act false in
       let* destCell := cellAt grid nextRow nextCol in
       Ok (expectedUtility + prob * utility destCell)%Q)
    0%Q.

(** The loop over [ACTIONS]: the pair [(maxUtility, bestAction)]. *)
Definition bellmanMax (grid : Grid) (r c : Z)
  : result (bound * option Action) :=
  for_of ACTIONS
    (fun action '(maxUtility, bestAction) =>
       let* expectedUtility := expectedUtilityOf grid r c action in
       if gtb expectedUtility maxUtility
       then Ok (Finite expectedUtility, Some action)
       else Ok (maxUtility, bestAction))
    (NegInfinity, None).

(** The body of the two nested loops, at cell [(r, c)]. *)
Definition sweepCell (grid : Grid) (gamma : Q) (r c : Z) (newGrid : Grid)
  : result Grid :=
  let* cell := cellAt grid r c in
  if decide (type cell = WALL \/ type cell = TERMINAL) then
    if decide (type cell = TERMINAL)
    then modifyCell newGrid r c (set_utility (reward cell))
    else Ok newGrid
  else
    let* (maxUtility, bestAction) := bellmanMax grid r c in
    let* m := finite maxUtility in
    let* newGrid :=
      modifyCell newGrid r c (set_utility (reward cell + gamma * m)%Q) in
    modifyCell newGrid r c (set_policy bestAction).

(** [JSON.parse(JSON.stringify(grid))] copies the grid; the sweep reads
    [grid] and writes [newGrid]. *)
Definition performValueIterationStep (grid : Grid) (gamma : Q) : result Grid :=
  let newGrid := grid in
  for_range ROWS
    (fun r newGrid =>
       for_range COLS (fun c newGrid => sweepCell grid gamma r c newGrid)
                 newGrid)
    newGrid.

(** ** rlService.ts: action selection *)

(** The loop of [getGreedyAction]: the pair [(maxQ, bestActions)]. *)
Definition greedyStep (cell : CellState) (st : bound * list Action)
    (action : Action) : bound * list Action :=
  let '(maxQ, bestActions) := st in
  if gtb (qget (qValues cell) action) maxQ
  then (Finite (qget (qValues cell) action), [action])
  else if eqb (qget (qValues cell) action) maxQ
       then (maxQ, bestActions ++ [action])
       else (maxQ, bestActions).

Definition bestActionsOf (cell : CellState) : list Action :=
  snd (fold_left (greedyStep cell) ACTIONS (NegInfinity, [])).

(** [xs[Math.floor(u * xs.length)]] *)
Definition pick {A : Type} (u : Q) (xs : list A) : option A :=
  index xs (Qfloor (u * inject_Z (Z.of_nat (length xs)))).

(** [u] is the draw of the tie-break.  The result is [None] for
    [undefined]. *)
Definition getGreedyAction (u : Q) (cell : CellState) : option Action :=
  pick u (bestActionsOf cell).

(** [u1] is the first draw, [u2] the second one, made in either branch. *)
Definition getEpsilonGreedyAction (u1 u2 : Q) (cell : CellState)
    (epsilon : Q) : option Action :=
  if Qltb u1 epsilon then pick u2 ACTIONS
  else getGreedyAction u2 cell.

(** ** rlService.ts: the Q-learning and SARSA updates *)

(** [[...grid]] copies the outer array only, so the writes below reach
    the cells of [grid] as well; the functions are embedded by the grid
    they return, which is all their caller uses. *)

(** Lines 156-163 and 190-197: write [newQ], then refresh the displayed
    utility and policy of the cell. *)
Definition writeBack (u : Q) (newGrid : Grid) (s : Z * Z) (a : Action)
    (newQ : Q) : result Grid :=
  let* cell := cellAt newGrid (fst s) (snd s) in
  let* newGrid :=
    modifyCell newGrid (fst s) (snd s)
               (set_qValues (qset (qValues cell) a newQ)) in
  let* cell := cellAt newGrid (fst s) (snd s) in
  let* m := finite (Math_max (Object_values (qValues cell))) in
  let* newGrid := modifyCell newGrid (fst s) (snd s) (set_utility m) in
  let* cell := cellAt newGrid (fst s) (snd s) in
  modifyCell newGrid (fst s) (snd s) (set_policy (getGreedyAction u cell)).

(** [u] is the draw of the call of [getGreedyAction]. *)
Definition updateQLearning (u : Q) (grid : Grid) (s : Z * Z) (a : Action)
    (r : Q) (sPrime : Z * Z) (alpha gamma : Q) : result Grid :=
  let newGrid := grid in
  let* cell := cellAt newGrid (fst s) (snd s) in
  let oldQ := qget (qValues cell) a in
  let* next := cellAt newGrid (fst sPrime) (snd sPrime) in
  let* maxQPrime :=
    if decide (type next = TERMINAL) then Ok 0%Q
    else
      let* nextCell := cellAt newGrid (fst sPrime) (snd sPrime) in
      finite (Math_max (Object_values (qValues nextCell))) in
  let newQ := (oldQ + alpha * (r + (gamma * maxQPrime) - oldQ))%Q in
  writeBack u newGrid s a newQ.

Definition updateSARSA (u : Q) (grid : Grid) (s : Z * Z) (a : Action)
    (r : Q) (sPrime : Z * Z) (aPrime : Action) (alpha gamma : Q)
  : result Grid :=
  let newGrid := grid in
  let* cell := cellAt newGrid (fst s) (snd s) in
  let oldQ := qget (qValues cell) a in
  let* next := cellAt newGrid (fst sPrime) (snd sPrime) in
  let* qPrime :=
    if decide (type next <> TERMINAL)
    then
      let* nextCell := cellAt newGrid (fst sPrime) (snd sPrime) in
      Ok (qget (qValues nextCell) aPrime)
    else Ok 0%Q in
  let newQ := (oldQ + alpha * (r + (gamma * qPrime) - oldQ))%Q in
  writeBack u newGrid s a newQ.

(** ** App.tsx: the TD(0) branch of [stepRL] *)

Record AgentState : Set := mkAgent {
  agentRow : Z;
  agentCol : Z;
  lastAction : option Action;
  totalReward : Q
}.

(** Lines 83-84 and 121-124, for the agent at [prevAgent] and the
    successor [(nextRow, nextCol)] that [getNextState] returned; [r] is the
    local [reward]. *)
Definition stepRL_TD (grid : Grid) (prevAgent : AgentState)
    (nextRow nextCol : Z) (alpha gamma : Q) : result Grid :=
  let* nextCell := cellAt grid nextRow nextCol in
  let r := reward nextCell in
  let newGrid := grid in
  let* cur := cellAt newGrid (agentRow prevAgent) (agentCol prevAgent) in
  let currentU := utility cur in
  let* nextU :=
    if decide (type nextCell = TERMINAL) then Ok (reward nextCell)
    else
      let* c := cellAt newGrid nextRow nextCol in
      Ok (utility c) in
  let newU := (currentU + alpha * (r + gamma * nextU - currentU))%Q in
  modifyCell newGrid (agentRow prevAgent) (agentCol prevAgent)
             (set_utility newU).

(** ** Specification vocabulary *)

(** The grid has exactly [ROWS] rows of [COLS] cells. *)
Definition wfGrid (grid : Grid) : bool :=
  (Z.of_nat (length grid) =? ROWS)
  && forallb (fun cells : list CellState => Z.of_nat (length cells) =? COLS)
             grid.

Definition inBounds (r c : Z) : bool :=
  (0 <=? r) && (r <? ROWS) && (0 <=? c) && (c <? COLS).

Definition isWall (grid : Grid) (r c : Z) : bool :=
  match cellAt grid r c with
  | Ok cell => bool_decide (type cell = WALL)
  | Err _ => false
  end.

(** The cell one step away in the direction of the action. *)
Definition neighbour (r c : Z) (a : Action) : Z * Z :=
  match a with
  | UP => (r - 1, c)
  | DOWN => (r + 1, c)
  | LEFT => (r, c - 1)
  | RIGHT => (r, c + 1)
  end.

(** The deterministic one-step move: the neighbour in direction [a] when
    it is inside the bounds and not a WALL, the cell itself otherwise. *)
Definition dest (grid : Grid) (r c : Z) (a : Action) : Z * Z :=
  let '(r', c') := neighbour r c a in
  if inBounds r' c' && negb (isWall grid r' c') then (r', c') else (r, c).

(** The utility field of the grid, read at a position. *)
Definition U (grid : Grid) (p : Z * Z) : Q :=
  match cellAt grid (fst p) (snd p) with
  | Ok cell => utility cell
  | Err _ => 0%Q
  end.

(** The expected utility of an action: 0.8 for the action itself and 0.1
    for each of the two orthogonal ones. *)
Definition expected (grid : Grid) (r c : Z) (a : Action) : Q :=
  (0.8 * U grid (dest grid r c a)
   + 0.1 * U grid (dest grid r c (fst (getOrthogonalActions a)))
   + 0.1 * U grid (dest grid r c (snd (getOrthogonalActions a))))%Q.

(** The position of an action in [ACTIONS]. *)
Definition rank (a : Action) : nat :=
  match a with UP => 0 | DOWN => 1 | LEFT => 2 | RIGHT => 3 end.

(** The largest of the four Q-values. *)
Definition maxQ4 (q : QValues) : Q :=
  Qmax (Qmax (Qmax (qUP q) (qDOWN q)) (qLEFT q)) (qRIGHT q).

(** The cells of the grid are exactly the positions inside the bounds. *)
Definition gridShape (grid : Grid) : Prop :=
  forall r c, inBounds r c = true <-> exists cell, cellAt grid r c = Ok cell.

(** [n] sweeps in a row, each on the grid the previous one returned, as
    [stepMDP] runs them. *)
Fixpoint sweeps (n : nat) (grid : Grid) (gamma : Q) : result Grid :=
  match n with
  | O => Ok grid
  | S n' =>
      let* newGrid := performValueIterationStep grid gamma in
      sweeps n' newGrid gamma
  end.

(** *** Sets of draws

    A draw of [Math.random()] is uniform on [[0, 1)]: the probability of an
    interval of draws is its length. *)

(** An interval of rationals; [lowerIn] and [upperIn] tell whether the
    end points belong to it. *)
Record interval : Set := mkInterval {
  lower : Q;
  lowerIn : bool;
  upper : Q;
  upperIn : bool
}.

Definition within (u : Q) (I : interval) : Prop :=
  (if lowerIn I then lower I <= u else lower I < u)%Q
  /\ (if upperIn I then u <= upper I else u < upper I)%Q.

Definition measure (I : interval) : Q := (upper I - lower I)%Q.

(** The [i]-th of [k] equal parts of [[0, 1)]: [[i/k, (i+1)/k)]. *)
Definition slot (i k : nat) : interval :=
  mkInterval (inject_Z (Z.of_nat i) / inject_Z (Z.of_nat k)) true
             (inject_Z (Z.of_nat i + 1) / inject_Z (Z.of_nat k)) false.

(** [a] is one of the actions whose Q-value is the largest. *)
Definition tied (q : QValues) (a : Action) : Prop :=
  (qget q a == maxQ4 q)%Q.

(** *** The frame of a single-transition update *)

(** Every cell away from [s] is the cell of the input grid. *)
Definition sameElsewhere (grid : Grid) (s : Z * Z) (newGrid : Grid) : Prop :=
  forall r c, (r, c) <> s -> cellAt newGrid r c = cellAt grid r c.

(** The fields that no update writes. *)
Definition sameIdentity (cell cell' : CellState) : Prop :=
  row cell' = row cell /\ col cell' = col cell /\ type cell' = type cell
  /\ reward cell' = reward cell /\ visitCount cell' = visitCount cell.

(** Every TERMINAL and every WALL cell is the cell of the input grid. *)
Definition terminalsAndWallsKept (grid newGrid : Grid) : Prop :=
  forall r c cell,
    cellAt grid r c = Ok cell -> type cell = TERMINAL \/ type cell = WALL ->
    cellAt newGrid r c = Ok cell.

(** *** The cell that [writeBack] leaves at [s] *)

(** The value of [Math.max(...Object.values(q))]. *)
Definition maxOf (q : QValues) : Q :=
  match Math_max (Object_values q) with
  | Finite m => m
  | NegInfinity => 0%Q
  end.

Definition writtenCell (u : Q) (cell : CellState) (a : Action) (newQ : Q)
  : CellState :=
  let cell1 := set_qValues (qset (qValues cell) a newQ) cell in
  let cell2 := set_utility (maxOf (qValues cell1)) cell1 in
  set_policy (getGreedyAction u cell2) cell2.

(** *** A grid in the middle of learning

    The initial grid with Q-values 0.5, 0.2, 0, 0 written at (1,0). *)
Definition learningGrid : Grid :=
  alter (alter (set_qValues (mkQ 0.5 0.2 0 0)) 0%nat) 1%nat
        (createInitialGrid (-0.04)).

(** ** The loops of the sweep as pure functions *)

(** The value of [expectedUtility] when the loop over [moves] ends. *)
Definition expectedUtility (grid : Grid) (r c : Z) (a : Action) : Q :=
  (0 + 0.8 * U grid (dest grid r c a)
   + 0.1 * U grid (dest grid r c (fst (getOrthogonalActions a)))
   + 0.1 * U grid (dest grid r c (snd (getOrthogonalActions a))))%Q.

(** The loop over [ACTIONS] for the expected utilities [e]. *)
Definition argmaxLoop (e : Action -> Q) : bound * option Action :=
  fold_left
    (fun (st : bound * option Action) (action : Action) =>
       if gtb (e action) (fst st) then (Finite (e action), Some action)
       else st)
    ACTIONS (NegInfinity, None).

(** The cell that the sweep leaves at [(r, c)], from the cell [cell] that
    the input grid has there. *)
Definition sweptCell (grid : Grid) (gamma : Q) (r c : Z) (cell : CellState)
  : CellState :=
  if decide (type cell = WALL) then cell
  else if decide (type cell = TERMINAL) then set_utility (reward cell) cell
  else
    match argmaxLoop (expectedUtility grid r c) with
    | (Finite m, bestAction) =>
        set_policy bestAction (set_utility (reward cell + gamma * m)%Q cell)
    | (NegInfinity, _) => cell
    end.

(** The cells in the order in which the two loops visit them. *)
Definition positions : list (Z * Z) :=
  flat_map (fun r => map (pair r) (seqZ 0 COLS)) (seqZ 0 ROWS).

(** [f] under [Ok]. *)
Definition rmap {A B : Type} (f : A -> B) (m : result A) : result B :=
  match m with
  | Ok a => Ok (f a)
  | Err e => Err e
  end.

(** The invariant of the sweep: the cells already visited hold their new
    content, the others still hold the content of the input grid. *)
Definition sweepInv (grid : Grid) (gamma : Q) (done : list (Z * Z))
    (newGrid : Grid) : Prop :=
  forall r c,
    cellAt newGrid r c =
    if decide ((r, c) ∈ done)
    then rmap (sweptCell grid gamma r c) (cellAt grid r c)
    else cellAt grid r c.

(** ** App.tsx: the whole of [stepRL] *)

Inductive Tab : Set := MDP | TD | QLEARNING | SARSA.

#[global] Instance Tab_eq_dec : EqDecision Tab.
Proof. solve_decision. Defined.

(** The agent that [stepRL] and [handleTabChange] put on the grid. *)
Definition startAgent : AgentState := mkAgent 2 0 None 0.

(** [grid[r]] just before it is indexed: throws when the row is missing. *)
Definition rowAt (grid : Grid) (r : Z) : result (list CellState) :=
  match index grid r with
  | Some cells => Ok cells
  | None => Err TypeError
  end.

(** [getEpsilonGreedyAction(cell, epsilon)] for a cell that may be
    [undefined]: the greedy branch reads [cell.qValues] and throws. *)
Definition chooseAction (u1 u2 : Q) (cell : option CellState) (epsilon : Q)
  : result (option Action) :=
  match cell with
  | Some c => Ok (getEpsilonGreedyAction u1 u2 c epsilon)
  | None => if Qltb u1 epsilon then Ok (pick u2 ACTIONS) else Err TypeError
  end.

(** [getNextState(grid, row, col, action, true)] for an action that may be
    [undefined] (no case of the [switch] matches it, and its orthogonal
    pair is [[UP, DOWN]]). *)
Definition getNextStateU (rand : Q) (grid : Grid) (row col : Z)
    (action : option Action) : result (Z * Z) :=
  match action with
  | Some a => getNextState rand grid row col a true
  | None =>
      if Qltb 0.8 rand
      then getNextState rand grid row col
                        (if Qltb 0.9 rand then UP else DOWN) false
      else if (row <? 0) || (ROWS <=? row) || (col <? 0) || (COLS <=? col)
           then Ok (row, col)
           else let* _ := cellAt grid row col in Ok (row, col)
  end.

(** The body of the updater that [stepRL] hands to [setAgent]: the grid
    passed to [setGrid], if any, and the agent returned.  [draws n] is the
    result of the call number [n] of [Math.random()].  An [undefined]
    action used as a key of [qValues] gives NaN: [NonFinite]. *)
Definition stepRL (draws : nat -> Q) (grid : Grid) (activeTab : Tab)
    (alpha gamma epsilon : Q) (prevAgent : option AgentState)
  : result (option Grid * AgentState) :=
  match prevAgent with
  | None => Ok (None, startAgent)
  | Some prevAgent =>
      let s := (agentRow prevAgent, agentCol prevAgent) in
      let* cells := rowAt grid (agentRow prevAgent) in
      let currentCell := index cells (agentCol prevAgent) in
      let* action :=
        chooseAction (draws 0%nat) (draws 1%nat) currentCell epsilon in
      let* (nextRow, nextCol) :=
        getNextStateU (draws 2%nat) grid (agentRow prevAgent)
                      (agentCol prevAgent) action in
      let* nextCell := cellAt grid nextRow nextCol in
      let r := reward nextCell in
      let newGrid := grid in
      let* newGrid :=
        match activeTab with
        | QLEARNING =>
            match action with
            | Some a =>
                updateQLearning (draws 3%nat) newGrid s a r (nextRow, nextCol)
                                alpha gamma
            | None => let* _ := cellAt newGrid (fst s) (snd s) in Err NonFinite
            end
        | SARSA =>
            let nextAction :=
              getEpsilonGreedyAction (draws 3%nat) (draws 4%nat) nextCell
                                     epsilon in
            match action, nextAction with
            | Some a, Some a' =>
                updateSARSA (draws 5%nat) newGrid s a r (nextRow, nextCol) a'
                            alpha gamma
            | Some a, None =>
                if decide (type nextCell = TERMINAL)
                then updateSARSA (draws 5%nat) newGrid s a r
                                 (nextRow, nextCol) UP alpha gamma
                else let* _ := cellAt newGrid (fst s) (snd s) in Err NonFinite
            | None, _ => let* _ := cellAt newGrid (fst s) (snd s) in Err NonFinite
            end
        | TD => stepRL_TD newGrid prevAgent nextRow nextCol alpha gamma
        | MDP => Ok newGrid
        end in
      Ok (Some newGrid,
          if decide (type nextCell = TERMINAL) then startAgent
          else mkAgent nextRow nextCol action (totalReward prevAgent + r)%Q)
  end.

(** ** components/GridWorld.tsx: what a cell shows *)

(** [agent?.row === rIndex && agent?.col === cIndex] *)
Definition isAgentHere (agent : option AgentState) (rIndex cIndex : Z) : bool :=
  match agent with
  | Some a => (agentRow a =? rIndex) && (agentCol a =? cIndex)
  | None => false
  end.

(** The condition under which the policy arrow is rendered. *)
Definition showsArrow (cell : CellState) (agentHere : bool) : bool :=
  match policy cell with
  | Some _ =>
      bool_decide (type cell <> WALL) && bool_decide (type cell <> TERMINAL)
      && negb agentHere
  | None => false
  end.

(** ** More specification vocabulary *)

(** The opposite direction. *)
Definition opposite (a : Action) : Action :=
  match a with UP => DOWN | DOWN => UP | LEFT => RIGHT | RIGHT => LEFT end.

(** A cell the agent may stand on: neither WALL nor TERMINAL. *)
Definition openAt (grid : Grid) (r c : Z) : Prop :=
  exists cell, cellAt grid r c = Ok cell
               /\ type cell <> WALL /\ type cell <> TERMINAL.

(** Every draw is a result of [Math.random()]. *)
Definition validDraws (draws : nat -> Q) : Prop :=
  forall n, (0 <= draws n < 1)%Q.

(** The two grids hold cells of the same type and reward, at the same
    positions. *)
Definition sameLayout (grid newGrid : Grid) : Prop :=
  forall r c,
    match cellAt grid r c, cellAt newGrid r c with
    | Ok cell, Ok cell' => sameIdentity cell cell'
    | Err _, Err _ => True
    | _, _ => False
    end.

(** The Q-values [q'] are the Q-values [q] scaled by [k] and shifted by
    [c]. *)
Definition affineOf (k c : Q) (q q' : QValues) : Prop :=
  forall a, (qget q' a == k * qget q a + c)%Q.

(** * The arithmetic in binary64

    The definitions above compute with exact rationals, which is sound for
    what depends on comparisons and on the shape of the data only.  The
    numbers that the code stores are IEEE 754 binary64 values: every [+],
    [-] and [*] rounds its exact result to the nearest such value, ties to
    the even significand.  [Binary64] embeds the arithmetic of
    [rlService.ts], of the TD(0) branch and of the heat-map overlay with
    that rounding.  A finite
    double is the rational it denotes; an operation whose rounded result
    is not finite (an overflow to [Infinity]) ends the run with
    [NonFinite]. *)

Module Binary64.

(** The integer [l] with [2^l <= q < 2^(l+1)], for positive [q]. *)
Definition ilog2 (q : Q) : Z :=
  let l := Z.log2 (Qnum q) - Z.log2 (Zpos (Qden q)) in
  if Qle_bool (2 ^ l) q then l else l - 1.

(** The nearest integer, ties to even. *)
Definition rne (x : Q) : Z :=
  let f := Qfloor x in
  match (x - inject_Z f ?= 1 # 2)%Q with
  | Lt => f
  | Gt => f + 1
  | Eq => if Z.even f then f else f + 1
  end.

(** The exponent of the unit in the last place of [q]: 53 significant
    bits, and no exponent below that of the subnormal numbers. *)
Definition expo (q : Q) : Z := Z.max (ilog2 q - 52) (-1074).

(** Rounding of a positive rational to 53 significant bits. *)
Definition rndPos (q : Q) : Q :=
  (inject_Z (rne (q / 2 ^ expo q)) * 2 ^ expo q)%Q.

(** Rounding to nearest, ties to even, with the exponent unbounded
    above. *)
Definition rnd (q : Q) : Q :=
  match (q ?= 0)%Q with
  | Eq => 0%Q
  | Gt => Qred (rndPos q)
  | Lt => Qred (- rndPos (- q))
  end.

(** The result of an arithmetic operation whose exact value is [q]. *)
Definition round (q : Q) : result Q :=
  let v := rnd q in
  if Qle_bool (2 ^ 1024) (Qabs v) then Err NonFinite else Ok v.

(** [x + y], [x - y] and [x * y] *)
Definition add (x y : Q) : result Q := round (x + y).
Definition sub (x y : Q) : result Q := round (x - y).
Definition mul (x y : Q) : result Q := round (x * y).

(** The value of a decimal literal of the source. *)
Definition literal (q : Q) : Q := rnd q.

(** [q] is the value of a finite double. *)
Definition isDouble (q : Q) : bool :=
  Qeq_bool (rnd q) q && Qltb (Qabs q) (2 ^ 1024).

(** [q] has at most 53 significant bits above the smallest exponent. *)
Definition representable (q : Q) : Prop :=
  exists n e, (q == inject_Z n * 2 ^ e)%Q /\ Z.abs n <= 2 ^ 53 /\ -1074 <= e.

(** ** Value iteration *)

Definition moves (action : Action) : list (Action * Q) :=
  [ (action, literal 0.8);
    (fst (getOrthogonalActions action), literal 0.1);
    (snd (getOrthogonalActions action), literal 0.1) ].

(** [expectedUtility += move.prob * destCell.utility] over [moves]. *)
Definition expectedUtilityOf (grid : Grid) (r c : Z) (action : Action)
  : result Q :=
  for_of (moves action)
    (fun '(act, prob) (expectedUtility : Q) =>
       let* (nextRow, nextCol) := getNextState 0 grid r c act false in
       let* destCell := cellAt grid nextRow nextCol in
       let* term := mul prob (utility destCell) in
       add expectedUtility term)
    0%Q.

Definition bellmanMax (grid : Grid) (r c : Z)
  : result (bound * option Action) :=
  for_of ACTIONS
    (fun action '(maxUtility, bestAction) =>
       let* expectedUtility := expectedUtilityOf grid r c action in
       if gtb expectedUtility maxUtility
       then Ok (Finite expectedUtility, Some action)
       else Ok (maxUtility, bestAction))
    (NegInfinity, None).

(** [newGrid[r][c].utility = cell.reward + gamma * maxUtility] *)
Definition sweepCell (grid : Grid) (gamma : Q) (r c : Z) (newGrid : Grid)
  : result Grid :=
  let* cell := cellAt grid r c in
  if decide (type cell = WALL \/ type cell = TERMINAL) then
    if decide (type cell = TERMINAL)
    then modifyCell newGrid r c (set_utility (reward cell))
    else Ok newGrid
  else
    let* (maxUtility, bestAction) := bellmanMax grid r c in
    let* m := finite maxUtility in
    let* discounted := mul gamma m in
    let* newUtility := add (reward cell) discounted in
    let* newGrid := modifyCell newGrid r c (set_utility newUtility) in
    modifyCell newGrid r c (set_policy bestAction).

Definition performValueIterationStep (grid : Grid) (gamma : Q) : result Grid :=
  let newGrid := grid in
  for_range ROWS
    (fun r newGrid =>
       for_range COLS (fun c newGrid => sweepCell grid gamma r c newGrid)
                 newGrid)
    newGrid.

(** ** Action selection *)

(** [xs[Math.floor(u * xs.length)]] *)
Definition pick {A : Type} (u : Q) (xs : list A) : result (option A) :=
  let* x := mul u (inject_Z (Z.of_nat (length xs))) in
  Ok (index xs (Qfloor x)).

Definition getGreedyAction (u : Q) (cell : CellState)
  : result (option Action) :=
  pick u (bestActionsOf cell).

Definition getEpsilonGreedyAction (u1 u2 : Q) (cell : CellState)
    (epsilon : Q) : result (option Action) :=
  if Qltb u1 epsilon then pick u2 ACTIONS
  else getGreedyAction u2 cell.

(** ** The Q-learning and SARSA updates *)

Definition writeBack (u : Q) (newGrid : Grid) (s : Z * Z) (a : Action)
    (newQ : Q) : result Grid :=
  let* cell := cellAt newGrid (fst s) (snd s) in
  let* newGrid :=
    modifyCell newGrid (fst s) (snd s)
               (set_qValues (qset (qValues cell) a newQ)) in
  let* cell := cellAt newGrid (fst s) (snd s) in
  let* m := finite (Math_max (Object_values (qValues cell))) in
  let* newGrid := modifyCell newGrid (fst s) (snd s) (set_utility m) in
  let* cell := cellAt newGrid (fst s) (snd s) in
  let* p := getGreedyAction u cell in
  modifyCell newGrid (fst s) (snd s) (set_policy p).

(** [oldQ + alpha * (r + (gamma * boot) - oldQ)], operation by
    operation. *)
Definition tdUpdate (oldQ alpha r gamma boot : Q) : result Q :=
  let* discounted := mul gamma boot in
  let* target := add r discounted in
  let* delta := sub target oldQ in
  let* step := mul alpha delta in
  add oldQ step.

Definition updateQLearning (u : Q) (grid : Grid) (s : Z * Z) (a : Action)
    (r : Q) (sPrime : Z * Z) (alpha gamma : Q) : result Grid :=
  let newGrid := grid in
  let* cell := cellAt newGrid (fst s) (snd s) in
  let oldQ := qget (qValues cell) a in
  let* next := cellAt newGrid (fst sPrime) (snd sPrime) in
  let* maxQPrime :=
    if decide (type next = TERMINAL) then Ok 0%Q
    else
      let* nextCell := cellAt newGrid (fst sPrime) (snd sPrime) in
      finite (Math_max (Object_values (qValues nextCell))) in
  let* newQ := tdUpdate oldQ alpha r gamma maxQPrime in
  writeBack u newGrid s a newQ.

Definition updateSARSA (u : Q) (grid : Grid) (s : Z * Z) (a : Action)
    (r : Q) (sPrime : Z * Z) (aPrime : Action) (alpha gamma : Q)
  : result Grid :=
  let newGrid := grid in
  let* cell := cellAt newGrid (fst s) (snd s) in
  let oldQ := qget (qValues cell) a in
  let* next := cellAt newGrid (fst sPrime) (snd sPrime) in
  let* qPrime :=
    if decide (type next <> TERMINAL)
    then
      let* nextCell := cellAt newGrid (fst sPrime) (snd sPrime) in
      Ok (qget (qValues nextCell) aPrime)
    else Ok 0%Q in
  let* newQ := tdUpdate oldQ alpha r gamma qPrime in
  writeBack u newGrid s a newQ.

(** ** The TD(0) branch of [stepRL] *)

Definition stepRL_TD (grid : Grid) (prevAgent : AgentState)
    (nextRow nextCol : Z) (alpha gamma : Q) : result Grid :=
  let* nextCell := cellAt grid nextRow nextCol in
  let r := reward nextCell in
  let newGrid := grid in
  let* cur := cellAt newGrid (agentRow prevAgent) (agentCol prevAgent) in
  let currentU := utility cur in
  let* nextU :=
    if decide (type nextCell = TERMINAL) then Ok (reward nextCell)
    else
      let* c := cellAt newGrid nextRow nextCol in
      Ok (utility c) in
  let* newU := tdUpdate currentU alpha r gamma nextU in
  modifyCell newGrid (agentRow prevAgent) (agentCol prevAgent)
             (set_utility newU).

(** ** components/GridWorld.tsx: the heat-map overlay *)

(** [Math.min(Math.abs(cell.utility), 1) * 0.5] *)
Definition opacity (cell : CellState) : result Q :=
  mul (Qmin (Qabs (utility cell)) 1) (literal 0.5).

(** The alpha channel of [utilityOverlay]; [None] for ['transparent']. *)
Definition utilityOverlay (cell : CellState) : result (option Q) :=
  let* opacity := opacity cell in
  if decide (type cell = EMPTY \/ type cell = START)
  then if Qltb 0 (utility cell)
       then let* halved := mul opacity (literal 0.5) in Ok (Some halved)
       else Ok (Some opacity)
  else Ok None.

(** ** Specification vocabulary *)

(** The rounded sum, difference and product. *)
Definition plus (x y : Q) : Q := rnd (x + y).
Definition minus (x y : Q) : Q := rnd (x - y).
Definition times (x y : Q) : Q := rnd (x * y).

(** A magnitude far from the overflow threshold [2^1024]. *)
Definition modest (q : Q) : Prop := (Qabs q <= 2 ^ 200)%Q.

(** The expected utility of an action, with the weights and the
    operations of the code. *)
Definition expected (grid : Grid) (r c : Z) (a : Action) : Q :=
  plus (plus (times (literal 0.8) (U grid (dest grid r c a)))
             (times (literal 0.1)
                    (U grid (dest grid r c (fst (getOrthogonalActions a))))))
       (times (literal 0.1)
              (U grid (dest grid r c (snd (getOrthogonalActions a))))).

(** The value of [expectedUtility] when the loop over [moves] ends. *)
Definition expectedUtility (grid : Grid) (r c : Z) (a : Action) : Q :=
  plus (plus (plus 0 (times (literal 0.8) (U grid (dest grid r c a))))
             (times (literal 0.1)
                    (U grid (dest grid r c (fst (getOrthogonalActions a))))))
       (times (literal 0.1)
              (U grid (dest grid r c (snd (getOrthogonalActions a))))).

(** The new value [old + alpha * (r + gamma * boot - old)]. *)
Definition updated (old alpha r gamma boot : Q) : Q :=
  plus old (times alpha (minus (plus r (times gamma boot)) old)).

(** The cell that the sweep leaves at [(r, c)]. *)
Definition sweptCell (grid : Grid) (gamma : Q) (r c : Z) (cell : CellState)
  : CellState :=
  if decide (type cell = WALL) then cell
  else if decide (type cell = TERMINAL) then set_utility (reward cell) cell
  else
    match argmaxLoop (expectedUtility grid r c) with
    | (Finite m, bestAction) =>
        set_policy bestAction
          (set_utility (plus (reward cell) (times gamma m)) cell)
    | (NegInfinity, _) => cell
    end.

Definition sweepInv (grid : Grid) (gamma : Q) (done : list (Z * Z))
    (newGrid : Grid) : Prop :=
  forall r c,
    cellAt newGrid r c =
    if decide ((r, c) ∈ done)
    then rmap (sweptCell grid gamma r c) (cellAt grid r c)
    else cellAt grid r c.

(** The draws for which the element of index [i] of [k] is picked: from
    the double nearest to [i/k] up to the one nearest to [(i+1)/k]. *)
Definition slot (i k : nat) : interval :=
  mkInterval (rnd (inject_Z (Z.of_nat i) / inject_Z (Z.of_nat k))) true
             (rnd (inject_Z (Z.of_nat i + 1) / inject_Z (Z.of_nat k))) false.

(** A grid on which two actions tie in exact arithmetic and not in
    binary64: step reward 0, utility 4 above and right of the cell (2,2)
    and 3 on it and left of it. *)
Definition nearTieGrid : Grid :=
  alter (alter (set_utility 4) 2%nat) 1%nat
    (alter (alter (set_utility 3) 1%nat) 2%nat
       (alter (alter (set_utility 3) 2%nat) 2%nat
          (alter (alter (set_utility 4) 3%nat) 2%nat
             (createInitialGrid 0)))).

(** The initial grid, with the step reward and the Q-values of the cell
    (1,0) given as doubles. *)
Definition learningGrid : Grid :=
  alter (alter (set_qValues (mkQ (literal 0.5) (literal 0.2) 0 0)) 0%nat) 1%nat
        (createInitialGrid (literal (-0.04))).

(** A grid on which two next actions have Q-values one unit in the last
    place apart: Q(UP) = 0.1 at (2,0), and Q(UP) = 0.3,
    Q(DOWN) = 0.29999999999999993 at (1,0). *)
Definition absorbGrid : Grid :=
  alter (alter (set_qValues (mkQ (literal 0.1) 0 0 0)) 0%nat) 2%nat
    (alter (alter (set_qValues
                     (mkQ (literal 0.3) (literal 0.29999999999999993) 0 0))
                  0%nat) 1%nat
       (createInitialGrid (literal (-0.04)))).

End Binary64.

(** ** Worked examples *)

(** Two sweeps from the initial grid with gamma = 0.9, as the code
    computes them: the cell left of the +1 terminal has utility
    0.6728000000000001 and points RIGHT. *)
Example sweeps_two_next_to_goal :
  rmap (fun cell => (utility cell, policy cell))
       (let* g1 := Binary64.performValueIterationStep
                     (createInitialGrid (Binary64.literal (-0.04)))
                     (Binary64.literal 0.9) in
        let* g2 := Binary64.performValueIterationStep
                     g1 (Binary64.literal 0.9) in
        cellAt g2 0 2)
  = Ok (Binary64.literal 0.6728000000000001, Some RIGHT).
Proof. vm_compute. reflexivity. Qed.

(** At the cell (2,2) of [nearTieGrid] the expected utilities of UP and of
    RIGHT are both 3.9 in exact arithmetic; rounded, UP has
    3.8999999999999999 and RIGHT 3.9000000000000004, so the sweep with
    gamma = 1 stores RIGHT. *)
Example sweep_near_tie :
  (expected Binary64.nearTieGrid 2 2 UP
   == expected Binary64.nearTieGrid 2 2 RIGHT)%Q
  /\ Binary64.expected Binary64.nearTieGrid 2 2 UP
     = Binary64.literal 3.8999999999999999
  /\ Binary64.expected Binary64.nearTieGrid 2 2 RIGHT
     = Binary64.literal 3.9000000000000004
  /\ rmap (fun cell => (utility cell, policy cell))
          (let* g := Binary64.performValueIterationStep
                       Binary64.nearTieGrid 1 in
           cellAt g 2 2)
     = Ok (Binary64.literal 3.9000000000000004, Some RIGHT).
Proof. repeat split; vm_compute; reflexivity. Qed.

(** A slip: draw 0.95 turns UP into LEFT, which bumps at the left edge;
    draw 0.85 turns UP into RIGHT, which enters the -1 terminal. *)
Example getNextState_slips :
  getNextState 0.95 (createInitialGrid (-0.04)) 1 0 UP true = Ok (1, 0)
  /\ getNextState 0.85 (createInitialGrid (-0.04)) 1 2 UP true = Ok (1, 3).
Proof. split; reflexivity. Qed.

(** DOWN and LEFT tie for the largest Q-value: the lower half of the draws
    picks DOWN, the upper half LEFT. *)
Example getGreedyAction_tie :
  getGreedyAction 0.4 (mkCell 0 0 EMPTY 0 0 (mkQ 1 2 2 0) None 0) = Some DOWN
  /\ getGreedyAction 0.6 (mkCell 0 0 EMPTY 0 0 (mkQ 1 2 2 0) None 0)
     = Some LEFT.
Proof. split; reflexivity. Qed.

(** Q-learning bootstraps from the largest Q-value of the successor (0.5),
    SARSA from the one of the supplied action (0.2 for DOWN); the values
    are those that the code stores. *)
Example updates_at_start :
  rmap (fun cell => qget (qValues cell) UP)
       (let* g := Binary64.updateQLearning (Binary64.literal 0.3)
                    Binary64.learningGrid (2, 0) UP (Binary64.literal (-0.04))
                    (1, 0) (Binary64.literal 0.1) (Binary64.literal 0.9) in
        cellAt g 2 0)
  = Ok (Binary64.literal 0.04100000000000001)
  /\ rmap (fun cell => qget (qValues cell) UP)
          (let* g := Binary64.updateSARSA (Binary64.literal 0.3)
                       Binary64.learningGrid (2, 0) UP
                       (Binary64.literal (-0.04)) (1, 0) DOWN
                       (Binary64.literal 0.1) (Binary64.literal 0.9) in
           cellAt g 2 0)
     = Ok (Binary64.literal 0.014000000000000002).
Proof. split; vm_compute; reflexivity. Qed.

(** With three actions tied, the draw 0.3333333333333333 times 3 rounds
    to 1 and picks the second one. *)
Example getGreedyAction_three_ties :
  Binary64.getGreedyAction (Binary64.literal 0.3333333333333333)
    (mkCell 0 0 EMPTY 0 0 (mkQ 1 1 1 0) None 0) = Ok (Some DOWN)
  /\ Binary64.getGreedyAction (Binary64.literal 0.6666666666666666)
       (mkCell 0 0 EMPTY 0 0 (mkQ 1 1 1 0) None 0) = Ok (Some LEFT).
Proof. split; vm_compute; reflexivity. Qed.

(** A position off the grid throws. *)
Example updateQLearning_off_grid :
  updateQLearning 0.3 learningGrid (5, 0) UP (-0.04) (1, 0) 0.1 0.9
  = Err TypeError.
Proof. reflexivity. Qed.

(** ** Arrays and grids *)

Lemma index_Some {A : Type} (xs : list A) (i : Z) (x : A) :
  index xs i = Some x <-> 0 <= i /\ xs !! Z.to_nat i = Some x.
Proof.
  unfold index. destruct (Z.ltb_spec i 0); split.
  - discriminate.
  - intros [? _]. lia.
  - intros ->. split; [lia | reflexivity].
  - intros [_ ?]. assumption.
Qed.

Lemma cellAt_Ok (grid : Grid) (r c : Z) (cell : CellState) :
  cellAt grid r c = Ok cell <->
  0 <= r /\ 0 <= c /\
  exists cells, grid !! Z.to_nat r = Some cells /\
                cells !! Z.to_nat c = Some cell.
Proof.
  unfold cellAt. split.
  - destruct (index grid r) as [cells|] eqn:Hr; [|discriminate].
    destruct (index cells c) as [x|] eqn:Hc; [|discriminate].
    intros [= ->]. apply index_Some in Hr as [? ?]. apply index_Some in Hc as [? ?].
    eauto 6.
  - intros (Hr & Hc & cells & Hg & Hcs).
    assert (index grid r = Some cells) as -> by (apply index_Some; auto).
    assert (index cells c = Some cell) as -> by (apply index_Some; auto).
    reflexivity.
Qed.

(** The grid after the assignment, read back at any position. *)
Lemma cellAt_alter (grid : Grid) (r c : Z) (f : CellState -> CellState)
    (cell : CellState) (r' c' : Z) :
  cellAt grid r c = Ok cell ->
  cellAt (alter (alter f (Z.to_nat c)) (Z.to_nat r) grid) r' c' =
  if decide (r' = r /\ c' = c) then Ok (f cell) else cellAt grid r' c'.
Proof.
  intros H. apply cellAt_Ok in H as (Hr & Hc & cells & Hg & Hcs).
  destruct (decide (r' = r /\ c' = c)) as [[-> ->]|Hne].
  - apply cellAt_Ok. split; [lia|]. split; [lia|].
    exists (alter f (Z.to_nat c) cells). split.
    + rewrite list_lookup_alter_eq, Hg. reflexivity.
    + rewrite list_lookup_alter_eq, Hcs. reflexivity.
  - unfold cellAt, index.
    destruct (Z.ltb_spec r' 0); [reflexivity|].
    destruct (decide (Z.to_nat r = Z.to_nat r')) as [Heq|Hnr].
    + assert (r' = r) as -> by lia.
      rewrite list_lookup_alter_eq, Hg. simpl.
      destruct (Z.ltb_spec c' 0); [reflexivity|].
      rewrite list_lookup_alter_ne by lia. reflexivity.
    + rewrite list_lookup_alter_ne by assumption. reflexivity.
Qed.

Lemma modifyCell_Ok (grid : Grid) (r c : Z) (f : CellState -> CellState)
    (cell : CellState) :
  cellAt grid r c = Ok cell ->
  modifyCell grid r c f = Ok (alter (alter f (Z.to_nat c)) (Z.to_nat r) grid).
Proof. intros H. unfold modifyCell. rewrite H. reflexivity. Qed.

Lemma wfGrid_gridShape (grid : Grid) :
  wfGrid grid = true -> gridShape grid.
Proof.
  unfold wfGrid, gridShape, inBounds. intros [Hlen Hall]%andb_prop r c.
  apply Z.eqb_eq in Hlen. rewrite forallb_forall in Hall.
  split.
  - intros H. repeat (apply andb_prop in H as [H ?]).
    apply Z.leb_le in H. apply Z.ltb_lt in H2. apply Z.leb_le in H1.
    apply Z.ltb_lt in H0.
    destruct (lookup_lt_is_Some_2 grid (Z.to_nat r)) as [cells Hg]; [lia|].
    assert (Hin : In cells grid).
    { apply list_elem_of_In. eapply list_elem_of_lookup_2; eauto. }
    apply Hall, Z.eqb_eq in Hin.
    destruct (lookup_lt_is_Some_2 cells (Z.to_nat c)) as [cell Hcs]; [lia|].
    exists cell. apply cellAt_Ok. eauto 6.
  - intros [cell H]. apply cellAt_Ok in H as (Hr & Hc & cells & Hg & Hcs).
    assert (Hin : In cells grid).
    { apply list_elem_of_In. eapply list_elem_of_lookup_2; eauto. }
    apply Hall, Z.eqb_eq in Hin.
    apply lookup_lt_Some in Hg. apply lookup_lt_Some in Hcs.
    repeat (apply andb_true_intro; split);
      first [apply Z.leb_le | apply Z.ltb_lt]; lia.
Qed.

(** ** Loops *)

Lemma for_of_app {A S : Type} (xs ys : list A) (body : A -> S -> result S)
    (s : S) :
  for_of (xs ++ ys) body s = let* s' := for_of xs body s in for_of ys body s'.
Proof.
  revert s. induction xs as [|x xs IH]; intros s; simpl; [reflexivity|].
  destruct (body x s); simpl; auto.
Qed.

(** Two nested loops visit the pairs in row-major order. *)
Lemma for_of_nested {A B S : Type} (xs : list A) (ys : list B)
    (body : A -> B -> S -> result S) (s : S) :
  for_of xs (fun x s => for_of ys (body x) s) s =
  for_of (flat_map (fun x => map (pair x) ys) xs)
         (fun p s => body (fst p) (snd p) s) s.
Proof.
  revert s. induction xs as [|x xs IH]; intros s; simpl; [reflexivity|].
  rewrite for_of_app.
  assert (Hrow : forall s0, for_of (map (pair x) ys)
                     (fun p s1 => body (fst p) (snd p) s1) s0
                   = for_of ys (body x) s0).
  { clear IH. induction ys as [|y ys IHy]; intros s0; simpl; [reflexivity|].
    destruct (body x y s0); simpl; [apply IHy | reflexivity]. }
  rewrite Hrow. destruct (for_of ys (body x) s); simpl; [apply IH | reflexivity].
Qed.

(** The loop-invariant rule: [I done s] relates the state to the elements
    already visited. *)
Lemma for_of_invariant {A S : Type} (I : list A -> S -> Prop)
    (body : A -> S -> result S) (xs : list A) (s0 : S) :
  I [] s0 ->
  (forall done x rest s, xs = done ++ x :: rest -> I done s ->
     exists s', body x s = Ok s' /\ I (done ++ [x]) s') ->
  exists s', for_of xs body s0 = Ok s' /\ I xs s'.
Proof.
  intros H0 Hstep.
  assert (Hgen : forall rest done s, xs = done ++ rest -> I done s ->
            exists s', for_of rest body s = Ok s' /\ I xs s').
  { induction rest as [|x rest IH]; intros done s Hxs Hd.
    - rewrite app_nil_r in Hxs. subst done. exists s.
      split; [reflexivity | assumption].
    - destruct (Hstep done x rest s Hxs Hd) as (s' & Hb & Hd').
      simpl. rewrite Hb. simpl. apply (IH (done ++ [x])); [|assumption].
      rewrite <- app_assoc. assumption. }
  apply (Hgen xs [] s0); [reflexivity | assumption].
Qed.

(** ** Comparisons *)

Lemma Qltb_true (x y : Q) : Qltb x y = true <-> (x < y)%Q.
Proof.
  unfold Qltb. rewrite negb_true_iff, <- not_true_iff_false, Qle_bool_iff.
  split; [apply Qnot_le_lt | apply Qlt_not_le].
Qed.

Lemma Qltb_false (x y : Q) : Qltb x y = false <-> (y <= x)%Q.
Proof.
  unfold Qltb. rewrite negb_false_iff, Qle_bool_iff. reflexivity.
Qed.

Lemma Qltb_cases (x y : Q) :
  (Qltb x y = true /\ (x < y)%Q) \/ (Qltb x y = false /\ (y <= x)%Q).
Proof.
  destruct (Qltb x y) eqn:E; [left | right]; split; auto.
  - apply Qltb_true; assumption.
  - apply Qltb_false; assumption.
Qed.

Lemma Qeq_bool_cases (x y : Q) :
  (Qeq_bool x y = true /\ (x == y)%Q) \/ (Qeq_bool x y = false /\ ~ (x == y)%Q).
Proof.
  destruct (Qeq_bool x y) eqn:E; [left | right]; split; auto.
  - apply Qeq_bool_iff; assumption.
  - apply Qeq_bool_neq; assumption.
Qed.

(** A comparison of two rational constants, by evaluation. *)
Ltac evalQ :=
  try unfold within;
  repeat match goal with |- _ /\ _ => split end;
  vm_compute; first [reflexivity | discriminate].

(** Case analysis on every comparison of rationals in the goal. *)
Ltac compare_all :=
  repeat match goal with
    | |- context [Qltb ?x ?y] =>
        let E := fresh "E" in let H := fresh "H" in
        destruct (Qltb_cases x y) as [[E H]|[E H]]; rewrite E; simpl
    | |- context [Qeq_bool ?x ?y] =>
        let E := fresh "E" in let H := fresh "H" in
        destruct (Qeq_bool_cases x y) as [[E H]|[E H]]; rewrite E; simpl
    end.

(** ** The transition model *)

Lemma inBounds_true (r c : Z) :
  inBounds r c = true <-> 0 <= r < ROWS /\ 0 <= c < COLS.
Proof.
  unfold inBounds. rewrite !andb_true_iff, !Z.leb_le, !Z.ltb_lt. lia.
Qed.

Lemma outside_inBounds (r c : Z) :
  (r <? 0) || (ROWS <=? r) || (c <? 0) || (COLS <=? c) = negb (inBounds r c).
Proof.
  unfold inBounds.
  destruct (Z.ltb_spec r 0), (Z.leb_spec ROWS r), (Z.ltb_spec c 0),
    (Z.leb_spec COLS c), (Z.leb_spec 0 r), (Z.ltb_spec r ROWS),
    (Z.leb_spec 0 c), (Z.ltb_spec c COLS); simpl; try reflexivity; lia.
Qed.

Lemma neighbour_delta (r c : Z) (a : Action) :
  (r + fst (delta a), c + snd (delta a)) = neighbour r c a.
Proof. destruct a; simpl; f_equal; lia. Qed.

(** In deterministic mode the draw is never read. *)
Lemma getNextState_deterministic_draw (u u' : Q) (grid : Grid) (r c : Z)
    (a : Action) :
  getNextState u grid r c a false = getNextState u' grid r c a false.
Proof. reflexivity. Qed.

(** On a grid of the right shape the deterministic move is [dest]. *)
Lemma getNextState_dest (u : Q) (grid : Grid) (r c : Z) (a : Action) :
  gridShape grid ->
  getNextState u grid r c a false = Ok (dest grid r c a).
Proof.
  intros Hwf. unfold getNextState, dest, executedAction.
  pose proof (neighbour_delta r c a) as Hn.
  destruct (delta a) as [dRow dCol]. simpl in Hn.
  destruct (neighbour r c a) as [r' c']. injection Hn as -> ->.
  rewrite outside_inBounds.
  destruct (inBounds r' c') eqn:Hin; simpl; [|reflexivity].
  apply (Hwf r' c') in Hin as [cell Hcell].
  unfold isWall. rewrite Hcell. simpl.
  destruct (decide (type cell = WALL)) as [Hw|Hw].
  - rewrite bool_decide_eq_true_2 by assumption. reflexivity.
  - rewrite bool_decide_eq_false_2 by assumption. reflexivity.
Qed.

Lemma dest_inBounds (grid : Grid) (r c : Z) (a : Action) :
  inBounds r c = true ->
  inBounds (fst (dest grid r c a)) (snd (dest grid r c a)) = true.
Proof.
  intros H. unfold dest. destruct (neighbour r c a) as [r' c'].
  destruct (inBounds r' c') eqn:Hin; simpl; [|assumption].
  destruct (isWall grid r' c'); simpl; assumption.
Qed.

(** A stochastic move is the deterministic move of the executed action. *)
Lemma getNextState_executed (u : Q) (grid : Grid) (r c : Z) (a : Action)
    (isStochastic : bool) :
  getNextState u grid r c a isStochastic =
  getNextState u grid r c (executedAction u a isStochastic) false.
Proof. reflexivity. Qed.

(** ** The value-iteration sweep *)

(** [rank] is the index in [ACTIONS]. *)
Lemma rank_ACTIONS (a : Action) : ACTIONS !! rank a = Some a.
Proof. destruct a; reflexivity. Qed.

(** The loop ends at the first action, in the order of [ACTIONS], whose
    value is the largest. *)
Lemma argmaxLoop_spec (e : Action -> Q) :
  exists a, argmaxLoop e = (Finite (e a), Some a)
            /\ (forall b, (e b <= e a)%Q)
            /\ (forall b, (rank b < rank a)%nat -> (e b < e a)%Q).
Proof.
  unfold argmaxLoop. simpl. unfold gtb.
  compare_all;
    match goal with
    | |- exists a, (Finite (e ?x), Some ?x) = _ /\ _ => exists x
    | |- exists a, (_, Some ?x) = _ /\ _ => exists x
    end;
    (split; [reflexivity|]);
    (split; [intros []; lra | intros []; simpl; intros; try lra; lia]).
Qed.

Lemma positions_NoDup : NoDup positions.
Proof. apply (bool_decide_unpack _). vm_compute. reflexivity. Qed.

Lemma positions_inBounds (r c : Z) :
  (r, c) ∈ positions <-> inBounds r c = true.
Proof.
  rewrite inBounds_true. unfold positions, ROWS, COLS. simpl.
  rewrite !elem_of_cons, elem_of_nil.
  split.
  - intros H. repeat (destruct H as [H|H]; [injection H as -> ->; lia|]).
    contradiction.
  - intros [Hr Hc].
    assert (r = 0 \/ r = 1 \/ r = 2) as Hr' by lia.
    assert (c = 0 \/ c = 1 \/ c = 2 \/ c = 3) as Hc' by lia.
    destruct Hr' as [->|[->| ->]]; destruct Hc' as [->|[->|[->| ->]]]; tauto.
Qed.

Lemma performValueIterationStep_positions (grid : Grid) (gamma : Q) :
  performValueIterationStep grid gamma =
  for_of positions (fun p s => sweepCell grid gamma (fst p) (snd p) s) grid.
Proof.
  unfold performValueIterationStep, for_range, positions.
  apply (for_of_nested (seqZ 0 ROWS) (seqZ 0 COLS)
           (fun r c s => sweepCell grid gamma r c s)).
Qed.

Section Sweep.

(** One sweep with discount [gamma] over a grid of the right shape. *)
Variable grid : Grid.
Variable gamma : Q.
Hypothesis Hshape : gridShape grid.

Lemma cellAt_U (r c : Z) :
  inBounds r c = true ->
  exists cell, cellAt grid r c = Ok cell /\ utility cell = U grid (r, c).
Proof using Hshape.
  intros Hin. apply (Hshape r c) in Hin as [cell Hcell].
  exists cell. split; [assumption|]. unfold U. simpl. rewrite Hcell.
  reflexivity.
Qed.

Lemma expectedUtilityOf_Ok (r c : Z) (a : Action) :
  inBounds r c = true ->
  expectedUtilityOf grid r c a = Ok (expectedUtility grid r c a).
Proof using Hshape.
  intros Hin. unfold expectedUtilityOf, expectedUtility, moves.
  set (o1 := fst (getOrthogonalActions a)).
  set (o2 := snd (getOrthogonalActions a)).
  assert (Hstep : forall x prob acc,
            (let* (nextRow, nextCol) := getNextState 0 grid r c x false in
             let* destCell := cellAt grid nextRow nextCol in
             Ok (acc + prob * utility destCell)%Q)
            = Ok (acc + prob * U grid (dest grid r c x))%Q).
  { intros x prob acc. rewrite (getNextState_dest 0 grid r c x Hshape). simpl.
    pose proof (dest_inBounds grid r c x Hin) as Hd.
    destruct (dest grid r c x) as [nr nc]. simpl in Hd.
    destruct (cellAt_U nr nc Hd) as (cell & Hcell & HU).
    rewrite Hcell. simpl. rewrite HU. reflexivity. }
  cbn [for_of]. rewrite Hstep. cbn [rbind]. rewrite Hstep. cbn [rbind].
  rewrite Hstep. reflexivity.
Qed.

Lemma bellmanMax_Ok (r c : Z) :
  inBounds r c = true ->
  bellmanMax grid r c = Ok (argmaxLoop (expectedUtility grid r c)).
Proof using Hshape.
  intros Hin. unfold bellmanMax, argmaxLoop.
  generalize (NegInfinity, @None Action).
  induction ACTIONS as [|a l IH]; intros st; simpl; [reflexivity|].
  rewrite (expectedUtilityOf_Ok r c a Hin). simpl.
  destruct st as [m b]. simpl.
  destruct (gtb (expectedUtility grid r c a) m); simpl; apply IH.
Qed.

(** Writing the new content of the cell being visited, and nothing
    else, keeps the invariant. *)
Lemma sweepInv_write (done : list (Z * Z)) (newGrid g' : Grid) (r c : Z)
    (cell : CellState) :
  sweepInv grid gamma done newGrid ->
  cellAt grid r c = Ok cell ->
  (forall r' c',
     cellAt g' r' c' =
     if decide (r' = r /\ c' = c) then Ok (sweptCell grid gamma r c cell)
     else cellAt newGrid r' c') ->
  sweepInv grid gamma (done ++ [(r, c)]) g'.
Proof using Type.
  intros Hinv Hcell Hg' r' c'. rewrite (Hg' r' c').
  destruct (decide (r' = r /\ c' = c)) as [[-> ->]|Hne].
  - rewrite decide_True
      by (apply elem_of_app; right; apply list_elem_of_singleton; reflexivity).
    rewrite Hcell. reflexivity.
  - rewrite (Hinv r' c').
    destruct (decide ((r', c') ∈ done)) as [Hd|Hd].
    + rewrite decide_True by (apply elem_of_app; left; assumption).
      reflexivity.
    + rewrite decide_False; [reflexivity|].
      rewrite elem_of_app, list_elem_of_singleton.
      intros [?|[= -> ->]]; [contradiction|]. apply Hne. split; reflexivity.
Qed.

(** The body of the loops, at a cell not visited before. *)
Lemma sweepCell_step (done : list (Z * Z)) (newGrid : Grid) (r c : Z) :
  inBounds r c = true -> (r, c) ∉ done ->
  sweepInv grid gamma done newGrid ->
  exists g', sweepCell grid gamma r c newGrid = Ok g'
             /\ sweepInv grid gamma (done ++ [(r, c)]) g'.
Proof using Hshape.
  intros Hin Hnew Hinv.
  destruct (proj1 (Hshape r c) Hin) as [cell Hcell].
  assert (Hs : cellAt newGrid r c = Ok cell).
  { rewrite (Hinv r c). rewrite decide_False by assumption. assumption. }
  unfold sweepCell. rewrite Hcell. cbn [rbind].
  destruct (decide (type cell = WALL \/ type cell = TERMINAL)) as [Hwt|Hn].
  - destruct (decide (type cell = TERMINAL)) as [Ht|Ht].
    + rewrite (modifyCell_Ok newGrid r c _ cell Hs).
      eexists. split; [reflexivity|].
      apply (sweepInv_write done newGrid _ r c cell Hinv Hcell).
      intros r' c'. rewrite (cellAt_alter newGrid r c _ cell r' c' Hs).
      unfold sweptCell.
      rewrite (decide_False (P := type cell = WALL)) by congruence.
      rewrite (decide_True (P := type cell = TERMINAL)) by assumption.
      reflexivity.
    + exists newGrid. split; [reflexivity|].
      apply (sweepInv_write done newGrid _ r c cell Hinv Hcell).
      intros r' c'. unfold sweptCell.
      rewrite (decide_True (P := type cell = WALL)) by tauto.
      destruct (decide (r' = r /\ c' = c)) as [[-> ->]|Hne];
        [assumption | reflexivity].
  - rewrite (bellmanMax_Ok r c Hin).
    destruct (argmaxLoop_spec (expectedUtility grid r c)) as (a & Ha & _).
    cbn [rbind]. rewrite Ha. cbn [finite rbind].
    rewrite (modifyCell_Ok newGrid r c _ cell Hs). cbn [rbind].
    pose proof (cellAt_alter newGrid r c
                  (set_utility
                     (reward cell + gamma * expectedUtility grid r c a)%Q)
                  cell) as H1.
    pose proof (H1 r c Hs) as Hs1. rewrite decide_True in Hs1 by tauto.
    rewrite (modifyCell_Ok _ r c _ _ Hs1). eexists. split; [reflexivity|].
    apply (sweepInv_write done newGrid _ r c cell Hinv Hcell).
    intros r' c'. rewrite (cellAt_alter _ r c _ _ r' c' Hs1).
    unfold sweptCell.
    rewrite (decide_False (P := type cell = WALL)) by tauto.
    rewrite (decide_False (P := type cell = TERMINAL)) by tauto. rewrite Ha.
    destruct (decide (r' = r /\ c' = c)) as [_|Hne]; [reflexivity|].
    rewrite (H1 r' c' Hs). rewrite decide_False by assumption. reflexivity.
Qed.

(** The sweep returns, and every cell of the returned grid is the swept
    cell of the input grid. *)
Lemma performValueIterationStep_cells :
  exists g', performValueIterationStep grid gamma = Ok g'
             /\ forall r c,
                 cellAt g' r c
                 = rmap (sweptCell grid gamma r c) (cellAt grid r c).
Proof using Hshape.
  rewrite performValueIterationStep_positions.
  destruct (for_of_invariant (sweepInv grid gamma)
              (fun p s => sweepCell grid gamma (fst p) (snd p) s)
              positions grid) as (g' & Hrun & Hinv).
  - intros r c. rewrite decide_False by apply not_elem_of_nil. reflexivity.
  - intros done [r c] rest s Hpos Hinv. simpl.
    pose proof positions_NoDup as Hnd. rewrite Hpos in Hnd.
    apply NoDup_app in Hnd as (_ & Hdisj & _).
    apply (sweepCell_step done s r c).
    + apply positions_inBounds. rewrite Hpos.
      apply elem_of_app. right. apply elem_of_cons. left. reflexivity.
    + intros Hd. apply (Hdisj _ Hd). apply elem_of_cons. left. reflexivity.
    + assumption.
  - exists g'. split; [assumption|]. intros r c. rewrite (Hinv r c).
    destruct (decide ((r, c) ∈ positions)) as [_|Hout]; [reflexivity|].
    rewrite positions_inBounds in Hout.
    destruct (cellAt grid r c) as [cell|e] eqn:Hcell; [|reflexivity].
    exfalso. apply Hout. apply (Hshape r c). eauto.
Qed.

End Sweep.

Lemma expectedUtility_expected (grid : Grid) (r c : Z) (a : Action) :
  (expectedUtility grid r c a == expected grid r c a)%Q.
Proof. unfold expectedUtility, expected. ring. Qed.

(** The swept cell of a cell that is neither WALL nor TERMINAL. *)
Lemma sweptCell_open (grid : Grid) (gamma : Q) (r c : Z) (cell : CellState) :
  type cell <> WALL -> type cell <> TERMINAL ->
  exists best,
    sweptCell grid gamma r c cell =
      set_policy (Some best)
        (set_utility (reward cell + gamma * expectedUtility grid r c best)%Q cell)
    /\ (forall a, (expected grid r c a <= expected grid r c best)%Q)
    /\ (forall a, (rank a < rank best)%nat ->
                  (expected grid r c a < expected grid r c best)%Q).
Proof.
  intros Hw Ht. unfold sweptCell.
  rewrite (decide_False (P := type cell = WALL)) by assumption.
  rewrite (decide_False (P := type cell = TERMINAL)) by assumption.
  destruct (argmaxLoop_spec (expectedUtility grid r c)) as (best & -> & Hmax & Hfirst).
  exists best. split; [reflexivity|]. split.
  - intros a. rewrite <- !expectedUtility_expected. apply Hmax.
  - intros a Ha. rewrite <- !expectedUtility_expected. apply Hfirst, Ha.
Qed.

(** The sweep keeps the shape of the grid. *)
Lemma gridShape_swept (grid newGrid : Grid) (gamma : Q) :
  gridShape grid ->
  (forall r c,
     cellAt newGrid r c = rmap (sweptCell grid gamma r c) (cellAt grid r c)) ->
  gridShape newGrid.
Proof.
  intros Hwf Hcells r c. rewrite (Hwf r c), (Hcells r c).
  destruct (cellAt grid r c) as [cell|e]; simpl; split; intros [x Hx]; eauto;
    discriminate.
Qed.

(** What a sweep never changes, and what it pins. *)
Lemma sweptCell_fixed (grid : Grid) (gamma : Q) (r c : Z) (cell : CellState) :
  type (sweptCell grid gamma r c cell) = type cell
  /\ reward (sweptCell grid gamma r c cell) = reward cell
  /\ (type cell = WALL -> sweptCell grid gamma r c cell = cell)
  /\ (type cell = TERMINAL ->
      utility (sweptCell grid gamma r c cell) = reward cell).
Proof.
  unfold sweptCell.
  destruct (decide (type cell = WALL)) as [Hw|Hw].
  { repeat split; auto. congruence. }
  destruct (decide (type cell = TERMINAL)) as [Ht|Ht].
  { repeat split; auto. contradiction. }
  destruct (argmaxLoop (expectedUtility grid r c)) as [[|m] best];
    repeat split; auto; contradiction.
Qed.

(** [n] sweeps: types and rewards stay, WALL cells stay whole, and from
    the first sweep on the TERMINAL cells hold their reward. *)
Lemma sweeps_fixed (gamma : Q) (n : nat) (grid : Grid) :
  gridShape grid ->
  exists g', sweeps n grid gamma = Ok g'
    /\ forall r c cell, cellAt grid r c = Ok cell ->
         exists cell', cellAt g' r c = Ok cell'
           /\ type cell' = type cell
           /\ reward cell' = reward cell
           /\ (type cell = WALL -> cell' = cell)
           /\ (type cell = TERMINAL -> (0 < n)%nat ->
               utility cell' = reward cell).
Proof.
  revert grid. induction n as [|n IH]; intros grid Hwf.
  - exists grid. split; [reflexivity|]. intros r c cell Hcell.
    exists cell. repeat split; auto. lia.
  - destruct (performValueIterationStep_cells grid gamma Hwf) as (g1 & Hrun & Hcells).
    destruct (IH g1 (gridShape_swept grid g1 gamma Hwf Hcells)) as (g' & Hrest & Hfix).
    exists g'. simpl. rewrite Hrun. simpl. split; [assumption|].
    intros r c cell Hcell.
    pose proof (Hcells r c) as H1. rewrite Hcell in H1. simpl in H1.
    destruct (sweptCell_fixed grid gamma r c cell) as (Hty & Hrw & Hwall & Hterm).
    destruct (Hfix r c _ H1) as (cell' & Hc' & Hty' & Hrw' & Hwall' & Hterm').
    exists cell'. split; [assumption|].
    split; [congruence|]. split; [congruence|]. split.
    + intros Hw. rewrite Hwall' by congruence. auto.
    + intros Ht _. destruct n as [|n'].
      * simpl in Hrest. injection Hrest as <-. rewrite H1 in Hc'.
        injection Hc' as <-. auto.
      * rewrite Hterm' by (congruence || lia). assumption.
Qed.

(** ** Grid construction *)

(** C9.  For every step reward, [createInitialGrid] returns three rows of
    four cells: WALL with reward 0 at (1,1), TERMINAL with reward +1.0 at
    (0,3), TERMINAL with reward -1.0 at (1,3), START at (2,0), EMPTY
    everywhere else; START and EMPTY cells carry the step reward; every
    cell has utility 0, the four Q-values 0, no policy, visit count 0 and
    its own row and column. *)
Theorem createInitialGrid_layout (stepReward : Q) :
  let fresh (r c : Z) (ty : CellType) (rw : Q) :=
    mkCell r c ty rw 0%Q (mkQ 0 0 0 0) None 0 in
  createInitialGrid stepReward =
  [ [ fresh 0 0 EMPTY stepReward; fresh 0 1 EMPTY stepReward;
      fresh 0 2 EMPTY stepReward; fresh 0 3 TERMINAL 1.0%Q ];
    [ fresh 1 0 EMPTY stepReward; fresh 1 1 WALL 0%Q;
      fresh 1 2 EMPTY stepReward; fresh 1 3 TERMINAL (-1.0)%Q ];
    [ fresh 2 0 START stepReward; fresh 2 1 EMPTY stepReward;
      fresh 2 2 EMPTY stepReward; fresh 2 3 EMPTY stepReward ] ].
Proof. reflexivity. Qed.

(** ** Statements about the transition model *)

(** C5.  On a 3 x 4 grid, from a position inside the bounds, the
    deterministic [getNextState] returns the neighbour in the direction of
    the action when that neighbour is inside the bounds and is not a WALL,
    and the origin otherwise; in both modes the returned position is inside
    the bounds. *)
Theorem getNextState_move_or_bump (u : Q) (grid : Grid) (row col : Z)
    (action : Action) :
  wfGrid grid = true ->
  0 <= row < ROWS -> 0 <= col < COLS ->
  getNextState u grid row col action false =
    Ok (let '(newRow, newCol) := neighbour row col action in
        if inBounds newRow newCol && negb (isWall grid newRow newCol)
        then (newRow, newCol)
        else (row, col))
  /\ forall isStochastic, exists nextRow nextCol,
       getNextState u grid row col action isStochastic = Ok (nextRow, nextCol)
       /\ 0 <= nextRow < ROWS /\ 0 <= nextCol < COLS.
Proof.
  intros Hwf%wfGrid_gridShape Hr Hc.
  split; [apply (getNextState_dest u grid row col action Hwf)|].
  intros isStochastic. rewrite getNextState_executed.
  rewrite (getNextState_dest u grid row col _ Hwf).
  assert (Hin : inBounds row col = true) by (apply inBounds_true; auto).
  pose proof (dest_inBounds grid row col
                (executedAction u action isStochastic) Hin) as Hd.
  destruct (dest grid row col (executedAction u action isStochastic))
    as [nextRow nextCol].
  exists nextRow, nextCol. split; [reflexivity|].
  apply inBounds_true in Hd. exact Hd.
Qed.

Lemma getNextState_move_or_bump_witness :
  getNextState 0.95 (createInitialGrid (-0.04)) 1 0 RIGHT false = Ok (1, 0)
  /\ exists nextRow nextCol,
       getNextState 0.95 (createInitialGrid (-0.04)) 1 0 RIGHT true
         = Ok (nextRow, nextCol)
       /\ 0 <= nextRow < ROWS /\ 0 <= nextCol < COLS.
Proof.
  destruct (getNextState_move_or_bump 0.95 (createInitialGrid (-0.04)) 1 0 RIGHT)
    as [Hdet Hany]; [reflexivity | unfold ROWS; lia | unfold COLS; lia |].
  split; [exact Hdet | exact (Hany true)].
Defined.

(** ** Statements about value iteration *)

(** C4.  On a 3 x 4 grid the sweep returns a grid in which every TERMINAL
    cell has utility equal to its own reward and every WALL cell is the
    cell of the input grid, field by field; the same holds after any number
    [n + 1] of sweeps. *)
Theorem performValueIterationStep_pins_terminals (grid : Grid) (gamma : Q) :
  wfGrid grid = true ->
  (exists newGrid,
     performValueIterationStep grid gamma = Ok newGrid
     /\ (forall r c cell',
           cellAt newGrid r c = Ok cell' -> type cell' = TERMINAL ->
           utility cell' = reward cell')
     /\ (forall r c cell,
           cellAt grid r c = Ok cell -> type cell = TERMINAL ->
           exists cell', cellAt newGrid r c = Ok cell'
                         /\ type cell' = TERMINAL
                         /\ reward cell' = reward cell
                         /\ utility cell' = reward cell)
     /\ (forall r c cell,
           cellAt grid r c = Ok cell -> type cell = WALL ->
           cellAt newGrid r c = Ok cell))
  /\ forall n, exists lastGrid,
       sweeps (S n) grid gamma = Ok lastGrid
       /\ (forall r c cell,
             cellAt grid r c = Ok cell -> type cell = TERMINAL ->
             exists cell', cellAt lastGrid r c = Ok cell'
                           /\ type cell' = TERMINAL
                           /\ reward cell' = reward cell
                           /\ utility cell' = reward cell)
       /\ (forall r c cell,
             cellAt grid r c = Ok cell -> type cell = WALL ->
             cellAt lastGrid r c = Ok cell).
Proof.
  intros Hwf%wfGrid_gridShape. split.
  - destruct (performValueIterationStep_cells grid gamma Hwf) as (newGrid & Hrun & Hcells).
    exists newGrid. split; [assumption|]. split; [|split].
    + intros r c cell' Hc' Ht. rewrite (Hcells r c) in Hc'.
      destruct (cellAt grid r c) as [cell|e]; [|discriminate].
      simpl in Hc'. injection Hc' as <-.
      destruct (sweptCell_fixed grid gamma r c cell) as (Hty & Hrw & _ & Hterm).
      rewrite Hrw. apply Hterm. congruence.
    + intros r c cell Hcell Ht.
      destruct (sweptCell_fixed grid gamma r c cell) as (Hty & Hrw & _ & Hterm).
      exists (sweptCell grid gamma r c cell).
      split; [rewrite (Hcells r c), Hcell; reflexivity|].
      split; [congruence|]. split; [assumption | auto].
    + intros r c cell Hcell Hw.
      destruct (sweptCell_fixed grid gamma r c cell) as (_ & _ & Hwall & _).
      rewrite (Hcells r c), Hcell. simpl. rewrite Hwall by assumption.
      reflexivity.
  - intros n.
    destruct (sweeps_fixed gamma (S n) grid Hwf) as (lastGrid & Hrun & Hfix).
    exists lastGrid. split; [assumption|]. split.
    + intros r c cell Hcell Ht.
      destruct (Hfix r c cell Hcell) as (cell' & Hc' & Hty & Hrw & _ & Hterm).
      exists cell'. split; [assumption|]. split; [congruence|].
      split; [assumption|]. apply Hterm; [assumption | lia].
    + intros r c cell Hcell Hw.
      destruct (Hfix r c cell Hcell) as (cell' & Hc' & _ & _ & Hwall & _).
      rewrite Hc'. f_equal. auto.
Qed.

Lemma performValueIterationStep_pins_terminals_witness :
  exists lastGrid,
    sweeps 3 (createInitialGrid (-0.04)) 0.9 = Ok lastGrid
    /\ (exists cell', cellAt lastGrid 0 3 = Ok cell'
                      /\ type cell' = TERMINAL
                      /\ reward cell' = 1.0%Q
                      /\ utility cell' = 1.0%Q)
    /\ cellAt lastGrid 1 1 = Ok (mkCell 1 1 WALL 0 0 (mkQ 0 0 0 0) None 0).
Proof.
  destruct (performValueIterationStep_pins_terminals
              (createInitialGrid (-0.04)) 0.9) as [_ Hn]; [reflexivity|].
  destruct (Hn 2%nat) as (lastGrid & Hrun & Hterm & Hwall).
  exists lastGrid. split; [exact Hrun|]. split.
  - apply (Hterm 0 3 (mkCell 0 3 TERMINAL 1.0 0 (mkQ 0 0 0 0) None 0));
      reflexivity.
  - apply (Hwall 1 1 (mkCell 1 1 WALL 0 0 (mkQ 0 0 0 0) None 0)); reflexivity.
Defined.

(** ** Picking by a draw *)

Lemma Qfloor_iff (x : Q) (i : Z) :
  Qfloor x = i <-> (inject_Z i <= x < inject_Z (i + 1))%Q.
Proof.
  split.
  - intros <-. split; [apply Qfloor_le | apply Qlt_floor].
  - intros [Hlo Hhi].
    pose proof (Qfloor_le x) as Hfl. pose proof (Qlt_floor x) as Hfu.
    assert (H1 : (inject_Z i < inject_Z (Qfloor x + 1))%Q) by lra.
    assert (H2 : (inject_Z (Qfloor x) < inject_Z (i + 1))%Q) by lra.
    rewrite <- Zlt_Qlt in H1, H2. lia.
Qed.

Lemma within_slot (u : Q) (i k : nat) :
  (0 < k)%nat ->
  within u (slot i k) <->
  (inject_Z (Z.of_nat i) <= u * inject_Z (Z.of_nat k)
   < inject_Z (Z.of_nat i + 1))%Q.
Proof.
  intros Hk. unfold within, slot. simpl.
  assert (Hn : (0 < inject_Z (Z.of_nat k))%Q).
  { change 0%Q with (inject_Z 0). rewrite <- Zlt_Qlt. lia. }
  set (n := inject_Z (Z.of_nat k)) in *.
  assert (Hne : ~ (n == 0)%Q) by lra.
  rewrite <- (Qmult_le_r (inject_Z (Z.of_nat i) / n) u n Hn).
  rewrite <- (Qmult_lt_r u (inject_Z (Z.of_nat i + 1) / n) n Hn).
  assert (E1 : (inject_Z (Z.of_nat i) / n * n == inject_Z (Z.of_nat i))%Q)
    by (field; assumption).
  assert (E2 : (inject_Z (Z.of_nat i + 1) / n * n == inject_Z (Z.of_nat i + 1))%Q)
    by (field; assumption).
  rewrite E1, E2. reflexivity.
Qed.

Lemma measure_slot (i k : nat) :
  (0 < k)%nat -> (measure (slot i k) == 1 / inject_Z (Z.of_nat k))%Q.
Proof.
  intros Hk. unfold measure, slot. simpl.
  assert (Hn : (0 < inject_Z (Z.of_nat k))%Q).
  { change 0%Q with (inject_Z 0). rewrite <- Zlt_Qlt. lia. }
  rewrite inject_Z_plus. field. lra.
Qed.

(** A draw in [[0, 1)] picks an element of a non-empty array. *)
Lemma pick_index {A : Type} (u : Q) (xs : list A) :
  (0 <= u < 1)%Q -> xs <> [] ->
  exists i, (i < length xs)%nat
            /\ Qfloor (u * inject_Z (Z.of_nat (length xs))) = Z.of_nat i
            /\ pick u xs = xs !! i.
Proof.
  intros [Hu0 Hu1] Hne.
  assert (Hk : (0 < length xs)%nat) by (destruct xs; [contradiction | simpl; lia]).
  assert (Hn : (0 < inject_Z (Z.of_nat (length xs)))%Q).
  { change 0%Q with (inject_Z 0). rewrite <- Zlt_Qlt. lia. }
  unfold pick. set (n := inject_Z (Z.of_nat (length xs))) in *.
  assert (Hx0 : (0 <= u * n)%Q) by (apply Qmult_le_0_compat; lra).
  assert (Hx1 : (u * n < n)%Q).
  { rewrite <- (Qmult_1_l n) at 2. apply Qmult_lt_r; assumption. }
  pose proof (Qfloor_le (u * n)) as Hfl.
  assert (Hf0 : (0 <= Qfloor (u * n))%Z)
    by exact (Qfloor_resp_le 0 (u * n) Hx0).
  assert (Hf1 : (Qfloor (u * n) < Z.of_nat (length xs))%Z).
  { rewrite Zlt_Qlt. fold n. lra. }
  exists (Z.to_nat (Qfloor (u * n))). split; [lia|]. split; [lia|].
  unfold index. destruct (Z.ltb_spec (Qfloor (u * n)) 0); [lia | reflexivity].
Qed.

(** In an array without repetition the element at index [i] is picked
    exactly by the draws of the [i]-th part of [[0, 1)]. *)
Lemma pick_Some_iff {A : Type} (u : Q) (xs : list A) (i : nat) (a : A) :
  (0 <= u < 1)%Q -> NoDup xs -> xs !! i = Some a ->
  pick u xs = Some a <-> within u (slot i (length xs)).
Proof.
  intros Hu Hnd Hi.
  assert (Hne : xs <> []) by (intros ->; discriminate).
  destruct (pick_index u xs Hu Hne) as (j & Hj & Hfl & Hpick).
  rewrite within_slot by lia. rewrite <- Qfloor_iff, Hfl, Hpick.
  split.
  - intros Hja. f_equal. symmetry. apply (NoDup_lookup xs i j a Hnd Hi Hja).
  - intros Hij. apply Nat2Z.inj in Hij. subst j. assumption.
Qed.

(** ** The greedy loop *)

Lemma filter_none {A : Type} (f : A -> bool) (l : list A) :
  (forall x, x ∈ l -> f x = false) -> List.filter f l = [].
Proof.
  induction l as [|x l IH]; intros H; simpl; [reflexivity|].
  rewrite (H x) by (apply elem_of_cons; left; reflexivity).
  apply IH. intros y Hy. apply H. apply elem_of_cons. right. assumption.
Qed.

(** After the actions [l] the loop holds the largest Q-value seen and the
    actions of [l] that have it, in the order of [l]. *)
Lemma greedyLoop_spec (cell : CellState) (l : list Action) :
  match fold_left (greedyStep cell) l (NegInfinity, []) with
  | (NegInfinity, bestActions) => l = [] /\ bestActions = []
  | (Finite v, bestActions) =>
      (exists a, a ∈ l /\ v = qget (qValues cell) a)
      /\ (forall a, a ∈ l -> (qget (qValues cell) a <= v)%Q)
      /\ bestActions =
         List.filter (fun a => Qeq_bool (qget (qValues cell) a) v) l
  end.
Proof.
  set (q := qValues cell).
  induction l as [|a l IH] using rev_ind; simpl; [split; reflexivity|].
  rewrite fold_left_app. simpl.
  destruct (fold_left (greedyStep cell) l (NegInfinity, [])) as [[|v] best].
  - destruct IH as [-> ->]. simpl. fold q. split; [|split].
    + exists a. split; [apply list_elem_of_singleton|]; reflexivity.
    + intros b Hb. apply list_elem_of_singleton in Hb. subst b. lra.
    + rewrite Qeq_bool_refl. reflexivity.
  - destruct IH as ((a0 & Ha0 & Hv) & Hmax & Hbest).
    unfold greedyStep, gtb, eqb. fold q.
    destruct (Qltb_cases v (qget q a)) as [[E H]|[E H]]; rewrite E.
    + rewrite List.filter_app. simpl. split; [|split].
      * exists a. split; [|reflexivity].
        apply elem_of_app. right. apply list_elem_of_singleton. reflexivity.
      * intros b [Hb|Hb]%elem_of_app.
        -- specialize (Hmax b Hb). lra.
        -- apply list_elem_of_singleton in Hb. subst b. lra.
      * rewrite Qeq_bool_refl. rewrite filter_none; [reflexivity|].
        intros b Hb. specialize (Hmax b Hb).
        destruct (Qeq_bool_cases (qget q b) (qget q a)) as [[_ Hq]|[Hq _]];
          [lra | assumption].
    + assert (Hrest : (exists a1, a1 ∈ l ++ [a] /\ v = qget q a1)
                      /\ (forall b, b ∈ l ++ [a] -> (qget q b <= v)%Q)).
      { split.
        - exists a0. split; [apply elem_of_app; left|]; assumption.
        - intros b [Hb|Hb]%elem_of_app; [apply Hmax, Hb|].
          apply list_elem_of_singleton in Hb. subst b. assumption. }
      destruct Hrest as [Hex Hall].
      destruct (Qeq_bool (qget q a) v) eqn:Eeq;
        (split; [assumption|]); (split; [assumption|]);
        rewrite List.filter_app; simpl; rewrite Eeq.
      * rewrite Hbest. reflexivity.
      * rewrite app_nil_r. assumption.
Qed.

Lemma maxQ4_spec (q : QValues) :
  (forall a, (qget q a <= maxQ4 q)%Q) /\ exists a, (maxQ4 q == qget q a)%Q.
Proof.
  unfold maxQ4.
  destruct (Q.max_spec (qUP q) (qDOWN q)) as [[H1 E1]|[H1 E1]];
  destruct (Q.max_spec (Qmax (qUP q) (qDOWN q)) (qLEFT q)) as [[H2 E2]|[H2 E2]];
  destruct (Q.max_spec (Qmax (Qmax (qUP q) (qDOWN q)) (qLEFT q)) (qRIGHT q))
    as [[H3 E3]|[H3 E3]];
  (split; [intros []; simpl; lra|]);
  first [ exists RIGHT; simpl; lra | exists LEFT; simpl; lra
        | exists DOWN; simpl; lra | exists UP; simpl; lra ].
Qed.

(** The candidates of the tie-break are the tied actions, once each. *)
Lemma bestActionsOf_spec (cell : CellState) :
  NoDup (bestActionsOf cell)
  /\ bestActionsOf cell <> []
  /\ forall a, a ∈ bestActionsOf cell <-> tied (qValues cell) a.
Proof.
  unfold bestActionsOf, tied.
  pose proof (greedyLoop_spec cell ACTIONS) as H.
  destruct (fold_left (greedyStep cell) ACTIONS (NegInfinity, []))
    as [[|v] best]; [destruct H as [H _]; discriminate|].
  destruct H as ((a0 & _ & Hv) & Hmax & ->). cbn [snd].
  destruct (maxQ4_spec (qValues cell)) as [Hle [a1 Ha1]].
  assert (Hvmax : (v == maxQ4 (qValues cell))%Q).
  { assert (Hall : forall a, (qget (qValues cell) a <= v)%Q).
    { intros a. apply Hmax. destruct a; unfold ACTIONS;
        repeat (first [apply list_elem_of_here | apply list_elem_of_further]). }
    specialize (Hall a1). specialize (Hle a0). rewrite Hv in *. lra. }
  split; [|split].
  - apply NoDup_ListNoDup, List.NoDup_filter, NoDup_ListNoDup.
    apply (bool_decide_unpack _). vm_compute. reflexivity.
  - intros Hnil.
    assert (Hin : In a0 (List.filter
                    (fun a => Qeq_bool (qget (qValues cell) a) v) ACTIONS)).
    { apply filter_In. split.
      - destruct a0; simpl; tauto.
      - subst v. apply Qeq_bool_refl. }
    rewrite Hnil in Hin. destruct Hin.
  - intros a. rewrite list_elem_of_In, filter_In, Qeq_bool_iff, Hvmax.
    split; [tauto|]. intros H. split; [|assumption]. destruct a; simpl; tauto.
Qed.

(** ** Statements about slipping and action selection *)



(** C10.  [getGreedyAction] returns on every cell, WALL and TERMINAL cells
    included: for every draw in [[0, 1)] the result is one of the four
    actions and its Q-value is the largest of the four.  On a cell whose
    four Q-values are 0, as every freshly constructed cell is, all four
    actions are candidates and each is returned for a set of draws of
    measure 1/4. *)
Theorem getGreedyAction_total (cell : CellState) (u : Q) :
  (0 <= u < 1)%Q ->
  (exists a, getGreedyAction u cell = Some a
             /\ a ∈ ACTIONS
             /\ (qget (qValues cell) a == maxQ4 (qValues cell))%Q)
  /\ (qValues cell = mkQ 0 0 0 0 ->
      bestActionsOf cell = ACTIONS
      /\ getGreedyAction u cell = pick u ACTIONS
      /\ forall i a, ACTIONS !! i = Some a ->
           (getGreedyAction u cell = Some a <-> within u (slot i 4))
           /\ (measure (slot i 4) == 1 / 4)%Q).
Proof.
  intros Hu. split.
  - destruct (bestActionsOf_spec cell) as (Hnd & Hne & Htied).
    destruct (pick_index u (bestActionsOf cell) Hu Hne) as (i & Hi & _ & Hpick).
    destruct (lookup_lt_is_Some_2 (bestActionsOf cell) i Hi) as [a Ha].
    exists a. split; [unfold getGreedyAction; congruence|]. split.
    + destruct a; unfold ACTIONS;
        repeat (first [apply list_elem_of_here | apply list_elem_of_further]).
    + apply Htied. eapply list_elem_of_lookup_2; eassumption.
  - intros Hq.
    assert (Hbest : bestActionsOf cell = ACTIONS).
    { unfold bestActionsOf, greedyStep. rewrite Hq. reflexivity. }
    split; [assumption|]. unfold getGreedyAction. rewrite Hbest.
    split; [reflexivity|]. intros i a Hi. split.
    + apply (pick_Some_iff u ACTIONS i a Hu); [|assumption].
      apply (bool_decide_unpack _). vm_compute. reflexivity.
    + rewrite (measure_slot i 4) by lia. reflexivity.
Qed.

Lemma getGreedyAction_total_witness :
  exists wall,
    cellAt (createInitialGrid (-0.04)) 1 1 = Ok wall
    /\ type wall = WALL
    /\ getGreedyAction 0.6 wall = Some LEFT.
Proof.
  exists (mkCell 1 1 WALL 0 0 (mkQ 0 0 0 0) None 0).
  split; [reflexivity|]. split; [reflexivity|].
  destruct (getGreedyAction_total (mkCell 1 1 WALL 0 0 (mkQ 0 0 0 0) None 0)
              0.6%Q ltac:(evalQ)) as [_ Hfresh].
  destruct (Hfresh eq_refl) as (_ & Hpick & _).
  rewrite Hpick. reflexivity.
Defined.

(** ** The single-transition updates *)

Lemma Math_max_values (q : QValues) :
  Math_max (Object_values q) = Finite (maxOf q) /\ (maxOf q == maxQ4 q)%Q.
Proof.
  destruct (maxQ4_spec q) as [Hle [a1 Ha1]].
  pose proof (Hle UP) as HU. pose proof (Hle DOWN) as HD.
  pose proof (Hle LEFT) as HL. pose proof (Hle RIGHT) as HR.
  unfold maxOf, Math_max, Object_values. simpl in *. unfold gtb.
  compare_all; (split; [reflexivity|]); destruct a1; simpl in Ha1; lra.
Qed.

Lemma qget_qset (q : QValues) (a b : Action) (v : Q) :
  qget (qset q a v) b = if decide (b = a) then v else qget q b.
Proof. destruct a, b; reflexivity. Qed.

(** [writeBack] returns, writes [writtenCell] at [s] and nothing else. *)
Lemma writeBack_spec (u : Q) (grid : Grid) (s : Z * Z) (a : Action) (newQ : Q)
    (cell : CellState) :
  cellAt grid (fst s) (snd s) = Ok cell ->
  exists newGrid,
    writeBack u grid s a newQ = Ok newGrid
    /\ cellAt newGrid (fst s) (snd s) = Ok (writtenCell u cell a newQ)
    /\ sameElsewhere grid s newGrid.
Proof.
  destruct s as [r c]. simpl. intros Hcell. unfold writeBack. simpl.
  rewrite Hcell. cbn [rbind].
  set (f1 := set_qValues (qset (qValues cell) a newQ)).
  rewrite (modifyCell_Ok grid r c f1 cell Hcell). cbn [rbind].
  set (g1 := alter (alter f1 (Z.to_nat c)) (Z.to_nat r) grid).
  pose proof (cellAt_alter grid r c f1 cell) as A1. fold g1 in A1.
  pose proof (A1 r c Hcell) as H1. rewrite decide_True in H1 by tauto.
  rewrite H1. cbn [rbind].
  destruct (Math_max_values (qValues (f1 cell))) as [-> _]. cbn [finite rbind].
  set (f2 := set_utility (maxOf (qValues (f1 cell)))).
  rewrite (modifyCell_Ok g1 r c f2 _ H1). cbn [rbind].
  set (g2 := alter (alter f2 (Z.to_nat c)) (Z.to_nat r) g1).
  pose proof (cellAt_alter g1 r c f2 (f1 cell)) as A2. fold g2 in A2.
  pose proof (A2 r c H1) as H2. rewrite decide_True in H2 by tauto.
  rewrite H2. cbn [rbind].
  set (f3 := set_policy (getGreedyAction u (f2 (f1 cell)))).
  rewrite (modifyCell_Ok g2 r c f3 _ H2).
  pose proof (cellAt_alter g2 r c f3 (f2 (f1 cell))) as A3.
  eexists. split; [reflexivity|]. split.
  - rewrite (A3 r c H2). rewrite decide_True by tauto. reflexivity.
  - intros r' c' Hne.
    assert (Hne' : ~ (r' = r /\ c' = c)) by (intros [-> ->]; apply Hne; reflexivity).
    rewrite (A3 r' c' H2), decide_False by assumption.
    rewrite (A2 r' c' H1), decide_False by assumption.
    rewrite (A1 r' c' Hcell), decide_False by assumption. reflexivity.
Qed.

(** The written cell: its Q-values, its utility and its policy. *)
Lemma writtenCell_spec (u : Q) (cell : CellState) (a : Action) (newQ : Q) :
  let cell' := writtenCell u cell a newQ in
  qValues cell' = qset (qValues cell) a newQ
  /\ (utility cell' == maxQ4 (qValues cell'))%Q
  /\ policy cell' =
     getGreedyAction u (set_utility (maxOf (qset (qValues cell) a newQ))
                          (set_qValues (qset (qValues cell) a newQ) cell))
  /\ sameIdentity cell cell'.
Proof.
  unfold writtenCell. simpl. split; [reflexivity|]. split.
  - apply Math_max_values.
  - split; [reflexivity|]. repeat split.
Qed.

(** With a draw in [[0, 1)] the policy of the written cell is a tied
    action of its new Q-values. *)
Lemma writtenCell_policy (u : Q) (cell : CellState) (a : Action) (newQ : Q) :
  (0 <= u < 1)%Q ->
  exists p, policy (writtenCell u cell a newQ) = Some p
            /\ tied (qValues (writtenCell u cell a newQ)) p.
Proof.
  intros Hu. unfold writtenCell. simpl.
  set (cell2 := set_utility _ _).
  destruct (bestActionsOf_spec cell2) as (Hnd & Hne & Htied).
  destruct (pick_index u (bestActionsOf cell2) Hu Hne) as (i & Hi & _ & Hpick).
  destruct (lookup_lt_is_Some_2 (bestActionsOf cell2) i Hi) as [p Hp].
  exists p. split; [unfold getGreedyAction; congruence|].
  apply (Htied p). eapply list_elem_of_lookup_2; eassumption.
Qed.

(** The two Q-rules compute a new Q-value and hand it to [writeBack]. *)
Lemma updateQLearning_run (u : Q) (grid : Grid) (s : Z * Z) (a : Action)
    (r : Q) (sPrime : Z * Z) (alpha gamma : Q) (cell next : CellState) :
  cellAt grid (fst s) (snd s) = Ok cell ->
  cellAt grid (fst sPrime) (snd sPrime) = Ok next ->
  updateQLearning u grid s a r sPrime alpha gamma =
  writeBack u grid s a
    (qget (qValues cell) a
     + alpha * (r + gamma * (if decide (type next = TERMINAL) then 0
                             else maxOf (qValues next))
                - qget (qValues cell) a))%Q.
Proof.
  intros Hcell Hnext. unfold updateQLearning. rewrite Hcell, Hnext. cbn [rbind].
  destruct (decide (type next = TERMINAL)); cbn [rbind]; [reflexivity|].
  destruct (Math_max_values (qValues next)) as [-> _]. reflexivity.
Qed.

Lemma updateSARSA_run (u : Q) (grid : Grid) (s : Z * Z) (a : Action)
    (r : Q) (sPrime : Z * Z) (aPrime : Action) (alpha gamma : Q)
    (cell next : CellState) :
  cellAt grid (fst s) (snd s) = Ok cell ->
  cellAt grid (fst sPrime) (snd sPrime) = Ok next ->
  updateSARSA u grid s a r sPrime aPrime alpha gamma =
  writeBack u grid s a
    (qget (qValues cell) a
     + alpha * (r + gamma * (if decide (type next = TERMINAL) then 0
                             else qget (qValues next) aPrime)
                - qget (qValues cell) a))%Q.
Proof.
  intros Hcell Hnext. unfold updateSARSA. rewrite Hcell, Hnext. cbn [rbind].
  destruct (decide (type next <> TERMINAL)) as [Hn|Hn];
    destruct (decide (type next = TERMINAL)) as [Ht|Ht]; cbn [rbind];
    try contradiction; reflexivity.
Qed.

(** What [writeBack] leaves at [s], for a draw in [[0, 1)]. *)
Lemma writeBack_cell (u : Q) (grid : Grid) (s : Z * Z) (a : Action) (newQ : Q)
    (cell : CellState) :
  (0 <= u < 1)%Q ->
  cellAt grid (fst s) (snd s) = Ok cell ->
  exists newGrid cell',
    writeBack u grid s a newQ = Ok newGrid
    /\ cellAt newGrid (fst s) (snd s) = Ok cell'
    /\ qValues cell' = qset (qValues cell) a newQ
    /\ (utility cell' == maxQ4 (qValues cell'))%Q
    /\ (exists p, policy cell' = Some p /\ tied (qValues cell') p)
    /\ sameIdentity cell cell'
    /\ sameElsewhere grid s newGrid.
Proof.
  intros Hu Hcell.
  destruct (writeBack_spec u grid s a newQ cell Hcell) as (newGrid & Hrun & Hs & Hrest).
  destruct (writtenCell_spec u cell a newQ) as (Hq & Hutil & _ & Hid).
  exists newGrid, (writtenCell u cell a newQ).
  repeat (split; [assumption|]).
  split; [apply writtenCell_policy, Hu|]. split; assumption.
Qed.

(** The TD(0) branch writes the utility of the agent's cell and nothing
    else. *)
Lemma stepRL_TD_spec (grid : Grid) (prevAgent : AgentState)
    (nextRow nextCol : Z) (alpha gamma : Q) (cell next : CellState) :
  cellAt grid (agentRow prevAgent) (agentCol prevAgent) = Ok cell ->
  cellAt grid nextRow nextCol = Ok next ->
  let nextU := if decide (type next = TERMINAL) then reward next
               else utility next in
  let newU := (utility cell
               + alpha * (reward next + gamma * nextU - utility cell))%Q in
  exists newGrid,
    stepRL_TD grid prevAgent nextRow nextCol alpha gamma = Ok newGrid
    /\ cellAt newGrid (agentRow prevAgent) (agentCol prevAgent)
       = Ok (set_utility newU cell)
    /\ sameElsewhere grid (agentRow prevAgent, agentCol prevAgent) newGrid.
Proof.
  intros Hcell Hnext nextU newU. unfold stepRL_TD.
  rewrite Hnext. cbn [rbind]. rewrite Hcell. cbn [rbind].
  assert (HU : (if decide (type next = TERMINAL) then Ok (reward next)
                else Ok (utility next))
               = Ok nextU).
  { unfold nextU. destruct (decide (type next = TERMINAL)); reflexivity. }
  rewrite HU. cbn [rbind].
  rewrite (modifyCell_Ok grid _ _ _ cell Hcell).
  exists (alter (alter (set_utility newU) (Z.to_nat (agentCol prevAgent)))
                (Z.to_nat (agentRow prevAgent)) grid).
  split; [reflexivity|].
  pose proof (cellAt_alter grid (agentRow prevAgent) (agentCol prevAgent)
                (set_utility newU) cell) as A.
  split.
  - rewrite (A _ _ Hcell). rewrite decide_True by tauto. reflexivity.
  - intros r c Hne. rewrite (A r c Hcell).
    rewrite decide_False; [reflexivity|].
    intros [-> ->]. apply Hne. reflexivity.
Qed.

(** An update at a cell that is neither TERMINAL nor WALL leaves those
    cells alone. *)
Lemma sameElsewhere_kept (grid newGrid : Grid) (s : Z * Z) (cell : CellState) :
  cellAt grid (fst s) (snd s) = Ok cell ->
  type cell <> TERMINAL -> type cell <> WALL ->
  sameElsewhere grid s newGrid ->
  terminalsAndWallsKept grid newGrid.
Proof.
  intros Hcell Ht Hw Hrest r c x Hx Hty.
  rewrite (Hrest r c); [assumption|].
  intros <-. simpl in Hcell. rewrite Hx in Hcell. injection Hcell as ->.
  destruct Hty; contradiction.
Qed.

(** ** Statements about the updates *)

(** C8.  Each single-transition update (Q-learning, SARSA, TD(0)) applied
    at a cell s that is neither TERMINAL nor WALL returns a grid that is
    the input grid everywhere but at s.  At s the row, column, type, reward
    and visit count stay; TD(0) changes the utility only; the two Q-rules
    change only the Q-value of [a], the utility and the policy.  Every
    TERMINAL and every WALL cell is left as it was. *)
Theorem single_transition_frame (u : Q) (grid : Grid) (s : Z * Z)
    (a : Action) (r : Q) (sPrime : Z * Z) (aPrime : Action) (alpha gamma : Q)
    (lastAction : option Action) (totalReward : Q)
    (cell next : CellState) :
  cellAt grid (fst s) (snd s) = Ok cell ->
  cellAt grid (fst sPrime) (snd sPrime) = Ok next ->
  type cell <> TERMINAL -> type cell <> WALL ->
  (exists newGrid cell',
     updateQLearning u grid s a r sPrime alpha gamma = Ok newGrid
     /\ sameElsewhere grid s newGrid
     /\ terminalsAndWallsKept grid newGrid
     /\ cellAt newGrid (fst s) (snd s) = Ok cell'
     /\ sameIdentity cell cell'
     /\ forall b, b <> a -> qget (qValues cell') b = qget (qValues cell) b)
  /\ (exists newGrid cell',
        updateSARSA u grid s a r sPrime aPrime alpha gamma = Ok newGrid
        /\ sameElsewhere grid s newGrid
        /\ terminalsAndWallsKept grid newGrid
        /\ cellAt newGrid (fst s) (snd s) = Ok cell'
        /\ sameIdentity cell cell'
        /\ forall b, b <> a -> qget (qValues cell') b = qget (qValues cell) b)
  /\ (exists newGrid newU,
        stepRL_TD grid (mkAgent (fst s) (snd s) lastAction totalReward)
                  (fst sPrime) (snd sPrime) alpha gamma = Ok newGrid
        /\ sameElsewhere grid s newGrid
        /\ terminalsAndWallsKept grid newGrid
        /\ cellAt newGrid (fst s) (snd s) = Ok (set_utility newU cell)).
Proof.
  intros Hcell Hnext Ht Hw.
  assert (Hwb : forall newQ,
            exists newGrid cell',
              writeBack u grid s a newQ = Ok newGrid
              /\ sameElsewhere grid s newGrid
              /\ terminalsAndWallsKept grid newGrid
              /\ cellAt newGrid (fst s) (snd s) = Ok cell'
              /\ sameIdentity cell cell'
              /\ forall b, b <> a -> qget (qValues cell') b = qget (qValues cell) b).
  { intros newQ.
    destruct (writeBack_spec u grid s a newQ cell Hcell) as (newGrid & Hrun & Hs & Hrest).
    destruct (writtenCell_spec u cell a newQ) as (Hq & _ & _ & Hid).
    exists newGrid, (writtenCell u cell a newQ).
    split; [assumption|]. split; [assumption|].
    split; [apply (sameElsewhere_kept grid newGrid s cell); assumption|].
    split; [assumption|]. split; [assumption|].
    intros b Hb. rewrite Hq, qget_qset, decide_False by assumption. reflexivity. }
  split; [|split].
  - rewrite (updateQLearning_run u grid s a r sPrime alpha gamma cell next Hcell Hnext).
    apply Hwb.
  - rewrite (updateSARSA_run u grid s a r sPrime aPrime alpha gamma cell next Hcell Hnext).
    apply Hwb.
  - destruct (stepRL_TD_spec grid (mkAgent (fst s) (snd s) lastAction totalReward)
                (fst sPrime) (snd sPrime) alpha gamma cell next Hcell Hnext)
      as (newGrid & Hrun & Hs & Hrest).
    simpl in Hs, Hrest. rewrite <- surjective_pairing in Hrest.
    eexists newGrid, _. split; [exact Hrun|]. split; [assumption|].
    split; [apply (sameElsewhere_kept grid newGrid s cell); assumption|].
    exact Hs.
Qed.

Lemma single_transition_frame_witness :
  exists newGrid,
    stepRL_TD learningGrid (mkAgent 0 2 None 0) 0 3 0.1 0.9 = Ok newGrid
    /\ cellAt newGrid 0 3 = Ok (mkCell 0 3 TERMINAL 1.0 0 (mkQ 0 0 0 0) None 0)
    /\ cellAt newGrid 1 0
       = Ok (mkCell 1 0 EMPTY (-0.04) 0 (mkQ 0.5 0.2 0 0) None 0).
Proof.
  destruct (single_transition_frame 0.3 learningGrid (0, 2) RIGHT 1.0 (0, 3)
              UP 0.1 0.9 None 0
              (mkCell 0 2 EMPTY (-0.04) 0 (mkQ 0 0 0 0) None 0)
              (mkCell 0 3 TERMINAL 1.0 0 (mkQ 0 0 0 0) None 0))
    as (_ & _ & newGrid & newU & Hrun & Hrest & Hkept & _);
    [reflexivity | reflexivity | discriminate | discriminate |].
  exists newGrid. split; [exact Hrun|]. split.
  - apply Hkept; [reflexivity | left; reflexivity].
  - rewrite (Hrest 1 0); [reflexivity | discriminate].
Defined.

(** * Further properties of the code *)

(** ** The transition model, on any grid *)

Lemma cellAt_Err (grid : Grid) (r c : Z) (e : error) :
  cellAt grid r c = Err e -> e = TypeError.
Proof.
  unfold cellAt. destruct (index grid r) as [cells|]; [|congruence].
  destruct (index cells c); congruence.
Qed.

(** [getNextState] in terms of the neighbour of the executed action. *)
Lemma getNextState_neighbour (u : Q) (grid : Grid) (row col : Z) (a : Action)
    (isStochastic : bool) :
  getNextState u grid row col a isStochastic =
  let '(r', c') := neighbour row col (executedAction u a isStochastic) in
  if inBounds r' c'
  then match cellAt grid r' c' with
       | Ok cell => if decide (type cell = WALL) then Ok (row, col)
                    else Ok (r', c')
       | Err e => Err e
       end
  else Ok (row, col).
Proof.
  unfold getNextState.
  pose proof (neighbour_delta row col (executedAction u a isStochastic)) as Hn.
  destruct (delta (executedAction u a isStochastic)) as [dRow dCol].
  simpl in Hn.
  destruct (neighbour row col (executedAction u a isStochastic)) as [r' c'].
  injection Hn as -> ->. rewrite outside_inBounds.
  destruct (inBounds r' c'); simpl; [|reflexivity].
  destruct (cellAt grid r' c'); reflexivity.
Qed.

(** X1.  Whatever the grid, the mode and the draw, a position returned by
    [getNextState] is the origin or the neighbour in the direction of the
    executed action, and then that neighbour is inside the bounds and holds
    a cell that is not a WALL.  A move whose neighbour is a WALL returns the
    origin. *)
Theorem getNextState_never_enters_wall (u : Q) (grid : Grid) (row col : Z)
    (action : Action) (isStochastic : bool) (p : Z * Z) :
  getNextState u grid row col action isStochastic = Ok p ->
  (p = (row, col)
   \/ (p = neighbour row col (executedAction u action isStochastic)
       /\ 0 <= fst p < ROWS /\ 0 <= snd p < COLS
       /\ exists cell, cellAt grid (fst p) (snd p) = Ok cell
                       /\ type cell <> WALL))
  /\ (forall wall,
        cellAt grid (fst (neighbour row col
                            (executedAction u action isStochastic)))
                    (snd (neighbour row col
                            (executedAction u action isStochastic)))
          = Ok wall ->
        type wall = WALL -> p = (row, col)).
Proof.
  rewrite getNextState_neighbour.
  destruct (neighbour row col (executedAction u action isStochastic))
    as [r' c'] eqn:Hn.
  simpl. destruct (inBounds r' c') eqn:Hin.
  - destruct (cellAt grid r' c') as [cell|e] eqn:Hcell; [|discriminate].
    destruct (decide (type cell = WALL)) as [Hw|Hw]; intros [= <-].
    + split; [left; reflexivity | reflexivity].
    + split.
      * right. apply inBounds_true in Hin. simpl.
        split; [reflexivity|]. split; [tauto|]. split; [tauto|].
        exists cell. split; assumption.
      * intros wall [= ->] Hwall. contradiction.
  - intros [= <-]. split; [left; reflexivity | reflexivity].
Qed.

Lemma getNextState_never_enters_wall_witness :
  (1, 0) = (1, 0)
  \/ ((1, 0) = neighbour 1 0 (executedAction 0 RIGHT false)
      /\ 0 <= 1 < ROWS /\ 0 <= 0 < COLS
      /\ exists cell, cellAt (createInitialGrid (-0.04)) 1 0 = Ok cell
                      /\ type cell <> WALL).
Proof.
  exact (proj1 (getNextState_never_enters_wall 0 (createInitialGrid (-0.04))
                  1 0 RIGHT false (1, 0) eq_refl)).
Defined.

(** X2.  A slip is sideways: whatever the draw, the executed action is the
    intended one or one of its two orthogonal actions, never the opposite
    one, and without [isStochastic] it is the intended one. *)
Theorem executedAction_never_reverses (u : Q) (action : Action)
    (isStochastic : bool) :
  executedAction u action isStochastic <> opposite action
  /\ (executedAction u action isStochastic = action
      \/ executedAction u action isStochastic
         = fst (getOrthogonalActions action)
      \/ executedAction u action isStochastic
         = snd (getOrthogonalActions action))
  /\ executedAction u action false = action.
Proof.
  unfold executedAction.
  destruct isStochastic, (Qltb 0.8 u), (Qltb 0.9 u), action; simpl;
    (split; [discriminate | split; [tauto | reflexivity]]).
Qed.

(** X3.  [getNextState] fails only with a TypeError, and exactly when the
    neighbour in the direction of the executed action is inside the 3 x 4
    bounds and the grid has no cell there. *)
Theorem getNextState_TypeError_iff (u : Q) (grid : Grid) (row col : Z)
    (action : Action) (isStochastic : bool) (e : error) :
  getNextState u grid row col action isStochastic = Err e <->
  e = TypeError
  /\ (let p := neighbour row col (executedAction u action isStochastic) in
      inBounds (fst p) (snd p) = true
      /\ cellAt grid (fst p) (snd p) = Err TypeError).
Proof.
  rewrite getNextState_neighbour.
  destruct (neighbour row col (executedAction u action isStochastic))
    as [r' c'].
  simpl. destruct (inBounds r' c').
  - destruct (cellAt grid r' c') as [cell|e'] eqn:Hcell.
    + split.
      * destruct (decide (type cell = WALL)); discriminate.
      * intros (_ & _ & ?). discriminate.
    + pose proof (cellAt_Err grid r' c' e' Hcell) as ->. split.
      * intros [= <-]. auto.
      * intros [-> _]. reflexivity.
  - split; [discriminate|]. intros (_ & ? & _). discriminate.
Qed.

(** ** Action selection at its edges *)

Lemma Qeq_bool_compat (x x' y y' : Q) :
  (x == x')%Q -> (y == y')%Q -> Qeq_bool x y = Qeq_bool x' y'.
Proof.
  intros Hx Hy.
  destruct (Qeq_bool_cases x y) as [[-> H]|[-> H]];
    destruct (Qeq_bool_cases x' y') as [[-> H']|[-> H']]; try reflexivity;
    exfalso; [apply H' | apply H]; lra.
Qed.

(** The candidates of the tie-break, as a filter of [ACTIONS]. *)
Lemma bestActionsOf_filter (cell : CellState) :
  bestActionsOf cell =
  List.filter (fun a => Qeq_bool (qget (qValues cell) a)
                                 (maxQ4 (qValues cell)))
              ACTIONS.
Proof.
  unfold bestActionsOf.
  pose proof (greedyLoop_spec cell ACTIONS) as H.
  destruct (fold_left (greedyStep cell) ACTIONS (NegInfinity, []))
    as [[|v] best]; [destruct H as [H _]; discriminate|].
  destruct H as ((a0 & _ & Hv) & Hmax & ->). cbn [snd].
  destruct (maxQ4_spec (qValues cell)) as [Hle [a1 Ha1]].
  assert (Hvmax : (v == maxQ4 (qValues cell))%Q).
  { assert (Hall : forall a, (qget (qValues cell) a <= v)%Q).
    { intros a. apply Hmax. destruct a; unfold ACTIONS;
        repeat (first [apply list_elem_of_here | apply list_elem_of_further]). }
    specialize (Hall a1). specialize (Hle a0). rewrite Hv in *. lra. }
  apply List.filter_ext. intros a. apply Qeq_bool_compat; [reflexivity|assumption].
Qed.

(** A draw outside [[0, 1)] picks nothing. *)
Lemma pick_outside {A : Type} (u : Q) (xs : list A) :
  (u < 0)%Q \/ (1 <= u)%Q -> pick u xs = None.
Proof.
  intros Hu. unfold pick, index.
  set (n := inject_Z (Z.of_nat (length xs))).
  assert (Hn : (0 <= n)%Q).
  { unfold n. change 0%Q with (inject_Z 0). rewrite <- Zle_Qle. lia. }
  destruct (Z.ltb_spec (Qfloor (u * n)) 0) as [_|Hge]; [reflexivity|].
  apply lookup_ge_None.
  destruct Hu as [Hu|Hu].
  - destruct xs as [|x xs]; [simpl; lia|]. exfalso.
    assert (Hpos : (0 < n)%Q).
    { unfold n. change 0%Q with (inject_Z 0). rewrite <- Zlt_Qlt. simpl. lia. }
    pose proof (Qfloor_le (u * n)) as Hfl.
    assert (Hneg : (u * n < 0 * n)%Q) by (apply Qmult_lt_r; assumption).
    assert (Hlt : (inject_Z (Qfloor (u * n)) < inject_Z 0)%Q)
      by (change (inject_Z 0) with 0%Q; lra).
    rewrite <- Zlt_Qlt in Hlt. lia.
  - assert (Hle1 : (1 * n <= u * n)%Q)
      by (apply Qmult_le_compat_r; assumption).
    assert (Hle : (n <= u * n)%Q) by lra.
    pose proof (Qfloor_resp_le _ _ Hle) as Hfl. unfold n in Hfl at 1.
    rewrite Qfloor_Z in Hfl. lia.
Qed.

(** X4.  When one action has a Q-value strictly above the three others,
    [getGreedyAction] returns it for every draw in [[0, 1)]: the draw
    matters only between ties. *)
Theorem getGreedyAction_unique_max (u : Q) (cell : CellState) (a : Action) :
  (0 <= u < 1)%Q ->
  (forall b, b <> a -> (qget (qValues cell) b < qget (qValues cell) a)%Q) ->
  bestActionsOf cell = [a] /\ getGreedyAction u cell = Some a.
Proof.
  intros Hu Hbest.
  destruct (maxQ4_spec (qValues cell)) as [Hle [a1 Ha1]].
  assert (Hmax : (maxQ4 (qValues cell) == qget (qValues cell) a)%Q).
  { destruct (decide (a1 = a)) as [->|Hne]; [assumption|].
    specialize (Hbest a1 Hne). specialize (Hle a). lra. }
  assert (Hlist : bestActionsOf cell = [a]).
  { rewrite bestActionsOf_filter.
    assert (Hf : forall b, Qeq_bool (qget (qValues cell) b)
                                    (maxQ4 (qValues cell))
                           = bool_decide (b = a)).
    { intros b. destruct (decide (b = a)) as [->|Hne].
      - rewrite bool_decide_eq_true_2 by reflexivity.
        apply Qeq_bool_iff. symmetry. assumption.
      - rewrite bool_decide_eq_false_2 by assumption.
        specialize (Hbest b Hne).
        destruct (Qeq_bool_cases (qget (qValues cell) b)
                    (maxQ4 (qValues cell))) as [[_ H]|[-> _]];
          [lra | reflexivity]. }
    rewrite (List.filter_ext _ _ Hf). destruct a; reflexivity. }
  split; [assumption|]. unfold getGreedyAction. rewrite Hlist.
  destruct (pick_index u [a] Hu) as (i & Hi & _ & ->); [discriminate|].
  simpl in Hi. destruct i; [reflexivity | lia].
Qed.

Lemma getGreedyAction_unique_max_witness :
  bestActionsOf (mkCell 0 0 EMPTY 0 0 (mkQ 1 3 2 0) None 0) = [DOWN]
  /\ getGreedyAction 0.9 (mkCell 0 0 EMPTY 0 0 (mkQ 1 3 2 0) None 0)
     = Some DOWN.
Proof.
  apply (getGreedyAction_unique_max 0.9
           (mkCell 0 0 EMPTY 0 0 (mkQ 1 3 2 0) None 0) DOWN); [evalQ|].
  intros [] H; try contradiction; evalQ.
Defined.

(** X5.  A draw outside [[0, 1)], which [Math.random()] never returns,
    makes [getGreedyAction] and the exploring branch of
    [getEpsilonGreedyAction] return [undefined]: the index falls outside
    the array. *)
Theorem getGreedyAction_outside_draw (u u1 : Q) (cell : CellState)
    (epsilon : Q) :
  (u < 0)%Q \/ (1 <= u)%Q ->
  getGreedyAction u cell = None
  /\ getEpsilonGreedyAction u1 u cell epsilon = None.
Proof.
  intros Hu.
  assert (Hg : getGreedyAction u cell = None) by (apply pick_outside, Hu).
  split; [assumption|]. unfold getEpsilonGreedyAction.
  destruct (Qltb u1 epsilon); [apply pick_outside, Hu | assumption].
Qed.

Lemma getGreedyAction_outside_draw_witness :
  getGreedyAction 1 (mkCell 0 0 EMPTY 0 0 (mkQ 1 2 2 0) None 0) = None
  /\ getEpsilonGreedyAction 0.1 1 (mkCell 0 0 EMPTY 0 0 (mkQ 1 2 2 0) None 0)
                            0.2 = None.
Proof.
  apply (getGreedyAction_outside_draw 1 0.1
           (mkCell 0 0 EMPTY 0 0 (mkQ 1 2 2 0) None 0) 0.2).
  right. evalQ.
Defined.

(** X6.  For draws in [[0, 1)] [getEpsilonGreedyAction] returns one of the
    four actions, and one with the largest Q-value whenever the first draw
    is not below epsilon.  With epsilon at most 0 it is the greedy
    selection for every first draw; with epsilon at least 1 it never is:
    the action is [ACTIONS[floor(4 u2)]], whatever the Q-values. *)
Theorem getEpsilonGreedyAction_extremes (u1 u2 : Q) (cell : CellState)
    (epsilon : Q) :
  (0 <= u1 < 1)%Q -> (0 <= u2 < 1)%Q ->
  (exists a, getEpsilonGreedyAction u1 u2 cell epsilon = Some a
             /\ ((epsilon <= u1)%Q -> tied (qValues cell) a))
  /\ ((epsilon <= 0)%Q ->
      getEpsilonGreedyAction u1 u2 cell epsilon = getGreedyAction u2 cell)
  /\ ((1 <= epsilon)%Q ->
      getEpsilonGreedyAction u1 u2 cell epsilon = pick u2 ACTIONS).
Proof.
  intros [H10 H11] Hu2. unfold getEpsilonGreedyAction. split; [|split].
  - destruct (Qltb_cases u1 epsilon) as [[-> H]|[-> H]].
    + destruct (pick_index u2 ACTIONS Hu2) as (i & Hi & _ & Hpick);
        [discriminate|].
      destruct (lookup_lt_is_Some_2 ACTIONS i Hi) as [a Ha].
      exists a. split; [congruence|]. intros. lra.
    + destruct (bestActionsOf_spec cell) as (_ & Hne & Htied).
      destruct (pick_index u2 (bestActionsOf cell) Hu2 Hne)
        as (i & Hi & _ & Hpick).
      destruct (lookup_lt_is_Some_2 (bestActionsOf cell) i Hi) as [a Ha].
      exists a. split; [unfold getGreedyAction; congruence|].
      intros _. apply Htied. eapply list_elem_of_lookup_2; eassumption.
  - intros He. rewrite (proj2 (Qltb_false u1 epsilon)) by lra. reflexivity.
  - intros He. rewrite (proj2 (Qltb_true u1 epsilon)) by lra. reflexivity.
Qed.

Lemma getEpsilonGreedyAction_extremes_witness :
  getEpsilonGreedyAction 0.1 0.9 (mkCell 0 0 EMPTY 0 0 (mkQ 1 3 2 0) None 0) 1
  = pick 0.9 ACTIONS.
Proof.
  destruct (getEpsilonGreedyAction_extremes 0.1 0.9
              (mkCell 0 0 EMPTY 0 0 (mkQ 1 3 2 0) None 0) 1)
    as (_ & _ & Hone); [evalQ | evalQ |].
  apply Hone. evalQ.
Defined.

(** X7.  Only the order of the Q-values matters to the greedy choice:
    scaling the four Q-values of a cell by a positive factor and shifting
    them by a constant leaves the candidates, and so the action returned
    for each draw, unchanged. *)
Theorem getGreedyAction_affine (u k c : Q) (cell cell' : CellState) :
  (0 < k)%Q ->
  affineOf k c (qValues cell) (qValues cell') ->
  bestActionsOf cell' = bestActionsOf cell
  /\ getGreedyAction u cell' = getGreedyAction u cell.
Proof.
  intros Hk Haff.
  assert (Hbest : bestActionsOf cell' = bestActionsOf cell).
  { rewrite !bestActionsOf_filter. apply List.filter_ext. intros a.
    destruct (maxQ4_spec (qValues cell)) as [Hle [a1 Ha1]].
    destruct (maxQ4_spec (qValues cell')) as [Hle' [a2 Ha2]].
    assert (Hmax : (maxQ4 (qValues cell')
                    == k * maxQ4 (qValues cell) + c)%Q).
    { pose proof (Hle a2) as H2. pose proof (Hle' a1) as H1.
      rewrite (Haff a1) in H1. rewrite Ha2, (Haff a2).
      assert (H3 : (k * qget (qValues cell) a2 <= k * maxQ4 (qValues cell))%Q)
        by (apply Qmult_le_l; assumption).
      assert (H4 : (k * maxQ4 (qValues cell) + c
                    <= k * qget (qValues cell) a2 + c)%Q).
      { rewrite Ha2, (Haff a2) in H1. rewrite Ha1. lra. }
      lra. }
    rewrite (Qeq_bool_compat _ _ _ _ (Haff a) Hmax).
    destruct (Qeq_bool_cases (qget (qValues cell) a) (maxQ4 (qValues cell)))
      as [[-> H]|[-> H]].
    - apply Qeq_bool_iff. rewrite H. reflexivity.
    - destruct (Qeq_bool_cases (k * qget (qValues cell) a + c)
                  (k * maxQ4 (qValues cell) + c)) as [[_ Heq]|[-> _]];
        [|reflexivity].
      exfalso. apply H.
      assert (H5 : (k * (qget (qValues cell) a - maxQ4 (qValues cell)) == 0)%Q)
        by lra.
      apply Qmult_integral in H5 as [H5|H5]; lra. }
  split; [assumption|]. unfold getGreedyAction. rewrite Hbest. reflexivity.
Qed.

Lemma getGreedyAction_affine_witness :
  getGreedyAction 0.6 (mkCell 0 0 EMPTY 0 0 (mkQ 1 3 3 (-1)) None 0)
  = getGreedyAction 0.6 (mkCell 0 0 EMPTY 0 0 (mkQ 1 2 2 0) None 0).
Proof.
  apply (getGreedyAction_affine 0.6 2 (-1)
           (mkCell 0 0 EMPTY 0 0 (mkQ 1 2 2 0) None 0)
           (mkCell 0 0 EMPTY 0 0 (mkQ 1 3 3 (-1)) None 0)); [evalQ|].
  intros []; evalQ.
Defined.

(** ** The updates: targets, failures and shapes *)

(** The new Q-value of each rule, with no assumption on the draw. *)
Lemma updateQLearning_newQ (u : Q) (grid : Grid) (s : Z * Z) (a : Action)
    (r : Q) (sPrime : Z * Z) (alpha gamma : Q) (cell next : CellState) :
  cellAt grid (fst s) (snd s) = Ok cell ->
  cellAt grid (fst sPrime) (snd sPrime) = Ok next ->
  exists newGrid cell',
    updateQLearning u grid s a r sPrime alpha gamma = Ok newGrid
    /\ cellAt newGrid (fst s) (snd s) = Ok cell'
    /\ (qget (qValues cell') a ==
        qget (qValues cell) a
        + alpha * (r + gamma * (if decide (type next = TERMINAL) then 0
                                else maxQ4 (qValues next))
                   - qget (qValues cell) a))%Q.
Proof.
  intros Hcell Hnext.
  rewrite (updateQLearning_run u grid s a r sPrime alpha gamma cell next
             Hcell Hnext).
  match goal with
  | |- context [writeBack u grid s a ?q] => set (newQ := q)
  end.
  destruct (writeBack_spec u grid s a newQ cell Hcell)
    as (newGrid & Hrun & Hs & _).
  exists newGrid, (writtenCell u cell a newQ).
  split; [exact Hrun|]. split; [exact Hs|].
  destruct (writtenCell_spec u cell a newQ) as (Hq & _).
  rewrite Hq, qget_qset, decide_True by reflexivity. unfold newQ.
  destruct (decide (type next = TERMINAL)); [reflexivity|].
  destruct (Math_max_values (qValues next)) as [_ ->]. reflexivity.
Qed.

Lemma updateSARSA_newQ (u : Q) (grid : Grid) (s : Z * Z) (a : Action)
    (r : Q) (sPrime : Z * Z) (aPrime : Action) (alpha gamma : Q)
    (cell next : CellState) :
  cellAt grid (fst s) (snd s) = Ok cell ->
  cellAt grid (fst sPrime) (snd sPrime) = Ok next ->
  exists newGrid cell',
    updateSARSA u grid s a r sPrime aPrime alpha gamma = Ok newGrid
    /\ cellAt newGrid (fst s) (snd s) = Ok cell'
    /\ (qget (qValues cell') a ==
        qget (qValues cell) a
        + alpha * (r + gamma * (if decide (type next = TERMINAL) then 0
                                else qget (qValues next) aPrime)
                   - qget (qValues cell) a))%Q.
Proof.
  intros Hcell Hnext.
  rewrite (updateSARSA_run u grid s a r sPrime aPrime alpha gamma cell next
             Hcell Hnext).
  match goal with
  | |- context [writeBack u grid s a ?q] => set (newQ := q)
  end.
  destruct (writeBack_spec u grid s a newQ cell Hcell)
    as (newGrid & Hrun & Hs & _).
  exists newGrid, (writtenCell u cell a newQ).
  split; [exact Hrun|]. split; [exact Hs|].
  destruct (writtenCell_spec u cell a newQ) as (Hq & _).
  rewrite Hq, qget_qset, decide_True by reflexivity. reflexivity.
Qed.

(** X9.  The two rules side by side: for alpha and gamma not negative the
    SARSA update of Q(s,a) is never above the Q-learning update made from
    the same grid and transition, and the two agree when s' is TERMINAL or
    the supplied next action has the largest Q-value at s'. *)
Theorem updateSARSA_below_updateQLearning (u u' : Q) (grid : Grid)
    (s : Z * Z) (a : Action) (r : Q) (sPrime : Z * Z) (aPrime : Action)
    (alpha gamma : Q) (cell next : CellState) :
  cellAt grid (fst s) (snd s) = Ok cell ->
  cellAt grid (fst sPrime) (snd sPrime) = Ok next ->
  exists gridQ cellQ gridS cellS,
    updateQLearning u grid s a r sPrime alpha gamma = Ok gridQ
    /\ cellAt gridQ (fst s) (snd s) = Ok cellQ
    /\ updateSARSA u' grid s a r sPrime aPrime alpha gamma = Ok gridS
    /\ cellAt gridS (fst s) (snd s) = Ok cellS
    /\ ((0 <= alpha)%Q -> (0 <= gamma)%Q ->
        (qget (qValues cellS) a <= qget (qValues cellQ) a)%Q)
    /\ (type next = TERMINAL \/ tied (qValues next) aPrime ->
        (qget (qValues cellS) a == qget (qValues cellQ) a)%Q).
Proof.
  intros Hcell Hnext.
  destruct (updateQLearning_newQ u grid s a r sPrime alpha gamma cell next
              Hcell Hnext) as (gridQ & cellQ & HrunQ & HsQ & HqQ).
  destruct (updateSARSA_newQ u' grid s a r sPrime aPrime alpha gamma cell next
              Hcell Hnext) as (gridS & cellS & HrunS & HsS & HqS).
  exists gridQ, cellQ, gridS, cellS.
  repeat (split; [assumption|]).
  rewrite HqQ, HqS. destruct (decide (type next = TERMINAL)) as [Ht|Ht].
  - split; intros; lra.
  - destruct (maxQ4_spec (qValues next)) as [Hle _]. specialize (Hle aPrime).
    split.
    + intros Ha Hg.
      assert (H : (0 <= alpha * (gamma * (maxQ4 (qValues next)
                                          - qget (qValues next) aPrime)))%Q).
      { apply Qmult_le_0_compat; [assumption|].
        apply Qmult_le_0_compat; [assumption | lra]. }
      lra.
    + intros [Hterm|Htied]; [contradiction|]. unfold tied in Htied.
      rewrite Htied. reflexivity.
Qed.

Lemma updateSARSA_below_updateQLearning_witness :
  exists gridQ cellQ gridS cellS,
    updateQLearning 0.3 learningGrid (2, 0) UP (-0.04) (1, 0) 0.1 0.9 = Ok gridQ
    /\ cellAt gridQ 2 0 = Ok cellQ
    /\ updateSARSA 0.7 learningGrid (2, 0) UP (-0.04) (1, 0) DOWN 0.1 0.9
       = Ok gridS
    /\ cellAt gridS 2 0 = Ok cellS
    /\ (qget (qValues cellS) UP <= qget (qValues cellQ) UP)%Q.
Proof.
  destruct (updateSARSA_below_updateQLearning 0.3 0.7 learningGrid (2, 0) UP
              (-0.04) (1, 0) DOWN 0.1 0.9
              (mkCell 2 0 START (-0.04) 0 (mkQ 0 0 0 0) None 0)
              (mkCell 1 0 EMPTY (-0.04) 0 (mkQ 0.5 0.2 0 0) None 0))
    as (gridQ & cellQ & gridS & cellS & HQ & HcQ & HS & HcS & Hle & _);
    [reflexivity | reflexivity |].
  exists gridQ, cellQ, gridS, cellS.
  repeat (split; [assumption|]). apply Hle; evalQ.
Defined.

Lemma rbind_Ok {A B : Type} (m : result A) (f : A -> result B) (b : B) :
  rbind m f = Ok b -> exists a, m = Ok a /\ f a = Ok b.
Proof. destruct m as [a|e]; simpl; [eauto | discriminate]. Qed.

Lemma modifyCell_Err (grid : Grid) (r c : Z) (f : CellState -> CellState)
    (e : error) :
  modifyCell grid r c f = Err e -> e = TypeError.
Proof.
  unfold modifyCell. destruct (cellAt grid r c) eqn:H; simpl; [discriminate|].
  intros [= <-]. apply (cellAt_Err grid r c _ H).
Qed.

Lemma writeBack_Err (u : Q) (grid : Grid) (s : Z * Z) (a : Action) (newQ : Q) :
  cellAt grid (fst s) (snd s) = Err TypeError ->
  writeBack u grid s a newQ = Err TypeError.
Proof. intros H. unfold writeBack. rewrite H. reflexivity. Qed.

(** X10.  Each single-transition update returns a grid whenever the grid
    holds a cell at s and one at s', and otherwise throws a TypeError: no
    other failure exists, whatever the numbers. *)
Theorem updates_fail_only_off_grid (u : Q) (grid : Grid) (s : Z * Z)
    (a : Action) (r : Q) (sPrime : Z * Z) (aPrime : Action) (alpha gamma : Q)
    (lastAction : option Action) (totalReward : Q) :
  let onGrid :=
    (exists cell, cellAt grid (fst s) (snd s) = Ok cell)
    /\ (exists next, cellAt grid (fst sPrime) (snd sPrime) = Ok next) in
  let agent := mkAgent (fst s) (snd s) lastAction totalReward in
  (onGrid ->
     (exists g, updateQLearning u grid s a r sPrime alpha gamma = Ok g)
     /\ (exists g, updateSARSA u grid s a r sPrime aPrime alpha gamma = Ok g)
     /\ (exists g, stepRL_TD grid agent (fst sPrime) (snd sPrime) alpha gamma
                   = Ok g))
  /\ (~ onGrid ->
      updateQLearning u grid s a r sPrime alpha gamma = Err TypeError
      /\ updateSARSA u grid s a r sPrime aPrime alpha gamma = Err TypeError
      /\ stepRL_TD grid agent (fst sPrime) (snd sPrime) alpha gamma
         = Err TypeError).
Proof.
  intros onGrid agent. split.
  - intros [[cell Hcell] [next Hnext]]. split; [|split].
    + destruct (updateQLearning_newQ u grid s a r sPrime alpha gamma cell next
                  Hcell Hnext) as (g & _ & Hrun & _). eauto.
    + destruct (updateSARSA_newQ u grid s a r sPrime aPrime alpha gamma cell
                  next Hcell Hnext) as (g & _ & Hrun & _). eauto.
    + destruct (stepRL_TD_spec grid agent (fst sPrime) (snd sPrime) alpha gamma
                  cell next Hcell Hnext) as (g & Hrun & _). eauto.
  - intros Hoff. unfold updateQLearning, updateSARSA, stepRL_TD. simpl.
    destruct (cellAt grid (fst s) (snd s)) as [cell|e] eqn:Hcell.
    + destruct (cellAt grid (fst sPrime) (snd sPrime)) as [next|e] eqn:Hnext.
      * exfalso. apply Hoff. split; eauto.
      * apply cellAt_Err in Hnext as ->. simpl. repeat split; reflexivity.
    + apply cellAt_Err in Hcell as ->. simpl.
      destruct (cellAt grid (fst sPrime) (snd sPrime)) as [next|e] eqn:Hnext.
      * repeat split; reflexivity.
      * apply cellAt_Err in Hnext as ->. repeat split; reflexivity.
Qed.

Lemma updates_fail_only_off_grid_witness :
  updateQLearning 0.3 learningGrid (5, 0) UP (-0.04) (1, 0) 0.1 0.9
    = Err TypeError
  /\ updateSARSA 0.3 learningGrid (5, 0) UP (-0.04) (1, 0) DOWN 0.1 0.9
     = Err TypeError
  /\ stepRL_TD learningGrid (mkAgent 5 0 None 0) 1 0 0.1 0.9 = Err TypeError.
Proof.
  apply (updates_fail_only_off_grid 0.3 learningGrid (5, 0) UP (-0.04) (1, 0)
           DOWN 0.1 0.9 None 0).
  intros [[cell Hcell] _]. discriminate Hcell.
Defined.

(** ** Shapes and failures of the sweep *)

Lemma alter_wfGrid (grid : Grid) (r c : nat) (f : CellState -> CellState) :
  wfGrid grid = true -> wfGrid (alter (alter f c) r grid) = true.
Proof.
  unfold wfGrid. intros [Hlen Hall]%andb_prop.
  apply andb_true_intro. split; [rewrite length_alter; assumption|].
  rewrite forallb_forall in *. intros cells Hin.
  apply list_elem_of_In, list_elem_of_lookup_1 in Hin as [i Hi].
  rewrite list_lookup_alter in Hi.
  destruct (decide (r = i)) as [->|Hne].
  - destruct (grid !! i) as [old|] eqn:Hold; [|discriminate].
    simpl in Hi. injection Hi as <-. rewrite length_alter.
    apply Hall, list_elem_of_In. eapply list_elem_of_lookup_2; eassumption.
  - apply Hall, list_elem_of_In. eapply list_elem_of_lookup_2; eassumption.
Qed.

Lemma modifyCell_wfGrid (grid g' : Grid) (r c : Z)
    (f : CellState -> CellState) :
  wfGrid grid = true -> modifyCell grid r c f = Ok g' -> wfGrid g' = true.
Proof.
  intros Hwf. unfold modifyCell.
  destruct (cellAt grid r c); simpl; [|discriminate].
  intros [= <-]. apply alter_wfGrid, Hwf.
Qed.

Lemma writeBack_wfGrid (u : Q) (grid g' : Grid) (s : Z * Z) (a : Action)
    (newQ : Q) :
  wfGrid grid = true -> writeBack u grid s a newQ = Ok g' -> wfGrid g' = true.
Proof.
  intros Hwf. unfold writeBack.
  intros (cell & _ & H)%rbind_Ok.
  apply rbind_Ok in H as (g1 & H1 & H).
  apply rbind_Ok in H as (cell1 & _ & H).
  apply rbind_Ok in H as (m & _ & H).
  apply rbind_Ok in H as (g2 & H2 & H).
  apply rbind_Ok in H as (cell2 & _ & H3).
  eapply modifyCell_wfGrid; [|exact H3].
  eapply modifyCell_wfGrid; [|exact H2].
  eapply modifyCell_wfGrid; [|exact H1]. assumption.
Qed.

(** A property of the state that every iteration keeps holds when the
    loop ends. *)
Lemma for_of_preserves {A S : Type} (P : S -> Prop) (xs : list A)
    (body : A -> S -> result S) :
  (forall x s s', P s -> body x s = Ok s' -> P s') ->
  forall s s', P s -> for_of xs body s = Ok s' -> P s'.
Proof.
  intros Hbody. induction xs as [|x xs IH]; intros s s' Hs; simpl.
  - intros [= <-]. assumption.
  - intros (s1 & H1 & Hrest)%rbind_Ok.
    apply (IH s1 s'); [eapply Hbody; eassumption | assumption].
Qed.

(** A loop that ends has run its body on every element. *)
Lemma for_of_Ok_each {A S : Type} (xs : list A) (body : A -> S -> result S)
    (s s' : S) :
  for_of xs body s = Ok s' ->
  forall x, x ∈ xs -> exists s1 s2, body x s1 = Ok s2.
Proof.
  revert s. induction xs as [|y xs IH]; intros s; simpl.
  - intros _ x Hx. apply elem_of_nil in Hx. contradiction.
  - intros (s1 & H1 & Hrest)%rbind_Ok x [->|Hx]%elem_of_cons; [eauto|].
    apply (IH s1 Hrest x Hx).
Qed.

(** A loop that throws does so in its body. *)
Lemma for_of_Err_body {A S : Type} (xs : list A) (body : A -> S -> result S)
    (s : S) (e : error) :
  for_of xs body s = Err e -> exists x s1, x ∈ xs /\ body x s1 = Err e.
Proof.
  revert s. induction xs as [|y xs IH]; intros s; simpl; [discriminate|].
  destruct (body y s) as [s1|e1] eqn:Hy; simpl.
  - intros H. destruct (IH s1 H) as (x & s2 & Hx & Hb).
    exists x, s2. split; [apply elem_of_cons; right|]; assumption.
  - intros [= <-]. exists y, s. split; [apply elem_of_cons; left; reflexivity|].
    assumption.
Qed.

Lemma getNextState_Err (u : Q) (grid : Grid) (r c : Z) (a : Action)
    (isStochastic : bool) (e : error) :
  getNextState u grid r c a isStochastic = Err e -> e = TypeError.
Proof.
  rewrite getNextState_neighbour.
  destruct (neighbour r c (executedAction u a isStochastic)) as [r' c'].
  destruct (inBounds r' c'); [|discriminate].
  destruct (cellAt grid r' c') as [cell|e'] eqn:Hcell.
  - destruct (decide (type cell = WALL)); discriminate.
  - intros [= <-]. apply (cellAt_Err grid r' c' _ Hcell).
Qed.

Lemma expectedUtilityOf_Err (grid : Grid) (r c : Z) (a : Action) (e : error) :
  expectedUtilityOf grid r c a = Err e -> e = TypeError.
Proof.
  unfold expectedUtilityOf.
  intros (x & acc & _ & Hbody)%for_of_Err_body. destruct x as [act prob].
  destruct (getNextState 0 grid r c act false) as [[nr nc]|e1] eqn:Hn;
    simpl in Hbody.
  - destruct (cellAt grid nr nc) as [cell|e2] eqn:Hc; simpl in Hbody;
      [discriminate|].
    injection Hbody as <-. apply (cellAt_Err grid nr nc _ Hc).
  - injection Hbody as <-. apply (getNextState_Err 0 grid r c act false _ Hn).
Qed.

Lemma for_of_cons {A S : Type} (x : A) (xs : list A)
    (body : A -> S -> result S) (s : S) :
  for_of (x :: xs) body s = let* s' := body x s in for_of xs body s'.
Proof. reflexivity. Qed.

(** The loop over [ACTIONS] never ends at [-Infinity], and throws only a
    TypeError. *)
Lemma bellmanMax_result (grid : Grid) (r c : Z) :
  match bellmanMax grid r c with
  | Ok (m, _) => exists v, m = Finite v
  | Err e => e = TypeError
  end.
Proof.
  unfold bellmanMax.
  set (body := fun (action : Action) (st : bound * option Action) =>
                 let '(maxUtility, bestAction) := st in
                 let* expectedUtility := expectedUtilityOf grid r c action in
                 if gtb expectedUtility maxUtility
                 then Ok (Finite expectedUtility, Some action)
                 else Ok (maxUtility, bestAction)).
  assert (Hfin : forall l v b,
            match for_of l body (Finite v, b) with
            | Ok (m, _) => exists v', m = Finite v'
            | Err e => e = TypeError
            end).
  { induction l as [|a l IH]; intros v b; [simpl; eauto|].
    rewrite for_of_cons. unfold body at 1.
    destruct (expectedUtilityOf grid r c a) as [x|e] eqn:Hx; simpl.
    - destruct (Qltb v x); simpl; apply IH.
    - apply (expectedUtilityOf_Err grid r c a e Hx). }
  unfold ACTIONS. rewrite for_of_cons. unfold body at 1.
  destruct (expectedUtilityOf grid r c UP) as [x|e] eqn:Hx; cbn [rbind gtb].
  - apply Hfin.
  - apply (expectedUtilityOf_Err grid r c UP e Hx).
Qed.

Lemma sweepCell_Err (grid : Grid) (gamma : Q) (r c : Z) (newGrid : Grid)
    (e : error) :
  sweepCell grid gamma r c newGrid = Err e -> e = TypeError.
Proof.
  unfold sweepCell.
  destruct (cellAt grid r c) as [cell|e1] eqn:Hcell; simpl;
    [|intros [= <-]; apply (cellAt_Err grid r c _ Hcell)].
  destruct (decide (type cell = WALL \/ type cell = TERMINAL)).
  - destruct (decide (type cell = TERMINAL)); [apply modifyCell_Err|discriminate].
  - pose proof (bellmanMax_result grid r c) as Hb.
    destruct (bellmanMax grid r c) as [[m b]|e1]; simpl;
      [|intros [= <-]; assumption].
    destruct Hb as [v ->]. simpl.
    destruct (modifyCell newGrid r c _) as [g1|e1] eqn:H1; simpl.
    + apply modifyCell_Err.
    + intros [= <-]. apply (modifyCell_Err _ _ _ _ _ H1).
Qed.

Lemma sweepCell_wfGrid (grid : Grid) (gamma : Q) (r c : Z)
    (newGrid g' : Grid) :
  wfGrid newGrid = true -> sweepCell grid gamma r c newGrid = Ok g' ->
  wfGrid g' = true.
Proof.
  intros Hwf. unfold sweepCell. intros (cell & _ & H)%rbind_Ok.
  destruct (decide (type cell = WALL \/ type cell = TERMINAL)).
  - destruct (decide (type cell = TERMINAL)).
    + eapply modifyCell_wfGrid; eassumption.
    + injection H as <-. assumption.
  - apply rbind_Ok in H as ([m b] & _ & H).
    apply rbind_Ok in H as (v & _ & H).
    apply rbind_Ok in H as (g1 & H1 & H2).
    eapply modifyCell_wfGrid; [|exact H2].
    eapply modifyCell_wfGrid; eassumption.
Qed.

(** The sweep and the updates keep the shape. *)
Lemma results_wfGrid (u : Q) (grid newGrid : Grid) (s : Z * Z)
    (a : Action) (r : Q) (sPrime : Z * Z) (aPrime : Action) (alpha gamma : Q)
    (prevAgent : AgentState) :
  wfGrid grid = true ->
  performValueIterationStep grid gamma = Ok newGrid
  \/ updateQLearning u grid s a r sPrime alpha gamma = Ok newGrid
  \/ updateSARSA u grid s a r sPrime aPrime alpha gamma = Ok newGrid
  \/ stepRL_TD grid prevAgent (fst sPrime) (snd sPrime) alpha gamma
     = Ok newGrid ->
  wfGrid newGrid = true.
Proof.
  intros Hwf [H|[H|[H|H]]].
  - rewrite performValueIterationStep_positions in H.
    assert (Hbody : forall (p : Z * Z) (s0 s1 : Grid),
              wfGrid s0 = true ->
              sweepCell grid gamma (fst p) (snd p) s0 = Ok s1 ->
              wfGrid s1 = true).
    { intros p s0 s1 Hs Hb.
      apply (sweepCell_wfGrid grid gamma (fst p) (snd p) s0 s1 Hs Hb). }
    apply (for_of_preserves (fun g : Grid => wfGrid g = true) positions
             (fun p s0 => sweepCell grid gamma (fst p) (snd p) s0)
             Hbody grid newGrid Hwf H).
  - unfold updateQLearning in H.
    apply rbind_Ok in H as (cell & _ & H).
    apply rbind_Ok in H as (next & _ & H).
    apply rbind_Ok in H as (m & _ & H).
    eapply writeBack_wfGrid; eassumption.
  - unfold updateSARSA in H.
    apply rbind_Ok in H as (cell & _ & H).
    apply rbind_Ok in H as (next & _ & H).
    apply rbind_Ok in H as (m & _ & H).
    eapply writeBack_wfGrid; eassumption.
  - unfold stepRL_TD in H.
    apply rbind_Ok in H as (next & _ & H).
    apply rbind_Ok in H as (cell & _ & H).
    apply rbind_Ok in H as (m & _ & H).
    eapply modifyCell_wfGrid; eassumption.
Qed.

(** X12.  The grids that the sweep and the three updates return have
    again three rows of four cells, so each result can be handed to the
    next step. *)
Theorem results_keep_wfGrid (u : Q) (grid newGrid : Grid) (s : Z * Z)
    (a : Action) (r : Q) (sPrime : Z * Z) (aPrime : Action) (alpha gamma : Q)
    (prevAgent : AgentState) :
  wfGrid grid = true ->
  performValueIterationStep grid gamma = Ok newGrid
  \/ updateQLearning u grid s a r sPrime alpha gamma = Ok newGrid
  \/ updateSARSA u grid s a r sPrime aPrime alpha gamma = Ok newGrid
  \/ stepRL_TD grid prevAgent (fst sPrime) (snd sPrime) alpha gamma
     = Ok newGrid ->
  wfGrid newGrid = true.
Proof.
  apply (results_wfGrid u grid newGrid s a r sPrime aPrime alpha gamma
           prevAgent).
Qed.

Lemma results_keep_wfGrid_witness :
  exists newGrid,
    updateQLearning 0.3 learningGrid (2, 0) UP (-0.04) (1, 0) 0.1 0.9
      = Ok newGrid
    /\ wfGrid newGrid = true.
Proof.
  eexists. split; [vm_compute; reflexivity|].
  apply (results_keep_wfGrid 0.3 learningGrid _ (2, 0) UP (-0.04) (1, 0)
           UP 0.1 0.9 startAgent); [reflexivity|].
  right. left. vm_compute. reflexivity.
Defined.

(** X13.  The sweep writes utilities and policies only: on a 3 x 4 grid
    every cell of the result has the row, column, type, reward, visit
    count and Q-values of the cell of the input grid at that position. *)
Theorem performValueIterationStep_frame (grid : Grid) (gamma : Q) :
  wfGrid grid = true ->
  exists newGrid,
    performValueIterationStep grid gamma = Ok newGrid
    /\ sameLayout grid newGrid
    /\ forall r c cell cell',
         cellAt grid r c = Ok cell -> cellAt newGrid r c = Ok cell' ->
         qValues cell' = qValues cell.
Proof.
  intros Hwf%wfGrid_gridShape.
  destruct (performValueIterationStep_cells grid gamma Hwf)
    as (newGrid & Hrun & Hcells).
  assert (Hkeep : forall r c cell,
            sameIdentity cell (sweptCell grid gamma r c cell)
            /\ qValues (sweptCell grid gamma r c cell) = qValues cell).
  { intros r c cell. unfold sweptCell, sameIdentity.
    destruct (decide (type cell = WALL)); [repeat split|].
    destruct (decide (type cell = TERMINAL)); [repeat split|].
    destruct (argmaxLoop (expectedUtility grid r c)) as [[|m] b];
      repeat split. }
  exists newGrid. split; [assumption|]. split.
  - intros r c. rewrite (Hcells r c).
    destruct (cellAt grid r c) as [cell|e]; simpl; [apply Hkeep | exact I].
  - intros r c cell cell' Hcell Hcell'. rewrite (Hcells r c), Hcell in Hcell'.
    simpl in Hcell'. injection Hcell' as <-. apply Hkeep.
Qed.

Lemma performValueIterationStep_frame_witness :
  exists newGrid,
    performValueIterationStep learningGrid 0.9 = Ok newGrid
    /\ sameLayout learningGrid newGrid.
Proof.
  destruct (performValueIterationStep_frame learningGrid 0.9)
    as (newGrid & Hrun & Hlayout & _); [reflexivity|].
  exists newGrid. split; [exact Hrun | exact Hlayout].
Defined.

(** X14.  The sweep fails only with a TypeError (never with a non-finite
    utility), and it does fail on every grid that lacks a cell somewhere
    inside the 3 x 4 bounds. *)
Theorem performValueIterationStep_TypeError (grid : Grid) (gamma : Q) :
  (forall e, performValueIterationStep grid gamma = Err e -> e = TypeError)
  /\ (forall r c,
        inBounds r c = true -> cellAt grid r c = Err TypeError ->
        performValueIterationStep grid gamma = Err TypeError).
Proof.
  rewrite performValueIterationStep_positions.
  assert (Herr : forall e,
            for_of positions
              (fun p s => sweepCell grid gamma (fst p) (snd p) s) grid = Err e ->
            e = TypeError).
  { intros e (p & s1 & _ & Hb)%for_of_Err_body.
    apply (sweepCell_Err grid gamma _ _ s1 e Hb). }
  split; [assumption|].
  intros r c Hin Hmiss.
  destruct (for_of positions
              (fun p s => sweepCell grid gamma (fst p) (snd p) s) grid)
    as [g'|e] eqn:Hrun.
  - exfalso.
    destruct (for_of_Ok_each _ _ _ _ Hrun (r, c)) as (s1 & s2 & Hb);
      [apply positions_inBounds, Hin|].
    simpl in Hb. unfold sweepCell in Hb. rewrite Hmiss in Hb. discriminate.
  - f_equal. apply Herr. reflexivity.
Qed.

Lemma performValueIterationStep_TypeError_witness :
  performValueIterationStep [[]] 0.9 = Err TypeError.
Proof.
  apply (proj2 (performValueIterationStep_TypeError [[]] 0.9) 0 0);
    reflexivity.
Defined.

(** ** One step of the agent *)

Lemma getEpsilonGreedyAction_Some (u1 u2 : Q) (cell : CellState)
    (epsilon : Q) :
  (0 <= u2 < 1)%Q ->
  exists a, getEpsilonGreedyAction u1 u2 cell epsilon = Some a.
Proof.
  intros Hu2. unfold getEpsilonGreedyAction.
  destruct (Qltb u1 epsilon).
  - destruct (pick_index u2 ACTIONS Hu2) as (i & Hi & _ & ->); [discriminate|].
    apply lookup_lt_is_Some_2, Hi.
  - destruct (bestActionsOf_spec cell) as (_ & Hne & _).
    destruct (pick_index u2 (bestActionsOf cell) Hu2 Hne) as (i & Hi & _ & Hp).
    unfold getGreedyAction. rewrite Hp. apply lookup_lt_is_Some_2, Hi.
Qed.

Lemma cellAt_rowAt (grid : Grid) (r c : Z) (cell : CellState) :
  cellAt grid r c = Ok cell ->
  exists cells, rowAt grid r = Ok cells /\ index cells c = Some cell.
Proof.
  unfold cellAt, rowAt. destruct (index grid r) as [cells|]; [|discriminate].
  destruct (index cells c) as [x|] eqn:Hc; [|discriminate].
  intros [= ->]. eauto.
Qed.

Lemma writeBack_frame (u : Q) (grid : Grid) (s : Z * Z) (a : Action)
    (newQ : Q) (cell : CellState) :
  cellAt grid (fst s) (snd s) = Ok cell ->
  exists newGrid cell',
    writeBack u grid s a newQ = Ok newGrid
    /\ sameElsewhere grid s newGrid
    /\ cellAt newGrid (fst s) (snd s) = Ok cell'
    /\ sameIdentity cell cell'.
Proof.
  intros Hcell.
  destruct (writeBack_spec u grid s a newQ cell Hcell)
    as (newGrid & Hrun & Hs & Hrest).
  destruct (writtenCell_spec u cell a newQ) as (_ & _ & _ & Hid).
  exists newGrid, (writtenCell u cell a newQ). auto.
Qed.

Lemma sameIdentity_refl (cell : CellState) : sameIdentity cell cell.
Proof. repeat split. Qed.

(** One step of an agent that stands on a cell of a grid of the right
    shape, with draws in [[0, 1)]: the action chosen, the cell entered, the
    grid handed to [setGrid] and the agent returned. *)
Lemma stepRL_run (draws : nat -> Q) (grid : Grid) (activeTab : Tab)
    (alpha gamma epsilon : Q) (prevAgent : AgentState) (cell : CellState) :
  gridShape grid -> validDraws draws ->
  cellAt grid (agentRow prevAgent) (agentCol prevAgent) = Ok cell ->
  exists a next newGrid cell',
    getEpsilonGreedyAction (draws 0%nat) (draws 1%nat) cell epsilon = Some a
    /\ cellAt grid
         (fst (dest grid (agentRow prevAgent) (agentCol prevAgent)
                 (executedAction (draws 2%nat) a true)))
         (snd (dest grid (agentRow prevAgent) (agentCol prevAgent)
                 (executedAction (draws 2%nat) a true)))
       = Ok next
    /\ stepRL draws grid activeTab alpha gamma epsilon (Some prevAgent)
       = Ok (Some newGrid,
             if decide (type next = TERMINAL) then startAgent
             else mkAgent
                    (fst (dest grid (agentRow prevAgent) (agentCol prevAgent)
                            (executedAction (draws 2%nat) a true)))
                    (snd (dest grid (agentRow prevAgent) (agentCol prevAgent)
                            (executedAction (draws 2%nat) a true)))
                    (Some a) (totalReward prevAgent + reward next)%Q)
    /\ sameElsewhere grid (agentRow prevAgent, agentCol prevAgent) newGrid
    /\ cellAt newGrid (agentRow prevAgent) (agentCol prevAgent) = Ok cell'
    /\ sameIdentity cell cell'
    /\ (activeTab = MDP -> cell' = cell)
    /\ (activeTab = TD ->
        qValues cell' = qValues cell /\ policy cell' = policy cell)
    /\ (wfGrid grid = true -> wfGrid newGrid = true).
Proof.
  intros Hshape Hdraws Hcell.
  set (row := agentRow prevAgent) in *. set (col := agentCol prevAgent) in *.
  destruct (getEpsilonGreedyAction_Some (draws 0%nat) (draws 1%nat) cell
              epsilon (Hdraws 1%nat)) as [a Ha].
  set (p := dest grid row col (executedAction (draws 2%nat) a true)).
  assert (Hin : inBounds row col = true) by (apply (Hshape row col); eauto).
  pose proof (dest_inBounds grid row col
                (executedAction (draws 2%nat) a true) Hin) as Hp.
  fold p in Hp.
  destruct (proj1 (Hshape (fst p) (snd p)) Hp) as [next Hnext].
  assert (Hmove : getNextStateU (draws 2%nat) grid row col (Some a) = Ok p).
  { unfold getNextStateU. rewrite getNextState_executed.
    apply (getNextState_dest _ grid row col _ Hshape). }
  destruct (cellAt_rowAt grid row col cell Hcell) as (cells & Hrow & Hidx).
  assert (Hprefix : forall k,
            stepRL draws grid activeTab alpha gamma epsilon (Some prevAgent) =
            (let* newGrid := k in
             Ok (Some newGrid,
                 if decide (type next = TERMINAL) then startAgent
                 else mkAgent (fst p) (snd p) (Some a)
                              (totalReward prevAgent + reward next)%Q)) ->
            forall newGrid, k = Ok newGrid ->
            stepRL draws grid activeTab alpha gamma epsilon (Some prevAgent) =
            Ok (Some newGrid,
                if decide (type next = TERMINAL) then startAgent
                else mkAgent (fst p) (snd p) (Some a)
                             (totalReward prevAgent + reward next)%Q)).
  { intros k -> newGrid ->. reflexivity. }
  assert (Hstep : stepRL draws grid activeTab alpha gamma epsilon
                    (Some prevAgent) =
          (let* newGrid :=
             match activeTab with
             | QLEARNING =>
                 updateQLearning (draws 3%nat) grid (row, col) a (reward next)
                                 (fst p, snd p) alpha gamma
             | SARSA =>
                 match getEpsilonGreedyAction (draws 3%nat) (draws 4%nat) next
                         epsilon with
                 | Some a' =>
                     updateSARSA (draws 5%nat) grid (row, col) a (reward next)
                                 (fst p, snd p) a' alpha gamma
                 | None =>
                     if decide (type next = TERMINAL)
                     then updateSARSA (draws 5%nat) grid (row, col) a
                                      (reward next) (fst p, snd p) UP alpha
                                      gamma
                     else let* _ := cellAt grid row col in Err NonFinite
                 end
             | TD => stepRL_TD grid prevAgent (fst p) (snd p) alpha gamma
             | MDP => Ok grid
             end in
           Ok (Some newGrid,
               if decide (type next = TERMINAL) then startAgent
               else mkAgent (fst p) (snd p) (Some a)
                            (totalReward prevAgent + reward next)%Q))).
  { unfold stepRL. fold row. fold col. rewrite Hrow. cbn [rbind].
    rewrite Hidx. unfold chooseAction. rewrite Ha. cbn [rbind].
    rewrite Hmove. cbn [rbind]. destruct p as [pr pc]. cbn [fst snd] in *.
    rewrite Hnext. cbn [rbind fst snd]. reflexivity. }
  exists a, next. fold p.
  destruct activeTab.
  - (* MDP *)
    exists grid, cell. split; [assumption|]. split; [assumption|].
    split; [apply (Hprefix _ Hstep); reflexivity|].
    split; [intros r c _; reflexivity|]. split; [assumption|].
    split; [apply sameIdentity_refl|]. split; [reflexivity|].
    split; [discriminate | auto].
  - (* TD *)
    destruct (stepRL_TD_spec grid prevAgent (fst p) (snd p) alpha gamma cell
                next Hcell Hnext) as (newGrid & Hrun & Hs & Hrest).
    eexists newGrid, _. split; [assumption|]. split; [assumption|].
    split; [apply (Hprefix _ Hstep), Hrun|].
    split; [assumption|]. split; [exact Hs|].
    split; [repeat split|]. split; [discriminate|]. split; [auto|].
    intros Hwf.
    apply (results_wfGrid 0 grid newGrid (row, col) UP 0 p UP alpha gamma
             prevAgent Hwf).
    right. right. right. exact Hrun.
  - (* QLEARNING *)
    assert (Hnext' : cellAt grid (fst (fst p, snd p)) (snd (fst p, snd p))
                     = Ok next) by exact Hnext.
    pose proof (updateQLearning_run (draws 3%nat) grid (row, col) a
                  (reward next) (fst p, snd p) alpha gamma cell next
                  Hcell Hnext') as Hrun.
    match type of Hrun with
    | _ = writeBack _ _ _ _ ?q => set (newQ := q) in Hrun
    end.
    destruct (writeBack_frame (draws 3%nat) grid (row, col) a newQ cell Hcell)
      as (newGrid & cell' & Hwb & Hrest & Hs & Hid).
    rewrite Hwb in Hrun.
    exists newGrid, cell'. split; [assumption|]. split; [assumption|].
    split; [apply (Hprefix _ Hstep), Hrun|].
    split; [assumption|]. split; [exact Hs|]. split; [assumption|].
    split; [discriminate|]. split; [discriminate|].
    intros Hwf.
    apply (results_wfGrid (draws 3%nat) grid newGrid (row, col) a (reward next)
             (fst p, snd p) UP alpha gamma prevAgent Hwf).
    right. left. exact Hrun.
  - (* SARSA *)
    destruct (getEpsilonGreedyAction_Some (draws 3%nat) (draws 4%nat) next
                epsilon (Hdraws 4%nat)) as [a' Ha'].
    rewrite Ha' in Hstep.
    assert (Hnext' : cellAt grid (fst (fst p, snd p)) (snd (fst p, snd p))
                     = Ok next) by exact Hnext.
    pose proof (updateSARSA_run (draws 5%nat) grid (row, col) a
                  (reward next) (fst p, snd p) a' alpha gamma cell next
                  Hcell Hnext') as Hrun.
    match type of Hrun with
    | _ = writeBack _ _ _ _ ?q => set (newQ := q) in Hrun
    end.
    destruct (writeBack_frame (draws 5%nat) grid (row, col) a newQ cell Hcell)
      as (newGrid & cell' & Hwb & Hrest & Hs & Hid).
    rewrite Hwb in Hrun.
    exists newGrid, cell'. split; [assumption|]. split; [assumption|].
    split; [apply (Hprefix _ Hstep), Hrun|].
    split; [assumption|]. split; [exact Hs|]. split; [assumption|].
    split; [discriminate|]. split; [discriminate|].
    intros Hwf.
    apply (results_wfGrid (draws 5%nat) grid newGrid (row, col) a (reward next)
             (fst p, snd p) a' alpha gamma prevAgent Hwf).
    right. right. left. exact Hrun.
Qed.

(** A grid that differs from [grid] at [s] only, and there not in type,
    has the same layout. *)
Lemma sameElsewhere_sameLayout (grid newGrid : Grid) (s : Z * Z)
    (cell cell' : CellState) :
  sameElsewhere grid s newGrid ->
  cellAt grid (fst s) (snd s) = Ok cell ->
  cellAt newGrid (fst s) (snd s) = Ok cell' ->
  sameIdentity cell cell' ->
  sameLayout grid newGrid.
Proof.
  intros Hrest Hcell Hcell' Hid r c.
  destruct (decide ((r, c) = s)) as [<-|Hne].
  - simpl in Hcell, Hcell'. rewrite Hcell, Hcell'. assumption.
  - rewrite (Hrest r c Hne).
    destruct (cellAt grid r c); [apply sameIdentity_refl | exact I].
Qed.

Lemma sameLayout_openAt (grid newGrid : Grid) (r c : Z) :
  sameLayout grid newGrid -> openAt grid r c -> openAt newGrid r c.
Proof.
  intros Hlay (cell & Hcell & Hw & Ht). specialize (Hlay r c).
  rewrite Hcell in Hlay. unfold openAt.
  destruct (cellAt newGrid r c) as [cell'|]; [|contradiction].
  destruct Hlay as (_ & _ & Hty & _).
  exists cell'. rewrite Hty. split; [reflexivity|]. split; assumption.
Qed.

(** The cell that a move from a cell that is not a WALL ends on is not a
    WALL. *)
Lemma dest_not_wall (grid : Grid) (r c : Z) (a : Action)
    (cell next : CellState) :
  cellAt grid r c = Ok cell -> type cell <> WALL ->
  cellAt grid (fst (dest grid r c a)) (snd (dest grid r c a)) = Ok next ->
  type next <> WALL.
Proof.
  intros Hcell Hw. unfold dest. destruct (neighbour r c a) as [r' c'].
  destruct (inBounds r' c' && negb (isWall grid r' c')) eqn:Hgo; simpl.
  - apply andb_prop in Hgo as [_ Hnw]. apply negb_true_iff in Hnw.
    unfold isWall in Hnw. intros Hnext. rewrite Hnext in Hnw.
    apply bool_decide_eq_false in Hnw. assumption.
  - rewrite Hcell. intros [= <-]. assumption.
Qed.

(** X15.  The invariant of the driver: on a 3 x 4 grid whose cell (2,0) is
    neither WALL nor TERMINAL, a step of an agent that stands on a cell
    that is neither WALL nor TERMINAL, with draws in [[0, 1)], returns
    (in every tab) a 3 x 4 grid and an agent that again stands on a cell
    that is neither WALL nor TERMINAL, with (2,0) still such a cell. *)
Theorem stepRL_keeps_agent_on_open_cells (draws : nat -> Q) (grid : Grid)
    (activeTab : Tab) (alpha gamma epsilon : Q) (prevAgent : AgentState) :
  wfGrid grid = true -> validDraws draws ->
  openAt grid (agentRow prevAgent) (agentCol prevAgent) ->
  openAt grid 2 0 ->
  exists newGrid agent,
    stepRL draws grid activeTab alpha gamma epsilon (Some prevAgent)
      = Ok (Some newGrid, agent)
    /\ wfGrid newGrid = true
    /\ openAt newGrid (agentRow agent) (agentCol agent)
    /\ openAt newGrid 2 0.
Proof.
  intros Hwf Hdraws (cell & Hcell & Hw & Ht) Hstart.
  destruct (stepRL_run draws grid activeTab alpha gamma epsilon prevAgent cell
              (wfGrid_gridShape grid Hwf) Hdraws Hcell)
    as (a & next & newGrid & cell' & _ & Hnext & Hrun & Hrest & Hs & Hid
        & _ & _ & Hwf').
  assert (Hlay : sameLayout grid newGrid)
    by (apply (sameElsewhere_sameLayout grid newGrid
                 (agentRow prevAgent, agentCol prevAgent) cell cell');
        assumption).
  eexists newGrid, _. split; [exact Hrun|]. split; [auto|].
  split; [|apply (sameLayout_openAt grid newGrid 2 0 Hlay Hstart)].
  destruct (decide (type next = TERMINAL)) as [Hterm|Hterm].
  - apply (sameLayout_openAt grid newGrid 2 0 Hlay Hstart).
  - simpl. apply (sameLayout_openAt grid newGrid _ _ Hlay).
    exists next. split; [assumption|]. split; [|assumption].
    apply (dest_not_wall grid _ _ _ cell next Hcell Hw Hnext).
Qed.

Lemma stepRL_keeps_agent_on_open_cells_witness :
  exists newGrid agent,
    stepRL (fun _ => 0.5%Q) learningGrid QLEARNING 0.1 0.9 0.2
           (Some startAgent)
      = Ok (Some newGrid, agent)
    /\ wfGrid newGrid = true
    /\ openAt newGrid (agentRow agent) (agentCol agent)
    /\ openAt newGrid 2 0.
Proof.
  apply (stepRL_keeps_agent_on_open_cells (fun _ => 0.5%Q) learningGrid
           QLEARNING 0.1 0.9 0.2 startAgent).
  - reflexivity.
  - intros n. evalQ.
  - exists (mkCell 2 0 START (-0.04) 0 (mkQ 0 0 0 0) None 0).
    split; [reflexivity|]. split; discriminate.
  - exists (mkCell 2 0 START (-0.04) 0 (mkQ 0 0 0 0) None 0).
    split; [reflexivity|]. split; discriminate.
Defined.

(** X16.  Episodes: with no agent yet, [stepRL] returns the start agent
    (2, 0, null, 0) and writes no grid.  Otherwise the agent takes the
    epsilon-greedy action of its cell and enters the cell that the
    stochastic [getNextState] returns; if that cell is TERMINAL the agent
    returned is the start agent with its total reward back at 0, and if
    not it stands on that cell and remembers the action.  (Its new total
    reward is a rounded sum and is not part of the statement.) *)
Theorem stepRL_episode (draws : nat -> Q) (grid : Grid) (activeTab : Tab)
    (alpha gamma epsilon : Q) (prevAgent : AgentState) (cell : CellState) :
  wfGrid grid = true -> validDraws draws ->
  cellAt grid (agentRow prevAgent) (agentCol prevAgent) = Ok cell ->
  stepRL draws grid activeTab alpha gamma epsilon None = Ok (None, startAgent)
  /\ exists a nextRow nextCol next newGrid agent,
       getEpsilonGreedyAction (draws 0%nat) (draws 1%nat) cell epsilon = Some a
       /\ getNextState (draws 2%nat) grid (agentRow prevAgent)
                       (agentCol prevAgent) a true = Ok (nextRow, nextCol)
       /\ cellAt grid nextRow nextCol = Ok next
       /\ stepRL draws grid activeTab alpha gamma epsilon (Some prevAgent)
          = Ok (Some newGrid, agent)
       /\ (type next = TERMINAL -> agent = startAgent)
       /\ (type next <> TERMINAL ->
           agentRow agent = nextRow /\ agentCol agent = nextCol
           /\ lastAction agent = Some a).
Proof.
  intros Hwf Hdraws Hcell. split; [reflexivity|].
  pose proof (wfGrid_gridShape grid Hwf) as Hshape.
  destruct (stepRL_run draws grid activeTab alpha gamma epsilon prevAgent cell
              Hshape Hdraws Hcell)
    as (a & next & newGrid & cell' & Ha & Hnext & Hrun & _).
  set (p := dest grid (agentRow prevAgent) (agentCol prevAgent)
              (executedAction (draws 2%nat) a true)) in *.
  eexists a, (fst p), (snd p), next, newGrid, _.
  split; [assumption|]. split.
  { rewrite getNextState_executed.
    rewrite (getNextState_dest _ grid _ _ _ Hshape). fold p.
    destruct p; reflexivity. }
  split; [assumption|]. split; [exact Hrun|]. split.
  - intros Ht. rewrite decide_True by assumption. reflexivity.
  - intros Ht. rewrite decide_False by assumption. repeat split.
Qed.

Lemma stepRL_episode_witness :
  exists newGrid,
    stepRL (fun n => if decide (n = 1%nat) then 0.9%Q else 0.5%Q)
           learningGrid TD 0.1 0.9 0.2
           (Some (mkAgent 0 2 (Some RIGHT) (-0.08)))
    = Ok (Some newGrid, startAgent).
Proof.
  destruct (stepRL_episode
              (fun n => if decide (n = 1%nat) then 0.9%Q else 0.5%Q)
              learningGrid TD 0.1 0.9 0.2
              (mkAgent 0 2 (Some RIGHT) (-0.08))
              (mkCell 0 2 EMPTY (-0.04) 0 (mkQ 0 0 0 0) None 0))
    as (_ & a & nextRow & nextCol & next & newGrid & agent
        & Ha & Hmove & Hnext & Hrun & Hterm & _);
    [reflexivity | intros n; destruct (decide (n = 1%nat)); evalQ
     | reflexivity |].
  exists newGrid. rewrite Hrun. f_equal. f_equal. apply Hterm.
  injection Ha as <-. injection Hmove as <- <-. injection Hnext as <-.
  reflexivity.
Defined.

(** X17.  The grid that a step hands to [setGrid] is the input grid
    everywhere but at the agent's cell, where row, column, type, reward and
    visit count stay.  In the MDP tab it is the input grid at every
    position; in the TD tab no Q-value and no policy changes. *)
Theorem stepRL_frame (draws : nat -> Q) (grid : Grid) (activeTab : Tab)
    (alpha gamma epsilon : Q) (prevAgent : AgentState) (cell : CellState) :
  wfGrid grid = true -> validDraws draws ->
  cellAt grid (agentRow prevAgent) (agentCol prevAgent) = Ok cell ->
  exists newGrid agent,
    stepRL draws grid activeTab alpha gamma epsilon (Some prevAgent)
      = Ok (Some newGrid, agent)
    /\ sameElsewhere grid (agentRow prevAgent, agentCol prevAgent) newGrid
    /\ sameLayout grid newGrid
    /\ (activeTab = MDP -> forall r c, cellAt newGrid r c = cellAt grid r c)
    /\ (activeTab = TD ->
        forall r c old new,
          cellAt grid r c = Ok old -> cellAt newGrid r c = Ok new ->
          qValues new = qValues old /\ policy new = policy old).
Proof.
  intros Hwf Hdraws Hcell.
  destruct (stepRL_run draws grid activeTab alpha gamma epsilon prevAgent cell
              (wfGrid_gridShape grid Hwf) Hdraws Hcell)
    as (a & next & newGrid & cell' & _ & _ & Hrun & Hrest & Hs & Hid
        & Hmdp & Htd & _).
  eexists newGrid, _. split; [exact Hrun|]. split; [assumption|].
  split; [apply (sameElsewhere_sameLayout grid newGrid
                   (agentRow prevAgent, agentCol prevAgent) cell cell');
          assumption|].
  assert (Hat : forall r c old new (P : CellState -> CellState -> Prop),
            (forall x, P x x) -> P cell cell' ->
            cellAt grid r c = Ok old -> cellAt newGrid r c = Ok new ->
            P old new).
  { intros r c old new P Hrefl Hp Hold Hnew.
    destruct (decide ((r, c) = (agentRow prevAgent, agentCol prevAgent)))
      as [[= -> ->]|Hne].
    - rewrite Hcell in Hold. rewrite Hs in Hnew.
      injection Hold as <-. injection Hnew as <-. assumption.
    - rewrite (Hrest r c Hne), Hold in Hnew. injection Hnew as <-.
      apply Hrefl. }
  split.
  - intros Htab r c. specialize (Hmdp Htab). subst cell'.
    destruct (decide ((r, c) = (agentRow prevAgent, agentCol prevAgent)))
      as [[= -> ->]|Hne]; [congruence | apply (Hrest r c Hne)].
  - intros Htab r c old new Hold Hnew.
    apply (Hat r c old new
             (fun x y => qValues y = qValues x /\ policy y = policy x));
      auto.
Qed.

Lemma stepRL_frame_witness :
  exists newGrid agent,
    stepRL (fun _ => 0.5%Q) learningGrid SARSA 0.1 0.9 0.2 (Some startAgent)
      = Ok (Some newGrid, agent)
    /\ sameLayout learningGrid newGrid.
Proof.
  destruct (stepRL_frame (fun _ => 0.5%Q) learningGrid SARSA 0.1 0.9 0.2
              startAgent (mkCell 2 0 START (-0.04) 0 (mkQ 0 0 0 0) None 0))
    as (newGrid & agent & Hrun & _ & Hlay & _);
    [reflexivity | intros n; evalQ | reflexivity |].
  exists newGrid, agent. split; [exact Hrun | exact Hlay].
Defined.

(** ** Cell by cell *)


Lemma sweptCell_sameIdentity (grid : Grid) (gamma : Q) (r c : Z)
    (cell : CellState) :
  sameIdentity cell (sweptCell grid gamma r c cell).
Proof.
  unfold sweptCell, sameIdentity.
  destruct (decide (type cell = WALL)); [repeat split|].
  destruct (decide (type cell = TERMINAL)); [repeat split|].
  destruct (argmaxLoop (expectedUtility grid r c)) as [[|m] b]; repeat split.
Qed.

(** ** Construction, then sweeps *)

(** [n] sweeps keep shape, layout and Q-values. *)
Lemma sweeps_layout (gamma : Q) (n : nat) (grid : Grid) :
  wfGrid grid = true ->
  exists last,
    sweeps n grid gamma = Ok last
    /\ wfGrid last = true
    /\ sameLayout grid last
    /\ forall r c cell cell',
         cellAt grid r c = Ok cell -> cellAt last r c = Ok cell' ->
         qValues cell' = qValues cell.
Proof.
  revert grid. induction n as [|n IH]; intros grid Hwf.
  - exists grid. split; [reflexivity|]. split; [assumption|]. split.
    + intros r c. destruct (cellAt grid r c);
        [apply sameIdentity_refl | exact I].
    + intros r c cell cell' H1 H2. congruence.
  - destruct (performValueIterationStep_cells grid gamma
                (wfGrid_gridShape grid Hwf)) as (g1 & Hrun & Hcells).
    assert (Hwf1 : wfGrid g1 = true).
    { apply (results_wfGrid 0 grid g1 (0, 0) UP 0 (0, 0) UP 0 gamma
               startAgent Hwf). left. exact Hrun. }
    destruct (IH g1 Hwf1) as (last & Hrest & Hwfl & Hlay & Hq).
    exists last. cbn [sweeps]. rewrite Hrun. cbn [rbind].
    split; [assumption|]. split; [assumption|]. split.
    + intros r c. specialize (Hlay r c). rewrite (Hcells r c) in Hlay.
      destruct (cellAt grid r c) as [cell|]; simpl in Hlay.
      * destruct (cellAt last r c) as [cell'|]; [|contradiction].
        pose proof (sweptCell_sameIdentity grid gamma r c cell) as H1.
        unfold sameIdentity in *.
        destruct Hlay as (? & ? & ? & ? & ?), H1 as (? & ? & ? & ? & ?).
        repeat split; congruence.
      * assumption.
    + intros r c cell cell' Hcell Hcell'.
      pose proof (Hcells r c) as H1. rewrite Hcell in H1. simpl in H1.
      rewrite (Hq r c _ cell' H1 Hcell').
      unfold sweptCell.
      destruct (decide (type cell = WALL)); [reflexivity|].
      destruct (decide (type cell = TERMINAL)); [reflexivity|].
      destruct (argmaxLoop (expectedUtility grid r c)) as [[|m] b];
        reflexivity.
Qed.

(** X22.  Construction composes with the sweep: for every step reward,
    discount and number [n] of sweeps, value iteration started on
    [createInitialGrid stepReward] never throws, and the grid it returns
    is 3 x 4 and holds at every position a cell with the row, column,
    type and reward that construction gave it, all Q-values still 0 and
    visit count 0. *)
Theorem createInitialGrid_sweeps (stepReward gamma : Q) (n : nat) :
  exists last,
    sweeps n (createInitialGrid stepReward) gamma = Ok last
    /\ wfGrid last = true
    /\ forall r c, inBounds r c = true ->
         exists cell,
           cellAt last r c = Ok cell
           /\ row cell = r /\ col cell = c
           /\ type cell = type (createCell stepReward r c)
           /\ reward cell = reward (createCell stepReward r c)
           /\ qValues cell = mkQ 0 0 0 0
           /\ visitCount cell = 0.
Proof.
  destruct (sweeps_layout gamma n (createInitialGrid stepReward) eq_refl)
    as (last & Hrun & Hwf & Hlay & Hq).
  exists last. split; [assumption|]. split; [assumption|].
  intros r c Hin. specialize (Hlay r c).
  assert (Hcell : cellAt (createInitialGrid stepReward) r c
                  = Ok (createCell stepReward r c)).
  { apply inBounds_true in Hin as [Hr Hc]. unfold ROWS, COLS in *.
    assert (r = 0 \/ r = 1 \/ r = 2) as Hr' by lia.
    assert (c = 0 \/ c = 1 \/ c = 2 \/ c = 3) as Hc' by lia.
    destruct Hr' as [->|[->| ->]]; destruct Hc' as [->|[->|[->| ->]]];
      reflexivity. }
  rewrite Hcell in Hlay.
  destruct (cellAt last r c) as [cell|] eqn:Hlast; [|contradiction].
  exists cell. split; [reflexivity|].
  destruct Hlay as (Hrow & Hcol & Hty & Hrw & Hvc).
  pose proof (Hq r c _ cell Hcell Hlast) as Hqv.
  assert (Hfresh : forall x y,
            row (createCell stepReward x y) = x
            /\ col (createCell stepReward x y) = y
            /\ qValues (createCell stepReward x y) = mkQ 0 0 0 0
            /\ visitCount (createCell stepReward x y) = 0).
  { intros x y. unfold createCell.
    destruct ((x =? 1) && (y =? 1)), ((x =? 0) && (y =? 3)),
      ((x =? 1) && (y =? 3)), ((x =? 2) && (y =? 0)); repeat split. }
  destruct (Hfresh r c) as (F1 & F2 & F3 & F4).
  repeat split; congruence.
Qed.

Lemma createInitialGrid_sweeps_witness :
  exists last cell,
    sweeps 2 (createInitialGrid (-0.04)) 0.9 = Ok last
    /\ cellAt last 1 1 = Ok cell
    /\ type cell = WALL
    /\ qValues cell = mkQ 0 0 0 0.
Proof.
  destruct (createInitialGrid_sweeps (-0.04) 0.9 2)
    as (last & Hrun & _ & Hcells).
  destruct (Hcells 1 1 eq_refl) as (cell & Hcell & _ & _ & Hty & _ & Hq & _).
  exists last, cell. split; [exact Hrun|]. split; [exact Hcell|].
  split; [exact Hty | exact Hq].
Defined.

(** ** What a cell shows *)

(** X24.  After one sweep of a 3 x 4 grid the policy arrow is rendered on
    exactly the cells that are neither WALL nor TERMINAL and do not hold
    the agent: the sweep leaves a policy on every such cell. *)
Theorem showsArrow_after_sweep (grid : Grid) (gamma : Q)
    (agent : option AgentState) :
  wfGrid grid = true ->
  exists newGrid,
    performValueIterationStep grid gamma = Ok newGrid
    /\ forall r c cell,
         cellAt newGrid r c = Ok cell ->
         (showsArrow cell (isAgentHere agent r c) = true <->
          type cell <> WALL /\ type cell <> TERMINAL
          /\ isAgentHere agent r c = false).
Proof.
  intros Hwf%wfGrid_gridShape.
  destruct (performValueIterationStep_cells grid gamma Hwf)
    as (newGrid & Hrun & Hcells).
  exists newGrid. split; [assumption|].
  intros r c cell' Hcell'. rewrite (Hcells r c) in Hcell'.
  destruct (cellAt grid r c) as [cell|] eqn:Hcell; [|discriminate].
  simpl in Hcell'. injection Hcell' as <-.
  destruct (sweptCell_fixed grid gamma r c cell) as (Hty & _).
  unfold showsArrow. rewrite Hty. split.
  - destruct (policy (sweptCell grid gamma r c cell)); [|discriminate].
    intros [[Hw Ht]%andb_prop Ha]%andb_prop.
    apply bool_decide_eq_true in Hw. apply bool_decide_eq_true in Ht.
    apply negb_true_iff in Ha. auto.
  - intros (Hw & Ht & Ha).
    destruct (sweptCell_open grid gamma r c cell Hw Ht) as (best & -> & _).
    simpl. rewrite Ha.
    rewrite !bool_decide_eq_true_2 by assumption. reflexivity.
Qed.

Lemma showsArrow_after_sweep_witness :
  exists newGrid,
    performValueIterationStep (createInitialGrid (-0.04)) 0.9 = Ok newGrid
    /\ forall cell, cellAt newGrid 1 1 = Ok cell ->
         showsArrow cell (isAgentHere (Some startAgent) 1 1) <> true.
Proof.
  destruct (showsArrow_after_sweep (createInitialGrid (-0.04)) 0.9
              (Some startAgent)) as (newGrid & Hrun & Harrow);
    [reflexivity|].
  exists newGrid. split; [exact Hrun|].
  intros cell Hcell Hshown.
  destruct (proj1 (Harrow 1 1 cell Hcell) Hshown) as (Hw & _).
  apply Hw. revert Hcell. injection Hrun as <-. intros [= <-]. reflexivity.
Defined.

(** * The arithmetic in binary64: rounding *)

(** ** Powers of two *)
Lemma p2_pos (z : Z) : (0 < 2 ^ z)%Q.
Proof. apply Qpower_0_lt. reflexivity. Qed.

Lemma p2_nz (z : Z) : ~ (2 ^ z == 0)%Q.
Proof. intros H. pose proof (p2_pos z). lra. Qed.

Lemma p2_plus (a b : Z) : (2 ^ (a + b) == 2 ^ a * 2 ^ b)%Q.
Proof. apply Qpower_plus. discriminate. Qed.

Lemma p2_le (a b : Z) : a <= b -> (2 ^ a <= 2 ^ b)%Q.
Proof. intros H. apply Qpower_le_compat_l; [assumption | discriminate]. Qed.

Lemma p2_lt (a b : Z) : a < b -> (2 ^ a < 2 ^ b)%Q.
Proof. intros H. apply Qpower_lt_compat_l; [assumption | reflexivity]. Qed.

Lemma p2_lt_inv (a b : Z) : (2 ^ a < 2 ^ b)%Q -> a < b.
Proof.
  intros H. destruct (Z_lt_le_dec a b) as [|Hle]; [assumption|].
  apply p2_le in Hle. lra.
Qed.

Lemma p2_succ (a : Z) : (2 ^ (a + 1) == 2 * 2 ^ a)%Q.
Proof. rewrite p2_plus. change (2 ^ 1)%Q with 2%Q. ring. Qed.

Lemma p2_Z (a : Z) : 0 <= a -> (2 ^ a == inject_Z (2 ^ a))%Q.
Proof. intros H. rewrite Zpower_Qpower by assumption. reflexivity. Qed.

Lemma ilog2_spec (q : Q) :
  (0 < q)%Q -> (2 ^ Binary64.ilog2 q <= q < 2 ^ (Binary64.ilog2 q + 1))%Q.
Proof.
  intros Hq. unfold Binary64.ilog2.
  destruct q as [n d]. simpl Qnum. simpl Qden.
  assert (Hn : 0 < n) by (unfold Qlt in Hq; simpl in Hq; lia).
  set (a := Z.log2 n). set (b := Z.log2 (Z.pos d)).
  destruct (Z.log2_spec n Hn) as [Ha1 Ha2].
  destruct (Z.log2_spec (Z.pos d) eq_refl) as [Hb1 Hb2].
  fold a in Ha1, Ha2. fold b in Hb1, Hb2.
  assert (Ha0 : 0 <= a) by apply Z.log2_nonneg.
  assert (Hb0 : 0 <= b) by apply Z.log2_nonneg.
  assert (HA1 : (2 ^ a <= inject_Z n)%Q).
  { rewrite p2_Z by assumption. rewrite <- Zle_Qle. assumption. }
  assert (HA2 : (inject_Z n < 2 * 2 ^ a)%Q).
  { rewrite <- p2_succ. rewrite p2_Z by lia. rewrite <- Zlt_Qlt.
    replace (a + 1) with (Z.succ a) by lia. assumption. }
  assert (HB1 : (2 ^ b <= inject_Z (Z.pos d))%Q).
  { rewrite p2_Z by assumption. rewrite <- Zle_Qle. assumption. }
  assert (HB2 : (inject_Z (Z.pos d) < 2 * 2 ^ b)%Q).
  { rewrite <- p2_succ. rewrite p2_Z by lia. rewrite <- Zlt_Qlt.
    replace (b + 1) with (Z.succ b) by lia. assumption. }
  assert (Hqd : ((n # d) * inject_Z (Z.pos d) == inject_Z n)%Q).
  { unfold Qeq, Qmult, inject_Z. simpl. lia. }
  assert (Hab : (2 ^ a == 2 ^ (a - b) * 2 ^ b)%Q).
  { rewrite <- p2_plus. replace (a - b + b) with a by lia. reflexivity. }
  pose proof (p2_pos a) as Pa. pose proof (p2_pos b) as Pb.
  pose proof (p2_pos (a - b)) as Pl.
  assert (Hup : (n # d < 2 * 2 ^ (a - b))%Q) by nra.
  assert (Hlo : (2 ^ (a - b) < 2 * (n # d))%Q) by nra.
  destruct (Qle_bool (2 ^ (a - b)) (n # d)) eqn:Hc.
  - apply Qle_bool_iff in Hc. rewrite p2_succ. split; assumption.
  - assert (Hlt : (n # d < 2 ^ (a - b))%Q).
    { apply Qnot_le_lt. intros H. apply Qle_bool_iff in H. congruence. }
    replace (a - b - 1 + 1) with (a - b) by lia.
    assert (Hh : (2 ^ (a - b) == 2 * 2 ^ (a - b - 1))%Q).
    { rewrite <- p2_succ. replace (a - b - 1 + 1) with (a - b) by lia.
      reflexivity. }
    split; [lra | assumption].
Qed.

Lemma ilog2_unique (q : Q) (l : Z) :
  (2 ^ l <= q < 2 ^ (l + 1))%Q -> Binary64.ilog2 q = l.
Proof.
  intros [H1 H2].
  assert (Hq : (0 < q)%Q) by (pose proof (p2_pos l); lra).
  destruct (ilog2_spec q Hq) as [H3 H4].
  assert (Binary64.ilog2 q < l + 1) by (apply p2_lt_inv; lra).
  assert (l < Binary64.ilog2 q + 1) by (apply p2_lt_inv; lra).
  lia.
Qed.

Lemma ilog2_mono (q1 q2 : Q) :
  (0 < q1)%Q -> (q1 <= q2)%Q -> Binary64.ilog2 q1 <= Binary64.ilog2 q2.
Proof.
  intros H1 H12.
  destruct (ilog2_spec q1 H1) as [A1 A2].
  destruct (ilog2_spec q2 ltac:(lra)) as [B1 B2].
  assert (Binary64.ilog2 q1 < Binary64.ilog2 q2 + 1) by (apply p2_lt_inv; lra).
  lia.
Qed.

(** ** The nearest integer *)
Lemma rne_cases (x : Q) :
  let f := Qfloor x in
  (inject_Z f <= x < inject_Z f + 1)%Q
  /\ ((Binary64.rne x = f /\ (x - inject_Z f <= 1 # 2)%Q
       /\ ((x - inject_Z f == 1 # 2)%Q -> Z.even f = true))
      \/ (Binary64.rne x = f + 1 /\ (1 # 2 <= x - inject_Z f)%Q
          /\ ((x - inject_Z f == 1 # 2)%Q -> Z.even f = false))).
Proof.
  intros f. pose proof (Qfloor_le x) as Hlo. pose proof (Qlt_floor x) as Hhi.
  fold f in Hlo, Hhi. rewrite inject_Z_plus in Hhi. 
  split; [split; [assumption | exact Hhi]|].
  unfold Binary64.rne. fold f.
  destruct (Qcompare_spec (x - inject_Z f) (1 # 2)) as [He|Hl|Hg].
  - destruct (Z.even f) eqn:Hev.
    + left. split; [reflexivity|]. split; [lra | auto].
    + right. split; [reflexivity|]. split; [lra | auto].
  - left. split; [reflexivity|]. split; [lra|]. intros; lra.
  - right. split; [reflexivity|]. split; [lra|]. intros; lra.
Qed.

Lemma rne_Z (n : Z) : Binary64.rne (inject_Z n) = n.
Proof.
  unfold Binary64.rne. rewrite Qfloor_Z.
  destruct (Qcompare_spec (inject_Z n - inject_Z n) (1 # 2)) as [He|Hl|Hg];
    [lra | reflexivity | lra].
Qed.

Lemma rne_mono (x y : Q) : (x <= y)%Q -> Binary64.rne x <= Binary64.rne y.
Proof.
  intros Hxy. pose proof (Qfloor_resp_le x y Hxy) as Hf.
  destruct (rne_cases x) as [[X1 X2] HX]. destruct (rne_cases y) as [[Y1 Y2] HY].
  destruct (Z.eq_dec (Qfloor x) (Qfloor y)) as [He|Hne].
  - rewrite He in *.
    destruct HX as [(-> & _)|(-> & Hx & Hxe)]; destruct HY as [(-> & Hy & Hye)|(-> & _)]; try lia.
    assert (Hh : (y - inject_Z (Qfloor y) == 1 # 2)%Q) by lra.
    assert (Hh' : (x - inject_Z (Qfloor y) == 1 # 2)%Q) by lra.
    rewrite (Hye Hh) in Hxe. specialize (Hxe Hh'). discriminate.
  - destruct HX as [(-> & _)|(-> & _)]; destruct HY as [(-> & _)|(-> & _)]; lia.
Qed.

Lemma rne_comp (x y : Q) : (x == y)%Q -> Binary64.rne x = Binary64.rne y.
Proof.
  intros H. apply Z.le_antisymm; apply rne_mono; lra.
Qed.

Lemma rne_le (x : Q) (n : Z) : (x <= inject_Z n)%Q -> Binary64.rne x <= n.
Proof. intros H. rewrite <- (rne_Z n). apply rne_mono. assumption. Qed.

Lemma rne_ge (x : Q) (n : Z) : (inject_Z n <= x)%Q -> n <= Binary64.rne x.
Proof. intros H. rewrite <- (rne_Z n). apply rne_mono. assumption. Qed.

Lemma rndPos_unfold (q : Q) :
  Binary64.rndPos q = (inject_Z (Binary64.rne (q / 2 ^ Binary64.expo q)) * 2 ^ Binary64.expo q)%Q.
Proof. reflexivity. Qed.

Lemma div_p2 (q : Q) (e : Z) : (q / 2 ^ e * 2 ^ e == q)%Q.
Proof. field. pose proof (p2_pos e). lra. Qed.

Lemma le_div_p2 (q : Q) (n : Z) (e : Z) :
  (inject_Z n * 2 ^ e <= q)%Q -> (inject_Z n <= q / 2 ^ e)%Q.
Proof.
  intros H. pose proof (p2_pos e) as P. pose proof (div_p2 q e) as D.
  apply Qnot_lt_le. intros Hlt.
  assert ((q / 2 ^ e) * 2 ^ e < inject_Z n * 2 ^ e)%Q
    by (apply Qmult_lt_compat_r; assumption).
  lra.
Qed.

Lemma div_p2_le (q : Q) (n : Z) (e : Z) :
  (q <= inject_Z n * 2 ^ e)%Q -> (q / 2 ^ e <= inject_Z n)%Q.
Proof.
  intros H. pose proof (p2_pos e) as P. pose proof (div_p2 q e) as D.
  apply Qnot_lt_le. intros Hlt.
  assert (inject_Z n * 2 ^ e < (q / 2 ^ e) * 2 ^ e)%Q
    by (apply Qmult_lt_compat_r; assumption).
  lra.
Qed.

Lemma rndPos_ge (q : Q) (n : Z) :
  (inject_Z n * 2 ^ Binary64.expo q <= q)%Q ->
  (inject_Z n * 2 ^ Binary64.expo q <= Binary64.rndPos q)%Q.
Proof.
  intros H. rewrite rndPos_unfold. pose proof (p2_pos (Binary64.expo q)) as P.
  apply Qmult_le_compat_r; [|lra].
  rewrite <- Zle_Qle. apply rne_ge. apply le_div_p2. assumption.
Qed.

Lemma rndPos_le (q : Q) (n : Z) :
  (q <= inject_Z n * 2 ^ Binary64.expo q)%Q ->
  (Binary64.rndPos q <= inject_Z n * 2 ^ Binary64.expo q)%Q.
Proof.
  intros H. rewrite rndPos_unfold. pose proof (p2_pos (Binary64.expo q)) as P.
  apply Qmult_le_compat_r; [|lra].
  rewrite <- Zle_Qle. apply rne_le. apply div_p2_le. assumption.
Qed.

Lemma rndPos_nonneg (q : Q) : (0 <= q)%Q -> (0 <= Binary64.rndPos q)%Q.
Proof.
  intros H. pose proof (rndPos_ge q 0) as G.
  assert (E : (inject_Z 0 * 2 ^ Binary64.expo q == 0)%Q) by ring.
  rewrite E in G. apply G. assumption.
Qed.

Lemma p2_53_Z : (2 ^ 53 == inject_Z (2 ^ 53))%Q.
Proof. apply p2_Z. lia. Qed.

Lemma p2_52_Z : (2 ^ 52 == inject_Z (2 ^ 52))%Q.
Proof. apply p2_Z. lia. Qed.

(** ** Rounding is monotone *)

(** The value lies in the binade of its exponent. *)
Lemma below_binade (q : Q) :
  (0 < q)%Q -> (q < inject_Z (2 ^ 53) * 2 ^ Binary64.expo q)%Q.
Proof.
  intros Hq. destruct (ilog2_spec q Hq) as [_ H].
  rewrite <- p2_53_Z, <- p2_plus.
  assert (Binary64.ilog2 q + 1 <= 53 + Binary64.expo q) by (unfold Binary64.expo; lia).
  pose proof (p2_le _ _ H0). lra.
Qed.

Lemma above_binade (q : Q) :
  (0 < q)%Q -> -1074 < Binary64.expo q -> (inject_Z (2 ^ 52) * 2 ^ Binary64.expo q <= q)%Q.
Proof.
  intros Hq He. destruct (ilog2_spec q Hq) as [H _].
  rewrite <- p2_52_Z, <- p2_plus.
  replace (52 + Binary64.expo q) with (Binary64.ilog2 q) by (unfold Binary64.expo in *; lia).
  assumption.
Qed.

Lemma expo_mono (q1 q2 : Q) :
  (0 < q1)%Q -> (q1 <= q2)%Q -> Binary64.expo q1 <= Binary64.expo q2.
Proof.
  intros H1 H2. pose proof (ilog2_mono q1 q2 H1 H2). unfold Binary64.expo. lia.
Qed.

Lemma rndPos_mono (q1 q2 : Q) :
  (0 < q1)%Q -> (q1 <= q2)%Q -> (Binary64.rndPos q1 <= Binary64.rndPos q2)%Q.
Proof.
  intros H1 H12. assert (H2 : (0 < q2)%Q) by lra.
  pose proof (expo_mono q1 q2 H1 H12) as He.
  destruct (Z.eq_dec (Binary64.expo q1) (Binary64.expo q2)) as [Heq|Hne].
  - rewrite !rndPos_unfold, Heq. pose proof (p2_pos (Binary64.expo q2)) as P.
    apply Qmult_le_compat_r; [|lra].
    rewrite <- Zle_Qle. apply rne_mono.
    unfold Qdiv. apply Qmult_le_compat_r; [assumption|].
    apply Qlt_le_weak, Qinv_lt_0_compat, P.
  - assert (Hlt : Binary64.expo q1 < Binary64.expo q2) by lia.
    pose proof (rndPos_le q1 (2 ^ 53)
                  (Qlt_le_weak _ _ (below_binade q1 H1))) as Hup.
    assert (Hbig : -1074 < Binary64.expo q2) by (unfold Binary64.expo in *; lia).
    pose proof (rndPos_ge q2 (2 ^ 52) (above_binade q2 H2 Hbig)) as Hlo.
    rewrite <- p2_53_Z, <- p2_plus in Hup.
    rewrite <- p2_52_Z, <- p2_plus in Hlo.
    assert (53 + Binary64.expo q1 <= 52 + Binary64.expo q2) by lia.
    pose proof (p2_le _ _ H). lra.
Qed.

Lemma rnd_pos (q : Q) : (0 < q)%Q -> (Binary64.rnd q == Binary64.rndPos q)%Q.
Proof.
  intros H. unfold Binary64.rnd.
  destruct (Qcompare_spec q 0) as [He|Hl|Hg]; [lra | lra | apply Qred_correct].
Qed.

Lemma rnd_neg (q : Q) : (q < 0)%Q -> (Binary64.rnd q == - Binary64.rndPos (- q))%Q.
Proof.
  intros H. unfold Binary64.rnd.
  destruct (Qcompare_spec q 0) as [He|Hl|Hg]; [lra | apply Qred_correct | lra].
Qed.

Lemma rnd_zero (q : Q) : (q == 0)%Q -> Binary64.rnd q = 0%Q.
Proof.
  intros H. unfold Binary64.rnd.
  destruct (Qcompare_spec q 0) as [He|Hl|Hg]; [reflexivity | lra | lra].
Qed.

Lemma rnd_nonneg (q : Q) : (0 <= q)%Q -> (0 <= Binary64.rnd q)%Q.
Proof.
  intros H. destruct (Qlt_le_dec 0 q) as [Hp|Hz].
  - rewrite rnd_pos by assumption. apply rndPos_nonneg. assumption.
  - rewrite rnd_zero by lra. lra.
Qed.

Lemma rnd_nonpos (q : Q) : (q <= 0)%Q -> (Binary64.rnd q <= 0)%Q.
Proof.
  intros H. destruct (Qlt_le_dec q 0) as [Hn|Hz].
  - rewrite rnd_neg by assumption.
    pose proof (rndPos_nonneg (- q) ltac:(lra)). lra.
  - rewrite rnd_zero by lra. lra.
Qed.

Lemma rnd_opp (q : Q) : (Binary64.rnd (- q) == - Binary64.rnd q)%Q.
Proof.
  destruct (Qcompare_spec q 0) as [He|Hl|Hg].
  - rewrite (rnd_zero q), (rnd_zero (- q)) by lra. reflexivity.
  - rewrite (rnd_neg q) by assumption. rewrite (rnd_pos (- q)) by lra. ring.
  - rewrite (rnd_pos q) by assumption. rewrite (rnd_neg (- q)) by lra.
    assert (E : Binary64.rndPos (- - q) = Binary64.rndPos q); [|rewrite E; reflexivity].
    f_equal. destruct q as [n d]. unfold Qopp. simpl. rewrite Z.opp_involutive. reflexivity.
Qed.

Theorem rnd_mono (q1 q2 : Q) : (q1 <= q2)%Q -> (Binary64.rnd q1 <= Binary64.rnd q2)%Q.
Proof.
  intros H.
  destruct (Qlt_le_dec 0 q1) as [P1|N1].
  - rewrite !rnd_pos by lra. apply rndPos_mono; assumption.
  - destruct (Qlt_le_dec 0 q2) as [P2|N2].
    + pose proof (rnd_nonpos q1 N1). pose proof (rnd_nonneg q2 ltac:(lra)). lra.
    + destruct (Qlt_le_dec q2 0) as [L2|Z2].
      * rewrite !rnd_neg by lra.
        pose proof (rndPos_mono (- q2) (- q1) ltac:(lra) ltac:(lra)). lra.
      * rewrite (rnd_zero q2) by lra. apply rnd_nonpos. assumption.
Qed.

Lemma rnd_comp (q q' : Q) : (q == q')%Q -> Binary64.rnd q = Binary64.rnd q'.
Proof.
  intros H. 
  assert (E : (Binary64.rnd q == Binary64.rnd q')%Q).
  { apply Qle_antisym; apply rnd_mono; lra. }
  unfold Binary64.rnd in *.
  destruct (Qcompare_spec q 0); destruct (Qcompare_spec q' 0); try lra;
    try reflexivity; apply Qred_complete; rewrite !Qred_correct in E; exact E.
Qed.

(** ** The values that rounding returns *)

Lemma rndPos_exact (q : Q) (k : Z) :
  (q / 2 ^ Binary64.expo q == inject_Z k)%Q -> (Binary64.rndPos q == q)%Q.
Proof.
  intros H. rewrite rndPos_unfold. rewrite (rne_comp _ _ H), rne_Z.
  rewrite <- H. apply div_p2.
Qed.

Lemma rndPos_fixed (n e : Z) :
  0 < n <= 2 ^ 53 -> -1074 <= e ->
  (Binary64.rndPos (inject_Z n * 2 ^ e) == inject_Z n * 2 ^ e)%Q.
Proof.
  intros Hn He. set (q := (inject_Z n * 2 ^ e)%Q).
  pose proof (p2_pos e) as Pe.
  assert (Hn0 : (0 < inject_Z n)%Q) by (rewrite <- (Zlt_Qlt 0); lia).
  assert (Hq : (0 < q)%Q) by (unfold q; nra).
  destruct (ilog2_spec q Hq) as [L1 L2].
  destruct (Z.eq_dec n (2 ^ 53)) as [Htop|Hlow].
  - assert (Eq : (q == 2 ^ (53 + e))%Q).
    { unfold q. rewrite Htop, <- p2_53_Z, <- p2_plus. reflexivity. }
    assert (HL : Binary64.ilog2 q = 53 + e).
    { apply ilog2_unique. rewrite Eq. split; [lra|]. apply p2_lt. lia. }
    assert (Hx : Binary64.expo q = e + 1) by (unfold Binary64.expo; lia).
    apply (rndPos_exact q (2 ^ 52)). rewrite Hx, Eq.
    rewrite <- p2_52_Z.
    replace (53 + e) with (52 + (e + 1)) by lia. rewrite p2_plus.
    apply Qdiv_mult_l, p2_nz.
  - assert (Hlt : (q < 2 ^ (53 + e))%Q).
    { unfold q. rewrite p2_plus, p2_53_Z.
      apply Qmult_lt_compat_r; [assumption|]. rewrite <- Zlt_Qlt. lia. }
    assert (HL : Binary64.ilog2 q < 53 + e) by (apply p2_lt_inv; lra).
    assert (Hx : Binary64.expo q <= e) by (unfold Binary64.expo; lia).
    apply (rndPos_exact q (n * 2 ^ (e - Binary64.expo q))).
    rewrite inject_Z_mult, <- p2_Z by lia. unfold q.
    replace e with ((e - Binary64.expo q) + Binary64.expo q) at 1 by lia. rewrite p2_plus.
    rewrite Qmult_assoc. apply Qdiv_mult_l, p2_nz.
Qed.

Lemma expo_comp (q q' : Q) : (0 < q)%Q -> (q == q')%Q -> Binary64.expo q = Binary64.expo q'.
Proof.
  intros Hq H. unfold Binary64.expo. f_equal. f_equal. apply ilog2_unique.
  rewrite H. apply ilog2_spec. lra.
Qed.

Lemma rndPos_comp (q q' : Q) :
  (0 < q)%Q -> (q == q')%Q -> Binary64.rndPos q = Binary64.rndPos q'.
Proof.
  intros Hq H. rewrite !rndPos_unfold, (expo_comp q q' Hq H).
  f_equal. f_equal. apply rne_comp. rewrite H. reflexivity.
Qed.

Lemma rnd_fixed (q : Q) : Binary64.representable q -> (Binary64.rnd q == q)%Q.
Proof.
  intros (n & e & Hq & Hn & He). pose proof (p2_pos e) as Pe.
  destruct (Z.lt_trichotomy n 0) as [Hneg|[Hz|Hpos]].
  - assert (Hq' : (- q == inject_Z (- n) * 2 ^ e)%Q).
    { rewrite Hq, inject_Z_opp. ring. }
    assert (Hn0 : (0 < inject_Z (- n))%Q) by (rewrite <- (Zlt_Qlt 0); lia).
    assert (Hn1 : (inject_Z n < 0)%Q) by (change 0%Q with (inject_Z 0); rewrite <- Zlt_Qlt; lia).
    assert (Hlt0 : (inject_Z n * 2 ^ e < 0)%Q) by nra.
    assert (Hlt : (q < 0)%Q) by (rewrite Hq; exact Hlt0).
    rewrite rnd_neg by assumption.
    assert (Hpos : (0 < - q)%Q) by lra.
    rewrite (rndPos_comp _ _ Hpos Hq'), rndPos_fixed by lia. lra.
  - subst n. rewrite rnd_zero; [|rewrite Hq; ring]. rewrite Hq. ring.
  - assert (Hn0 : (0 < inject_Z n)%Q) by (rewrite <- (Zlt_Qlt 0); lia).
    assert (Hgt0 : (0 < inject_Z n * 2 ^ e)%Q) by nra.
    assert (Hgt : (0 < q)%Q) by (rewrite Hq; exact Hgt0).
    rewrite rnd_pos by assumption.
    rewrite (rndPos_comp _ _ Hgt Hq), rndPos_fixed by lia. lra.
Qed.






Lemma rnd_p2 (k : Z) : -1074 <= k -> (Binary64.rnd (2 ^ k) == 2 ^ k)%Q.
Proof.
  intros H. apply rnd_fixed. exists 1, k. split; [ring | lia].
Qed.

Lemma rnd_Z (n : Z) : Z.abs n <= 2 ^ 53 -> (Binary64.rnd (inject_Z n) == inject_Z n)%Q.
Proof.
  intros H. apply rnd_fixed. exists n, 0. split; [|lia].
  change (2 ^ 0)%Q with 1%Q. ring.
Qed.

Lemma rnd_abs_le (q : Q) (k : Z) :
  -1074 <= k -> (Qabs q <= 2 ^ k)%Q -> (Qabs (Binary64.rnd q) <= 2 ^ k)%Q.
Proof.
  intros Hk H. apply Qabs_Qle_condition in H. destruct H as [H1 H2].
  apply Qabs_Qle_condition.
  pose proof (rnd_mono _ _ H1) as M1. pose proof (rnd_mono _ _ H2) as M2.
  rewrite rnd_opp in M1. rewrite rnd_p2 in M1, M2 by assumption.
  split; assumption.
Qed.

(** The double just below a double [A * 2^(L-52)] of the binade of
    [2^L]. *)
Lemma double_pred (u : Q) (A L : Z) :
  (Binary64.rnd u == u)%Q -> (0 <= u)%Q -> -1022 <= L -> 2 ^ 52 < A ->
  (u < inject_Z A * 2 ^ (L - 52))%Q ->
  (u <= inject_Z (A - 1) * 2 ^ (L - 52))%Q.
Proof.
  intros Hu H0 HL HA Hlt. pose proof (p2_pos (L - 52)) as P.
  assert (E : (2 ^ L == inject_Z (2 ^ 52) * 2 ^ (L - 52))%Q).
  { rewrite <- p2_52_Z, <- p2_plus. replace (52 + (L - 52)) with L by lia.
    reflexivity. }
  assert (HA' : (inject_Z (2 ^ 52) <= inject_Z (A - 1))%Q)
    by (rewrite <- Zle_Qle; lia).
  destruct (Qlt_le_dec u (2 ^ L)) as [Hsmall|Hbig].
  - nra.
  - pose proof (p2_pos L) as PL. assert (Hpos : (0 < u)%Q) by lra.
    assert (Hl : L <= Binary64.ilog2 u).
    { rewrite <- (ilog2_unique (2 ^ L) L).
      - apply ilog2_mono; assumption.
      - split; [lra | apply p2_lt; lia]. }
    assert (Hx : L - 52 <= Binary64.expo u) by (unfold Binary64.expo; lia).
    rewrite rnd_pos in Hu by assumption. rewrite rndPos_unfold in Hu.
    set (n := Binary64.rne (u / 2 ^ Binary64.expo u)) in Hu.
    assert (Eu : (u == inject_Z (n * 2 ^ (Binary64.expo u - (L - 52))) * 2 ^ (L - 52))%Q).
    { rewrite inject_Z_mult, <- p2_Z by lia. rewrite <- Qmult_assoc, <- p2_plus.
      replace (Binary64.expo u - (L - 52) + (L - 52)) with (Binary64.expo u) by lia.
      symmetry. exact Hu. }
    set (m := n * 2 ^ (Binary64.expo u - (L - 52))) in Eu.
    assert (Hm : m < A).
    { rewrite Zlt_Qlt. nra. }
    assert (Hm' : (inject_Z m <= inject_Z (A - 1))%Q)
      by (rewrite <- Zle_Qle; lia).
    nra.
Qed.

(** ** Operations that do not overflow *)

Lemma abs_weaken (x : Q) (a b : Z) :
  a <= b -> (Qabs x <= 2 ^ a)%Q -> (Qabs x <= 2 ^ b)%Q.
Proof. intros Hab H. pose proof (p2_le a b Hab). lra. Qed.

Lemma abs_mul (x y : Q) (a b : Z) :
  (Qabs x <= 2 ^ a)%Q -> (Qabs y <= 2 ^ b)%Q ->
  (Qabs (x * y) <= 2 ^ (a + b))%Q.
Proof.
  intros Hx Hy. rewrite Qabs_Qmult, p2_plus.
  pose proof (Qabs_nonneg x). pose proof (Qabs_nonneg y).
  apply Qmult_le_compat_nonneg; split; assumption.
Qed.

Lemma abs_add (x y : Q) (a : Z) :
  (Qabs x <= 2 ^ a)%Q -> (Qabs y <= 2 ^ a)%Q ->
  (Qabs (x + y) <= 2 ^ (a + 1))%Q.
Proof.
  intros Hx Hy. pose proof (Qabs_triangle x y). rewrite p2_succ. lra.
Qed.

Lemma abs_sub (x y : Q) (a : Z) :
  (Qabs x <= 2 ^ a)%Q -> (Qabs y <= 2 ^ a)%Q ->
  (Qabs (x - y) <= 2 ^ (a + 1))%Q.
Proof.
  intros Hx Hy. unfold Qminus. apply abs_add; [assumption|].
  rewrite Qabs_opp. assumption.
Qed.

(** A result of modest size is rounded and returned. *)
Lemma round_bounded (q : Q) (k : Z) :
  -1074 <= k <= 1023 -> (Qabs q <= 2 ^ k)%Q ->
  Binary64.round q = Ok (Binary64.rnd q)
  /\ (Qabs (Binary64.rnd q) <= 2 ^ k)%Q.
Proof.
  intros Hk Hq. pose proof (rnd_abs_le q k ltac:(lia) Hq) as Hb.
  split; [|assumption]. unfold Binary64.round. cbv zeta.
  destruct (Qle_bool (2 ^ 1024) (Qabs (Binary64.rnd q))) eqn:E;
    [|reflexivity].
  apply Qle_bool_iff in E. pose proof (p2_lt k 1024 ltac:(lia)). lra.
Qed.

Lemma mul_bounded (x y : Q) (a b : Z) :
  -1074 <= a + b <= 1023 -> (Qabs x <= 2 ^ a)%Q -> (Qabs y <= 2 ^ b)%Q ->
  Binary64.mul x y = Ok (Binary64.times x y)
  /\ (Qabs (Binary64.times x y) <= 2 ^ (a + b))%Q.
Proof.
  intros Hk Hx Hy. apply round_bounded; [assumption|].
  apply abs_mul; assumption.
Qed.

Lemma add_bounded (x y : Q) (a : Z) :
  -1074 <= a + 1 <= 1023 -> (Qabs x <= 2 ^ a)%Q -> (Qabs y <= 2 ^ a)%Q ->
  Binary64.add x y = Ok (Binary64.plus x y)
  /\ (Qabs (Binary64.plus x y) <= 2 ^ (a + 1))%Q.
Proof.
  intros Hk Hx Hy. apply round_bounded; [assumption|].
  apply abs_add; assumption.
Qed.

Lemma sub_bounded (x y : Q) (a : Z) :
  -1074 <= a + 1 <= 1023 -> (Qabs x <= 2 ^ a)%Q -> (Qabs y <= 2 ^ a)%Q ->
  Binary64.sub x y = Ok (Binary64.minus x y)
  /\ (Qabs (Binary64.minus x y) <= 2 ^ (a + 1))%Q.
Proof.
  intros Hk Hx Hy. apply round_bounded; [assumption|].
  apply abs_sub; assumption.
Qed.

(** The update [old + alpha * (r + gamma * boot - old)] of modest
    numbers returns the rounded value. *)
Lemma tdUpdate_modest (old alpha r gamma boot : Q) :
  Binary64.modest old -> Binary64.modest alpha -> Binary64.modest r ->
  Binary64.modest gamma -> Binary64.modest boot ->
  Binary64.tdUpdate old alpha r gamma boot
  = Ok (Binary64.updated old alpha r gamma boot).
Proof.
  unfold Binary64.modest. intros Ho Ha Hr Hg Hb.
  unfold Binary64.tdUpdate, Binary64.updated.
  destruct (mul_bounded gamma boot 200 200 ltac:(lia) Hg Hb) as [-> B1].
  cbn [rbind].
  destruct (add_bounded r (Binary64.times gamma boot) 400 ltac:(lia)
              (abs_weaken r 200 400 ltac:(lia) Hr) B1) as [-> B2].
  cbn [rbind].
  destruct (sub_bounded (Binary64.plus r (Binary64.times gamma boot)) old
              401 ltac:(lia) B2 (abs_weaken old 200 401 ltac:(lia) Ho))
    as [-> B3].
  cbn [rbind].
  destruct (mul_bounded alpha
              (Binary64.minus (Binary64.plus r (Binary64.times gamma boot)) old)
              200 402 ltac:(lia) Ha B3) as [-> B4].
  cbn [rbind].
  destruct (add_bounded old
              (Binary64.times alpha
                 (Binary64.minus (Binary64.plus r (Binary64.times gamma boot))
                                 old))
              602 ltac:(lia) (abs_weaken old 200 602 ltac:(lia) Ho) B4)
    as [-> _].
  reflexivity.
Qed.

(** * The sweep in binary64 *)



Section Sweep64.

(** One sweep with a modest discount over a 3 x 4 grid of modest
    utilities and rewards. *)
Variable grid : Grid.
Variable gamma : Q.
Hypothesis Hshape : gridShape grid.
Hypothesis Hgamma : Binary64.modest gamma.
Hypothesis Hcells :
  forall r c cell,
    cellAt grid r c = Ok cell ->
    Binary64.modest (utility cell) /\ Binary64.modest (reward cell).







End Sweep64.





(** ** Statement about value iteration *)



(** * Picking by a draw in binary64 *)

Lemma isDouble_fixed (u : Q) :
  Binary64.isDouble u = true -> (Binary64.rnd u == u)%Q.
Proof.
  unfold Binary64.isDouble. intros [H _]%andb_prop.
  apply Qeq_bool_iff, H.
Qed.

Lemma floor_ge (x : Q) (i : Z) : i <= Qfloor x <-> (inject_Z i <= x)%Q.
Proof.
  split.
  - intros H. pose proof (Qfloor_le x). rewrite Zle_Qle in H. lra.
  - intros H. rewrite <- (Qfloor_Z i). apply Qfloor_resp_le, H.
Qed.

(** Where the floor of the rounded product [u * k] reaches [i]: from
    the double [A * 2^(L-52)] on, when the product rounds to at least [i]
    there and to less than [i] at the double just below. *)
Lemma floor_threshold (u : Q) (k i A L : Z) :
  (Binary64.rnd u == u)%Q -> (0 <= u)%Q -> 0 < k ->
  -1022 <= L -> 2 ^ 52 < A ->
  (inject_Z i
   <= Binary64.rnd (inject_Z A * 2 ^ (L - 52) * inject_Z k))%Q ->
  (Binary64.rnd (inject_Z (A - 1) * 2 ^ (L - 52) * inject_Z k)
   < inject_Z i)%Q ->
  i <= Qfloor (Binary64.rnd (u * inject_Z k))
  <-> (inject_Z A * 2 ^ (L - 52) <= u)%Q.
Proof.
  intros Hu H0 Hk HL HA Hat Hbelow. rewrite floor_ge.
  assert (Hkq : (0 < inject_Z k)%Q)
    by (change 0%Q with (inject_Z 0); rewrite <- Zlt_Qlt; assumption).
  split.
  - intros Hi. apply Qnot_lt_le. intros Hlt.
    pose proof (double_pred u A L Hu H0 HL HA Hlt) as Hpred.
    assert (Hle : (u * inject_Z k
                   <= inject_Z (A - 1) * 2 ^ (L - 52) * inject_Z k)%Q)
      by (apply Qmult_le_compat_r; lra).
    apply rnd_mono in Hle. lra.
  - intros Hge.
    assert (Hle : (inject_Z A * 2 ^ (L - 52) * inject_Z k
                   <= u * inject_Z k)%Q)
      by (apply Qmult_le_compat_r; lra).
    apply rnd_mono in Hle. lra.
Qed.

(** A double below 1 is at most [1 - 2^-53]. *)
Lemma double_below_one (u : Q) :
  Binary64.isDouble u = true -> (0 <= u < 1)%Q ->
  (u <= inject_Z (2 ^ 53 - 1) * 2 ^ (-1 - 52))%Q.
Proof.
  intros Hd [H0 H1]. apply double_pred;
    [apply isDouble_fixed, Hd | assumption | lia | lia |].
  assert (E : (inject_Z (2 ^ 53) * 2 ^ (-1 - 52) == 1)%Q)
    by (vm_compute; reflexivity).
  rewrite E. assumption.
Qed.

(** The product of a draw and a length up to 4 is rounded below the
    length. *)
Lemma draw_times_length (u : Q) (k : Z) :
  Binary64.isDouble u = true -> (0 <= u < 1)%Q -> 1 <= k <= 4 ->
  Binary64.mul u (inject_Z k) = Ok (Binary64.rnd (u * inject_Z k))
  /\ 0 <= Qfloor (Binary64.rnd (u * inject_Z k)) < k.
Proof.
  intros Hd Hu Hk. pose proof (double_below_one u Hd Hu) as Hpred.
  destruct Hu as [H0 H1].
  assert (Hkq : (1 <= inject_Z k <= 4)%Q).
  { split; [change 1%Q with (inject_Z 1) | change 4%Q with (inject_Z 4)];
      rewrite <- Zle_Qle; lia. }
  assert (Hlo : (0 <= u * inject_Z k)%Q) by (apply Qmult_le_0_compat; lra).
  assert (Hhi : (u * inject_Z k <= 2 ^ 2)%Q).
  { change (2 ^ 2)%Q with 4%Q. 
    assert (u * inject_Z k <= 1 * inject_Z k)%Q
      by (apply Qmult_le_compat_r; lra).
    lra. }
  split.
  - apply (round_bounded (u * inject_Z k) 2); [lia|].
    rewrite Qabs_pos; assumption.
  - split.
    + apply floor_ge. apply rnd_nonneg in Hlo. exact Hlo.
    + assert (Hle : (u * inject_Z k
                     <= inject_Z (2 ^ 53 - 1) * 2 ^ (-1 - 52) * inject_Z k)%Q)
        by (apply Qmult_le_compat_r; lra).
      apply rnd_mono in Hle.
      assert (Htop : (Binary64.rnd
                        (inject_Z (2 ^ 53 - 1) * 2 ^ (-1 - 52) * inject_Z k)
                      < inject_Z k)%Q).
      { assert (k = 1 \/ k = 2 \/ k = 3 \/ k = 4) as [->|[->|[->| ->]]]
          by lia; vm_compute; reflexivity. }
      apply Z.lt_nge. intros Hge. apply floor_ge in Hge. lra.
Qed.

(** A draw in [[0, 1)] picks an element of a non-empty array of at most
    four elements. *)
Lemma pick64_index {A : Type} (u : Q) (xs : list A) :
  Binary64.isDouble u = true -> (0 <= u < 1)%Q ->
  xs <> [] -> (length xs <= 4)%nat ->
  exists i, (i < length xs)%nat
            /\ Qfloor (Binary64.rnd (u * inject_Z (Z.of_nat (length xs))))
               = Z.of_nat i
            /\ Binary64.pick u xs = Ok (xs !! i).
Proof.
  intros Hd Hu Hne Hlen.
  assert (Hk : (0 < length xs)%nat)
    by (destruct xs; [contradiction | simpl; lia]).
  destruct (draw_times_length u (Z.of_nat (length xs)) Hd Hu ltac:(lia))
    as [Hmul [Hf0 Hf1]].
  exists (Z.to_nat (Qfloor (Binary64.rnd
                              (u * inject_Z (Z.of_nat (length xs)))))).
  split; [lia|]. split; [lia|].
  unfold Binary64.pick. rewrite Hmul. cbn [rbind]. unfold index.
  destruct (Z.ltb_spec
              (Qfloor (Binary64.rnd (u * inject_Z (Z.of_nat (length xs)))))
              0); [lia | reflexivity].
Qed.

(** The floor of the rounded product reaches [i] exactly from the double
    nearest to [i/k] on. *)
Lemma floor_slot (u : Q) (k i : Z) :
  Binary64.isDouble u = true -> (0 <= u < 1)%Q ->
  1 <= k <= 4 -> 0 <= i <= k ->
  i <= Qfloor (Binary64.rnd (u * inject_Z k))
  <-> (Binary64.rnd (inject_Z i / inject_Z k) <= u)%Q.
Proof.
  intros Hd Hu Hk Hi.
  destruct (draw_times_length u k Hd Hu Hk) as [_ [Hf0 Hf1]].
  pose proof (isDouble_fixed u Hd) as Hfix. destruct Hu as [H0 H1].
  destruct (Z.eq_dec i 0) as [->|Hi0].
  { assert (E : (Binary64.rnd (inject_Z 0 / inject_Z k) == 0)%Q).
    { rewrite rnd_zero; [reflexivity|]. unfold Qdiv. ring. }
    rewrite E. split; [intros; assumption | intros; assumption]. }
  destruct (Z.eq_dec i k) as [->|Hik].
  { assert (E : (Binary64.rnd (inject_Z k / inject_Z k) == 1)%Q).
    { assert (k = 1 \/ k = 2 \/ k = 3 \/ k = 4) as [->|[->|[->| ->]]]
        by lia; vm_compute; reflexivity. }
    rewrite E. split; [lia | lra]. }
  assert (Hcase : (k = 2 /\ i = 1) \/ (k = 3 /\ i = 1) \/ (k = 3 /\ i = 2)
                  \/ (k = 4 /\ i = 1) \/ (k = 4 /\ i = 2)
                  \/ (k = 4 /\ i = 3)) by lia.
  destruct Hcase as [[-> ->]|[[-> ->]|[[-> ->]|[[-> ->]|[[-> ->]|[-> ->]]]]]].
  - rewrite (floor_threshold u 2 1 (2 ^ 53) (-2) Hfix H0);
      [|lia | lia | lia | vm_compute; discriminate | vm_compute; reflexivity].
    assert (E : (Binary64.rnd (inject_Z 1 / inject_Z 2)
                 == inject_Z (2 ^ 53) * 2 ^ (-2 - 52))%Q)
      by (vm_compute; reflexivity).
    rewrite E. reflexivity.
  - rewrite (floor_threshold u 3 1 6004799503160661 (-2) Hfix H0);
      [|lia | lia | lia | vm_compute; discriminate | vm_compute; reflexivity].
    assert (E : (Binary64.rnd (inject_Z 1 / inject_Z 3)
                 == inject_Z 6004799503160661 * 2 ^ (-2 - 52))%Q)
      by (vm_compute; reflexivity).
    rewrite E. reflexivity.
  - rewrite (floor_threshold u 3 2 6004799503160661 (-1) Hfix H0);
      [|lia | lia | lia | vm_compute; discriminate | vm_compute; reflexivity].
    assert (E : (Binary64.rnd (inject_Z 2 / inject_Z 3)
                 == inject_Z 6004799503160661 * 2 ^ (-1 - 52))%Q)
      by (vm_compute; reflexivity).
    rewrite E. reflexivity.
  - rewrite (floor_threshold u 4 1 (2 ^ 53) (-3) Hfix H0);
      [|lia | lia | lia | vm_compute; discriminate | vm_compute; reflexivity].
    assert (E : (Binary64.rnd (inject_Z 1 / inject_Z 4)
                 == inject_Z (2 ^ 53) * 2 ^ (-3 - 52))%Q)
      by (vm_compute; reflexivity).
    rewrite E. reflexivity.
  - rewrite (floor_threshold u 4 2 (2 ^ 53) (-2) Hfix H0);
      [|lia | lia | lia | vm_compute; discriminate | vm_compute; reflexivity].
    assert (E : (Binary64.rnd (inject_Z 2 / inject_Z 4)
                 == inject_Z (2 ^ 53) * 2 ^ (-2 - 52))%Q)
      by (vm_compute; reflexivity).
    rewrite E. reflexivity.
  - rewrite (floor_threshold u 4 3 6755399441055744 (-1) Hfix H0);
      [|lia | lia | lia | vm_compute; discriminate | vm_compute; reflexivity].
    assert (E : (Binary64.rnd (inject_Z 3 / inject_Z 4)
                 == inject_Z 6755399441055744 * 2 ^ (-1 - 52))%Q)
      by (vm_compute; reflexivity).
    rewrite E. reflexivity.
Qed.

(** In an array without repetition, of at most four elements, the element
    at index [i] is picked exactly by the draws from the double nearest
    to [i/k] up to the double nearest to [(i+1)/k]. *)
Lemma pick64_Some_iff {A : Type} (u : Q) (xs : list A) (i : nat) (a : A) :
  Binary64.isDouble u = true -> (0 <= u < 1)%Q ->
  NoDup xs -> (length xs <= 4)%nat -> xs !! i = Some a ->
  Binary64.pick u xs = Ok (Some a)
  <-> within u (Binary64.slot i (length xs)).
Proof.
  intros Hd Hu Hnd Hlen Hi.
  assert (Hne : xs <> []) by (intros ->; discriminate).
  pose proof (lookup_lt_Some xs i a Hi) as Hik.
  destruct (pick64_index u xs Hd Hu Hne Hlen) as (j & Hj & Hfl & Hpick).
  pose proof (floor_slot u (Z.of_nat (length xs)) (Z.of_nat i) Hd Hu
                ltac:(lia) ltac:(lia)) as Hlow.
  pose proof (floor_slot u (Z.of_nat (length xs)) (Z.of_nat i + 1) Hd Hu
                ltac:(lia) ltac:(lia)) as Hupp.
  rewrite Hfl in Hlow, Hupp.
  unfold within, Binary64.slot. cbn [lower upper lowerIn upperIn].
  rewrite Hpick. split.
  - intros [= Hja].
    assert (j = i) as -> by (apply (NoDup_lookup xs j i a Hnd Hja Hi)).
    split.
    + apply Hlow. lia.
    + apply Qnot_le_lt. intros Hle. apply Hupp in Hle. lia.
  - intros [H1 H2]. apply Hlow in H1.
    assert (Hn : ~ (Z.of_nat i + 1 <= Z.of_nat j)).
    { intros Hge. apply Hupp in Hge. lra. }
    assert (j = i) as -> by lia. rewrite Hi. reflexivity.
Qed.

(** The length of each part: 1/k up to 2^-54, and exactly 1/k for 1, 2
    and 4 parts. *)
Lemma slot64_measure (i k : nat) :
  (1 <= k <= 4)%nat -> (i < k)%nat ->
  (Qabs (measure (Binary64.slot i k) - 1 / inject_Z (Z.of_nat k))
   <= 2 ^ (-54))%Q
  /\ (k <> 3%nat ->
      (measure (Binary64.slot i k) == 1 / inject_Z (Z.of_nat k))%Q).
Proof.
  intros Hk Hi.
  assert (Hcases : k = 1%nat \/ k = 2%nat \/ k = 3%nat \/ k = 4%nat) by lia.
  destruct Hcases as [->|[->|[->| ->]]];
    repeat (destruct i as [|i]; [|try lia]);
    (split; [vm_compute; discriminate
            | intros Hne; try (exfalso; apply Hne; reflexivity);
              vm_compute; reflexivity]).
Qed.

(** The candidates of the tie-break are at most four. *)
Lemma bestActionsOf_length (cell : CellState) :
  (length (bestActionsOf cell) <= 4)%nat.
Proof.
  rewrite bestActionsOf_filter.
  etransitivity; [apply List.filter_length_le | reflexivity].
Qed.

(** For four elements the parts are the quarters of [[0, 1)]. *)
Lemma slot64_quarters (u : Q) (i : nat) :
  (i < 4)%nat -> within u (Binary64.slot i 4) <-> within u (slot i 4).
Proof.
  intros Hi. unfold within, Binary64.slot, slot.
  cbn [lower upper lowerIn upperIn].
  assert (Hcases : i = 0%nat \/ i = 1%nat \/ i = 2%nat \/ i = 3%nat) by lia.
  destruct Hcases as [->|[->|[->| ->]]].
  - assert (E1 : (Binary64.rnd (inject_Z (Z.of_nat 0) / inject_Z (Z.of_nat 4))
                  == inject_Z (Z.of_nat 0) / inject_Z (Z.of_nat 4))%Q)
      by (vm_compute; reflexivity).
    assert (E2 : (Binary64.rnd
                    (inject_Z (Z.of_nat 0 + 1) / inject_Z (Z.of_nat 4))
                  == inject_Z (Z.of_nat 0 + 1) / inject_Z (Z.of_nat 4))%Q)
      by (vm_compute; reflexivity).
    rewrite E1, E2. reflexivity.
  - assert (E1 : (Binary64.rnd (inject_Z (Z.of_nat 1) / inject_Z (Z.of_nat 4))
                  == inject_Z (Z.of_nat 1) / inject_Z (Z.of_nat 4))%Q)
      by (vm_compute; reflexivity).
    assert (E2 : (Binary64.rnd
                    (inject_Z (Z.of_nat 1 + 1) / inject_Z (Z.of_nat 4))
                  == inject_Z (Z.of_nat 1 + 1) / inject_Z (Z.of_nat 4))%Q)
      by (vm_compute; reflexivity).
    rewrite E1, E2. reflexivity.
  - assert (E1 : (Binary64.rnd (inject_Z (Z.of_nat 2) / inject_Z (Z.of_nat 4))
                  == inject_Z (Z.of_nat 2) / inject_Z (Z.of_nat 4))%Q)
      by (vm_compute; reflexivity).
    assert (E2 : (Binary64.rnd
                    (inject_Z (Z.of_nat 2 + 1) / inject_Z (Z.of_nat 4))
                  == inject_Z (Z.of_nat 2 + 1) / inject_Z (Z.of_nat 4))%Q)
      by (vm_compute; reflexivity).
    rewrite E1, E2. reflexivity.
  - assert (E1 : (Binary64.rnd (inject_Z (Z.of_nat 3) / inject_Z (Z.of_nat 4))
                  == inject_Z (Z.of_nat 3) / inject_Z (Z.of_nat 4))%Q)
      by (vm_compute; reflexivity).
    assert (E2 : (Binary64.rnd
                    (inject_Z (Z.of_nat 3 + 1) / inject_Z (Z.of_nat 4))
                  == inject_Z (Z.of_nat 3 + 1) / inject_Z (Z.of_nat 4))%Q)
      by (vm_compute; reflexivity).
    rewrite E1, E2. reflexivity.
Qed.

(** ** Statement about action selection *)

(** C7, as the code has it.  [getGreedyAction] chooses among the actions
    whose Q-value is the largest of the four.  With [k] of them tied, the
    [i]-th one, in the order of [ACTIONS], is returned exactly for the
    draws from the double nearest to [i/k] up to the double nearest to
    [(i+1)/k]: a set of measure 1/k when [k] is 1, 2 or 4, and within
    2^-54 of 1/3 when [k] is 3, where the product [u * 3] is rounded.
    [getEpsilonGreedyAction] returns [ACTIONS[floor(4 u2)]] when the first
    draw is below epsilon, which for epsilon in [[0, 1]] is a set of draws
    of measure epsilon, each action having a set of second draws of
    measure 1/4; otherwise it returns the greedy selection made with the
    second draw. *)
Theorem getGreedyAction_uniform_ties (cell : CellState) :
  let q := qValues cell in
  let best := bestActionsOf cell in
  let k := length best in
  NoDup best
  /\ (1 <= k <= 4)%nat
  /\ (forall a, a ∈ best <-> tied q a)
  /\ (forall u, Binary64.isDouble u = true -> (0 <= u < 1)%Q ->
        exists a, Binary64.getGreedyAction u cell = Ok (Some a) /\ tied q a)
  /\ (forall u i a, Binary64.isDouble u = true -> (0 <= u < 1)%Q ->
        best !! i = Some a ->
        (Binary64.getGreedyAction u cell = Ok (Some a)
         <-> within u (Binary64.slot i k))
        /\ (Qabs (measure (Binary64.slot i k) - 1 / inject_Z (Z.of_nat k))
            <= 2 ^ (-54))%Q
        /\ (k <> 3%nat ->
            (measure (Binary64.slot i k) == 1 / inject_Z (Z.of_nat k))%Q))
  /\ (forall u1 u2 epsilon,
        ((u1 < epsilon)%Q ->
           Binary64.getEpsilonGreedyAction u1 u2 cell epsilon
           = Binary64.pick u2 ACTIONS)
        /\ ((epsilon <= u1)%Q ->
           Binary64.getEpsilonGreedyAction u1 u2 cell epsilon
           = Binary64.getGreedyAction u2 cell))
  /\ (forall u2 i a, Binary64.isDouble u2 = true -> (0 <= u2 < 1)%Q ->
        ACTIONS !! i = Some a ->
        (Binary64.pick u2 ACTIONS = Ok (Some a) <-> within u2 (slot i 4))
        /\ (measure (slot i 4) == 1 / 4)%Q)
  /\ (forall epsilon u1, (0 <= epsilon <= 1)%Q -> (0 <= u1 < 1)%Q ->
        ((u1 < epsilon)%Q <-> within u1 (mkInterval 0 true epsilon false))
        /\ (measure (mkInterval 0 true epsilon false) == epsilon)%Q).
Proof.
  intros q best k.
  destruct (bestActionsOf_spec cell) as (Hnd & Hne & Htied).
  pose proof (bestActionsOf_length cell) as Hlen.
  assert (Hk : (1 <= k <= 4)%nat).
  { unfold k, best. destruct (bestActionsOf cell);
      [contradiction | simpl in *; lia]. }
  split; [assumption|]. split; [assumption|]. split; [assumption|].
  split; [|split; [|split; [|split]]].
  - intros u Hd Hu.
    destruct (pick64_index u best Hd Hu Hne Hlen) as (i & Hi & _ & Hpick).
    destruct (lookup_lt_is_Some_2 best i Hi) as [a Ha].
    exists a. split; [unfold Binary64.getGreedyAction; fold best; congruence|].
    apply Htied. eapply list_elem_of_lookup_2; eassumption.
  - intros u i a Hd Hu Hi. split.
    + apply (pick64_Some_iff u best i a Hd Hu Hnd Hlen Hi).
    + apply slot64_measure; [assumption|].
      apply (lookup_lt_Some best i a Hi).
  - intros u1 u2 epsilon. unfold Binary64.getEpsilonGreedyAction.
    split; intros H.
    + rewrite (proj2 (Qltb_true u1 epsilon) H). reflexivity.
    + rewrite (proj2 (Qltb_false u1 epsilon) H). reflexivity.
  - intros u2 i a Hd Hu Hi. split.
    + rewrite <- (slot64_quarters u2 i)
        by (apply (lookup_lt_Some ACTIONS i a Hi)).
      apply (pick64_Some_iff u2 ACTIONS i a Hd Hu); [|simpl; lia|assumption].
      apply (bool_decide_unpack _). vm_compute. reflexivity.
    + rewrite (measure_slot i 4) by lia. reflexivity.
  - intros epsilon u1 He [Hu0 Hu1]. unfold within, measure.
    cbn [lower upper lowerIn upperIn]. split; [|ring].
    split; [intros; split; lra | intros [_ ?]; assumption].
Qed.

Lemma getGreedyAction_uniform_ties_witness :
  Binary64.getGreedyAction (Binary64.literal 0.6)
    (mkCell 0 0 EMPTY 0 0 (mkQ 1 2 2 0) None 0) = Ok (Some LEFT)
  /\ within (Binary64.literal 0.6) (Binary64.slot 1 2).
Proof.
  destruct (getGreedyAction_uniform_ties
              (mkCell 0 0 EMPTY 0 0 (mkQ 1 2 2 0) None 0))
    as (_ & _ & _ & _ & Hslot & _).
  destruct (Hslot (Binary64.literal 0.6) 1%nat LEFT eq_refl
              ltac:(evalQ) eq_refl) as [Hiff _].
  assert (Hw : within (Binary64.literal 0.6) (Binary64.slot 1 2)) by evalQ.
  split; [exact (proj2 Hiff Hw) | exact Hw].
Defined.

(** With three actions tied, the largest double below 1/3 returns the
    second of them, not the first, and the draws that return the first
    have measure below 1/3. *)
Lemma getGreedyAction_uniform_ties_counterexample :
  bestActionsOf (mkCell 0 0 EMPTY 0 0 (mkQ 1 1 1 0) None 0)
  = [UP; DOWN; LEFT]
  /\ Binary64.isDouble (6004799503160661 # 18014398509481984) = true
  /\ within (6004799503160661 # 18014398509481984) (slot 0 3)
  /\ Binary64.getGreedyAction (6004799503160661 # 18014398509481984)
       (mkCell 0 0 EMPTY 0 0 (mkQ 1 1 1 0) None 0)
     = Ok (Some DOWN)
  /\ (measure (Binary64.slot 0 3) < 1 / 3)%Q.
Proof.
  split; [reflexivity|]. split; [vm_compute; reflexivity|].
  split; [evalQ|]. split; vm_compute; reflexivity.
Qed.

(** * The single-transition updates in binary64 *)

(** [writeBack] returns for a draw in [[0, 1)]: it writes [newQ], the
    largest Q-value as utility and a tied action as policy, at [s] and
    nowhere else. *)
Lemma writeBack64_cell (u : Q) (grid : Grid) (s : Z * Z) (a : Action)
    (newQ : Q) (cell : CellState) :
  Binary64.isDouble u = true -> (0 <= u < 1)%Q ->
  cellAt grid (fst s) (snd s) = Ok cell ->
  exists newGrid cell',
    Binary64.writeBack u grid s a newQ = Ok newGrid
    /\ cellAt newGrid (fst s) (snd s) = Ok cell'
    /\ qValues cell' = qset (qValues cell) a newQ
    /\ (utility cell' == maxQ4 (qValues cell'))%Q
    /\ (exists p, policy cell' = Some p /\ tied (qValues cell') p)
    /\ sameIdentity cell cell'
    /\ sameElsewhere grid s newGrid.
Proof.
  destruct s as [r c]. simpl. intros Hd Hu Hcell.
  unfold Binary64.writeBack. simpl.
  rewrite Hcell. cbn [rbind].
  set (f1 := set_qValues (qset (qValues cell) a newQ)).
  rewrite (modifyCell_Ok grid r c f1 cell Hcell). cbn [rbind].
  set (g1 := alter (alter f1 (Z.to_nat c)) (Z.to_nat r) grid).
  pose proof (cellAt_alter grid r c f1 cell) as A1. fold g1 in A1.
  pose proof (A1 r c Hcell) as H1. rewrite decide_True in H1 by tauto.
  rewrite H1. cbn [rbind].
  destruct (Math_max_values (qValues (f1 cell))) as [-> Hmax].
  cbn [finite rbind].
  set (f2 := set_utility (maxOf (qValues (f1 cell)))).
  rewrite (modifyCell_Ok g1 r c f2 _ H1). cbn [rbind].
  set (g2 := alter (alter f2 (Z.to_nat c)) (Z.to_nat r) g1).
  pose proof (cellAt_alter g1 r c f2 (f1 cell)) as A2. fold g2 in A2.
  pose proof (A2 r c H1) as H2. rewrite decide_True in H2 by tauto.
  rewrite H2. cbn [rbind].
  destruct (bestActionsOf_spec (f2 (f1 cell))) as (Hnd & Hne & Htied).
  destruct (pick64_index u (bestActionsOf (f2 (f1 cell))) Hd Hu Hne
              (bestActionsOf_length _)) as (i & Hi & _ & Hpick).
  destruct (lookup_lt_is_Some_2 _ i Hi) as [p Hp].
  unfold Binary64.getGreedyAction. rewrite Hpick, Hp. cbn [rbind].
  set (f3 := set_policy (Some p)).
  rewrite (modifyCell_Ok g2 r c f3 _ H2).
  pose proof (cellAt_alter g2 r c f3 (f2 (f1 cell))) as A3.
  eexists. exists (f3 (f2 (f1 cell))). split; [reflexivity|]. split.
  { rewrite (A3 r c H2). rewrite decide_True by tauto. reflexivity. }
  split; [reflexivity|]. split; [exact Hmax|]. split.
  { exists p. split; [reflexivity|].
    apply (Htied p). eapply list_elem_of_lookup_2; eassumption. }
  split; [repeat split|].
  intros r' c' Hne'.
  assert (Hne'' : ~ (r' = r /\ c' = c))
    by (intros [-> ->]; apply Hne'; reflexivity).
  rewrite (A3 r' c' H2), decide_False by assumption.
  rewrite (A2 r' c' H1), decide_False by assumption.
  rewrite (A1 r' c' Hcell), decide_False by assumption. reflexivity.
Qed.

(** The rounded update depends on its operands up to equality of
    rationals, and grows with the bootstrap value when alpha and gamma are
    not negative. *)
Lemma updated_comp (old alpha r gamma boot boot' : Q) :
  (boot == boot')%Q ->
  Binary64.updated old alpha r gamma boot
  = Binary64.updated old alpha r gamma boot'.
Proof.
  intros H. unfold Binary64.updated, Binary64.plus, Binary64.minus,
    Binary64.times.
  rewrite (rnd_comp (gamma * boot) (gamma * boot')) by (rewrite H; reflexivity).
  reflexivity.
Qed.

Lemma updated_mono (old alpha r gamma boot boot' : Q) :
  (0 <= alpha)%Q -> (0 <= gamma)%Q -> (boot <= boot')%Q ->
  (Binary64.updated old alpha r gamma boot
   <= Binary64.updated old alpha r gamma boot')%Q.
Proof.
  intros Ha Hg Hb. unfold Binary64.updated, Binary64.plus, Binary64.minus,
    Binary64.times.
  assert (H1 : (Binary64.rnd (gamma * boot)
                <= Binary64.rnd (gamma * boot'))%Q).
  { apply rnd_mono. rewrite !(Qmult_comm gamma).
    apply Qmult_le_compat_r; assumption. }
  assert (H2 : (Binary64.rnd (r + Binary64.rnd (gamma * boot))
                <= Binary64.rnd (r + Binary64.rnd (gamma * boot')))%Q)
    by (apply rnd_mono; lra).
  assert (H3 : (Binary64.rnd
                  (Binary64.rnd (r + Binary64.rnd (gamma * boot)) - old)
                <= Binary64.rnd
                     (Binary64.rnd (r + Binary64.rnd (gamma * boot')) - old))%Q)
    by (apply rnd_mono; lra).
  assert (H4 : (Binary64.rnd
                  (alpha * Binary64.rnd
                     (Binary64.rnd (r + Binary64.rnd (gamma * boot)) - old))
                <= Binary64.rnd
                     (alpha * Binary64.rnd
                        (Binary64.rnd (r + Binary64.rnd (gamma * boot'))
                         - old)))%Q).
  { apply rnd_mono. rewrite !(Qmult_comm alpha).
    apply Qmult_le_compat_r; assumption. }
  apply rnd_mono. lra.
Qed.

Lemma maxQ4_modest (q : QValues) :
  (forall b, Binary64.modest (qget q b)) -> Binary64.modest (maxQ4 q).
Proof.
  intros H. destruct (maxQ4_spec q) as [_ [a Ha]].
  unfold Binary64.modest in *. rewrite Ha. apply H.
Qed.

Lemma zero_modest : Binary64.modest 0.
Proof. vm_compute. discriminate. Qed.

(** The two Q-rules compute the rounded update and hand it to
    [writeBack]. *)
Lemma updateQLearning64_run (u : Q) (grid : Grid) (s : Z * Z) (a : Action)
    (r : Q) (sPrime : Z * Z) (alpha gamma : Q) (cell next : CellState) :
  cellAt grid (fst s) (snd s) = Ok cell ->
  cellAt grid (fst sPrime) (snd sPrime) = Ok next ->
  Binary64.modest alpha -> Binary64.modest gamma -> Binary64.modest r ->
  (forall b, Binary64.modest (qget (qValues cell) b)) ->
  (forall b, Binary64.modest (qget (qValues next) b)) ->
  Binary64.updateQLearning u grid s a r sPrime alpha gamma =
  Binary64.writeBack u grid s a
    (Binary64.updated (qget (qValues cell) a) alpha r gamma
       (if decide (type next = TERMINAL) then 0 else maxQ4 (qValues next))).
Proof.
  intros Hcell Hnext Ha Hg Hr Hqc Hqn. unfold Binary64.updateQLearning.
  rewrite Hcell, Hnext. cbn [rbind].
  destruct (decide (type next = TERMINAL)); cbn [rbind].
  - rewrite (tdUpdate_modest _ alpha r gamma 0 (Hqc a) Ha Hr Hg zero_modest).
    reflexivity.
  - destruct (Math_max_values (qValues next)) as [-> Hmax]. cbn [finite rbind].
    assert (Hm : Binary64.modest (maxOf (qValues next))).
    { unfold Binary64.modest. rewrite Hmax.
      apply (maxQ4_modest _ Hqn). }
    rewrite (tdUpdate_modest _ alpha r gamma _ (Hqc a) Ha Hr Hg Hm).
    cbn [rbind]. rewrite (updated_comp _ _ _ _ _ _ Hmax). reflexivity.
Qed.

Lemma updateSARSA64_run (u : Q) (grid : Grid) (s : Z * Z) (a : Action)
    (r : Q) (sPrime : Z * Z) (aPrime : Action) (alpha gamma : Q)
    (cell next : CellState) :
  cellAt grid (fst s) (snd s) = Ok cell ->
  cellAt grid (fst sPrime) (snd sPrime) = Ok next ->
  Binary64.modest alpha -> Binary64.modest gamma -> Binary64.modest r ->
  (forall b, Binary64.modest (qget (qValues cell) b)) ->
  (forall b, Binary64.modest (qget (qValues next) b)) ->
  Binary64.updateSARSA u grid s a r sPrime aPrime alpha gamma =
  Binary64.writeBack u grid s a
    (Binary64.updated (qget (qValues cell) a) alpha r gamma
       (if decide (type next = TERMINAL) then 0
        else qget (qValues next) aPrime)).
Proof.
  intros Hcell Hnext Ha Hg Hr Hqc Hqn. unfold Binary64.updateSARSA.
  rewrite Hcell, Hnext. cbn [rbind].
  destruct (decide (type next <> TERMINAL)) as [Hn|Hn];
    destruct (decide (type next = TERMINAL)) as [Ht|Ht]; cbn [rbind];
    try contradiction.
  - rewrite (tdUpdate_modest _ alpha r gamma _ (Hqc a) Ha Hr Hg (Hqn aPrime)).
    reflexivity.
  - rewrite (tdUpdate_modest _ alpha r gamma 0 (Hqc a) Ha Hr Hg zero_modest).
    reflexivity.
Qed.

(** ** Statements about the updates *)

(** C2.  With the arithmetic of the code (binary64, each operation
    rounded) and numbers at most 2^200 in magnitude, [updateQLearning]
    returns a grid in which
    Q(s,a) = oldQ + alpha * (r + gamma * M - oldQ), where oldQ is the input
    grid's Q(s,a) and M is the largest of the input grid's four Q-values at
    s' when s' is not TERMINAL and 0 when it is; the utility of s is the
    largest of its four new Q-values and its policy is an action that has
    it.  No next action is an input of the rule, and the new Q-values of s
    are the same for every draw. *)
Theorem updateQLearning_rule (u : Q) (grid : Grid) (s : Z * Z) (a : Action)
    (r : Q) (sPrime : Z * Z) (alpha gamma : Q) (cell next : CellState) :
  Binary64.isDouble u = true -> (0 <= u < 1)%Q ->
  cellAt grid (fst s) (snd s) = Ok cell ->
  cellAt grid (fst sPrime) (snd sPrime) = Ok next ->
  Binary64.modest alpha -> Binary64.modest gamma -> Binary64.modest r ->
  (forall b, Binary64.modest (qget (qValues cell) b)) ->
  (forall b, Binary64.modest (qget (qValues next) b)) ->
  let oldQ := qget (qValues cell) a in
  let M := if decide (type next = TERMINAL) then 0%Q
           else maxQ4 (qValues next) in
  exists newGrid cell',
    Binary64.updateQLearning u grid s a r sPrime alpha gamma = Ok newGrid
    /\ cellAt newGrid (fst s) (snd s) = Ok cell'
    /\ qget (qValues cell') a
       = Binary64.plus oldQ
           (Binary64.times alpha
              (Binary64.minus (Binary64.plus r (Binary64.times gamma M))
                              oldQ))
    /\ (utility cell' == maxQ4 (qValues cell'))%Q
    /\ (exists p, policy cell' = Some p
                  /\ (qget (qValues cell') p == maxQ4 (qValues cell'))%Q)
    /\ forall u', Binary64.isDouble u' = true -> (0 <= u' < 1)%Q ->
         exists newGrid' cell'',
           Binary64.updateQLearning u' grid s a r sPrime alpha gamma
           = Ok newGrid'
           /\ cellAt newGrid' (fst s) (snd s) = Ok cell''
           /\ qValues cell'' = qValues cell'.
Proof.
  intros Hd Hu Hcell Hnext Ha Hg Hr Hqc Hqn oldQ M.
  rewrite (updateQLearning64_run u grid s a r sPrime alpha gamma cell next
             Hcell Hnext Ha Hg Hr Hqc Hqn).
  fold oldQ. fold M.
  destruct (writeBack64_cell u grid s a
              (Binary64.updated oldQ alpha r gamma M) cell Hd Hu Hcell)
    as (newGrid & cell' & Hrun & Hs & Hq & Hutil & Hpol & _ & _).
  exists newGrid, cell'. repeat (split; [assumption|]).
  split; [|split; [assumption|split; [assumption|]]].
  - rewrite Hq, qget_qset, decide_True by reflexivity. reflexivity.
  - intros u' Hd' Hu'.
    rewrite (updateQLearning64_run u' grid s a r sPrime alpha gamma cell next
               Hcell Hnext Ha Hg Hr Hqc Hqn).
    fold oldQ. fold M.
    destruct (writeBack64_cell u' grid s a
                (Binary64.updated oldQ alpha r gamma M) cell Hd' Hu' Hcell)
      as (newGrid' & cell'' & Hrun' & Hs' & Hq' & _).
    exists newGrid', cell''. repeat (split; [assumption|]). congruence.
Qed.

Lemma updateQLearning_rule_witness :
  exists newGrid cell',
    Binary64.updateQLearning (Binary64.literal 0.3) Binary64.learningGrid
      (2, 0) UP (Binary64.literal (-0.04)) (1, 0)
      (Binary64.literal 0.1) (Binary64.literal 0.9) = Ok newGrid
    /\ cellAt newGrid 2 0 = Ok cell'
    /\ qget (qValues cell') UP = Binary64.literal 0.04100000000000001.
Proof.
  destruct (updateQLearning_rule (Binary64.literal 0.3) Binary64.learningGrid
              (2, 0) UP (Binary64.literal (-0.04)) (1, 0)
              (Binary64.literal 0.1) (Binary64.literal 0.9)
              (mkCell 2 0 START (Binary64.literal (-0.04)) 0 (mkQ 0 0 0 0)
                      None 0)
              (mkCell 1 0 EMPTY (Binary64.literal (-0.04)) 0
                      (mkQ (Binary64.literal 0.5) (Binary64.literal 0.2) 0 0)
                      None 0))
    as (newGrid & cell' & Hrun & Hs & Hq & _);
    [reflexivity | evalQ | reflexivity | reflexivity
     | vm_compute; discriminate | vm_compute; discriminate
     | vm_compute; discriminate
     | intros []; vm_compute; discriminate
     | intros []; vm_compute; discriminate |].
  exists newGrid, cell'. split; [exact Hrun|]. split; [exact Hs|].
  rewrite Hq. vm_compute. reflexivity.
Defined.

(** C3, as the code has it.  With the arithmetic of the code and numbers
    at most 2^200 in magnitude, [updateSARSA] returns a grid in which
    Q(s,a) = oldQ + alpha * (r + gamma * T - oldQ), where T is the input
    grid's Q(s',a') for the supplied a' when s' is not TERMINAL and 0 when
    it is; the utility of s is the largest of its four new Q-values and its
    policy is an action that has it.  The next action enters through T
    only: supplying an action with an equal Q(s',.) gives the same new
    Q(s,a), and for alpha and gamma not negative an action with a lower
    Q(s',.) gives a new Q(s,a) that is not higher. *)
Theorem updateSARSA_rule (u : Q) (grid : Grid) (s : Z * Z) (a : Action)
    (r : Q) (sPrime : Z * Z) (aPrime : Action) (alpha gamma : Q)
    (cell next : CellState) :
  Binary64.isDouble u = true -> (0 <= u < 1)%Q ->
  cellAt grid (fst s) (snd s) = Ok cell ->
  cellAt grid (fst sPrime) (snd sPrime) = Ok next ->
  Binary64.modest alpha -> Binary64.modest gamma -> Binary64.modest r ->
  (forall b, Binary64.modest (qget (qValues cell) b)) ->
  (forall b, Binary64.modest (qget (qValues next) b)) ->
  let oldQ := qget (qValues cell) a in
  let T := if decide (type next = TERMINAL) then 0%Q
           else qget (qValues next) aPrime in
  exists newGrid cell',
    Binary64.updateSARSA u grid s a r sPrime aPrime alpha gamma = Ok newGrid
    /\ cellAt newGrid (fst s) (snd s) = Ok cell'
    /\ qget (qValues cell') a
       = Binary64.plus oldQ
           (Binary64.times alpha
              (Binary64.minus (Binary64.plus r (Binary64.times gamma T))
                              oldQ))
    /\ (utility cell' == maxQ4 (qValues cell'))%Q
    /\ (exists p, policy cell' = Some p
                  /\ (qget (qValues cell') p == maxQ4 (qValues cell'))%Q)
    /\ forall aLow, type next <> TERMINAL ->
         exists gridLow cellLow,
           Binary64.updateSARSA u grid s a r sPrime aLow alpha gamma
           = Ok gridLow
           /\ cellAt gridLow (fst s) (snd s) = Ok cellLow
           /\ ((qget (qValues next) aLow == qget (qValues next) aPrime)%Q ->
               qget (qValues cellLow) a = qget (qValues cell') a)
           /\ ((0 <= alpha)%Q -> (0 <= gamma)%Q ->
               (qget (qValues next) aLow <= qget (qValues next) aPrime)%Q ->
               (qget (qValues cellLow) a <= qget (qValues cell') a)%Q).
Proof.
  intros Hd Hu Hcell Hnext Ha Hg Hr Hqc Hqn oldQ T.
  rewrite (updateSARSA64_run u grid s a r sPrime aPrime alpha gamma cell next
             Hcell Hnext Ha Hg Hr Hqc Hqn).
  fold oldQ. fold T.
  destruct (writeBack64_cell u grid s a
              (Binary64.updated oldQ alpha r gamma T) cell Hd Hu Hcell)
    as (newGrid & cell' & Hrun & Hs & Hq & Hutil & Hpol & _ & _).
  exists newGrid, cell'. repeat (split; [assumption|]).
  assert (HQ : qget (qValues cell') a
               = Binary64.updated oldQ alpha r gamma T).
  { rewrite Hq, qget_qset, decide_True by reflexivity. reflexivity. }
  split; [exact HQ|]. split; [assumption|]. split; [assumption|].
  intros aLow Hnt.
  rewrite (updateSARSA64_run u grid s a r sPrime aLow alpha gamma cell next
             Hcell Hnext Ha Hg Hr Hqc Hqn).
  fold oldQ. rewrite (decide_False (P := type next = TERMINAL)) by assumption.
  destruct (writeBack64_cell u grid s a
              (Binary64.updated oldQ alpha r gamma (qget (qValues next) aLow))
              cell Hd Hu Hcell)
    as (gridLow & cellLow & Hrun' & Hs' & Hq' & _).
  exists gridLow, cellLow. repeat (split; [assumption|]).
  assert (HQ' : qget (qValues cellLow) a
                = Binary64.updated oldQ alpha r gamma
                    (qget (qValues next) aLow)).
  { rewrite Hq', qget_qset, decide_True by reflexivity. reflexivity. }
  rewrite HQ, HQ'. unfold T.
  rewrite (decide_False (P := type next = TERMINAL)) by assumption.
  split.
  - intros Heq. apply updated_comp, Heq.
  - intros Hal Hga Hle. apply updated_mono; assumption.
Qed.

Lemma updateSARSA_rule_witness :
  exists newGrid cell' gridLow cellLow,
    Binary64.updateSARSA (Binary64.literal 0.3) Binary64.learningGrid
      (2, 0) UP (Binary64.literal (-0.04)) (1, 0) UP
      (Binary64.literal 0.1) (Binary64.literal 0.9) = Ok newGrid
    /\ cellAt newGrid 2 0 = Ok cell'
    /\ qget (qValues cell') UP = Binary64.literal 0.04100000000000001
    /\ Binary64.updateSARSA (Binary64.literal 0.3) Binary64.learningGrid
         (2, 0) UP (Binary64.literal (-0.04)) (1, 0) DOWN
         (Binary64.literal 0.1) (Binary64.literal 0.9) = Ok gridLow
    /\ cellAt gridLow 2 0 = Ok cellLow
    /\ (qget (qValues cellLow) UP <= qget (qValues cell') UP)%Q.
Proof.
  destruct (updateSARSA_rule (Binary64.literal 0.3) Binary64.learningGrid
              (2, 0) UP (Binary64.literal (-0.04)) (1, 0) UP
              (Binary64.literal 0.1) (Binary64.literal 0.9)
              (mkCell 2 0 START (Binary64.literal (-0.04)) 0 (mkQ 0 0 0 0)
                      None 0)
              (mkCell 1 0 EMPTY (Binary64.literal (-0.04)) 0
                      (mkQ (Binary64.literal 0.5) (Binary64.literal 0.2) 0 0)
                      None 0))
    as (newGrid & cell' & Hrun & Hs & Hq & _ & _ & Hdep);
    [reflexivity | evalQ | reflexivity | reflexivity
     | vm_compute; discriminate | vm_compute; discriminate
     | vm_compute; discriminate
     | intros []; vm_compute; discriminate
     | intros []; vm_compute; discriminate |].
  destruct (Hdep DOWN) as (gridLow & cellLow & Hrun' & Hs' & _ & Hlow);
    [discriminate|].
  exists newGrid, cell', gridLow, cellLow.
  split; [exact Hrun|]. split; [exact Hs|].
  split; [rewrite Hq; vm_compute; reflexivity|].
  split; [exact Hrun'|]. split; [exact Hs'|].
  apply Hlow; vm_compute; discriminate.
Defined.

(** A next action with a lower Q(s',.) need not give a lower new Q(s,a):
    with Q(s',UP) = 0.3 and Q(s',DOWN) = 0.29999999999999993, alpha = 0.1
    and gamma = 0.9, both give the same new Q(s,UP), 0.113. *)
Lemma updateSARSA_rule_counterexample :
  exists gridUp cellUp gridDown cellDown,
    cellAt Binary64.absorbGrid 1 0
    = Ok (mkCell 1 0 EMPTY (Binary64.literal (-0.04)) 0
            (mkQ (Binary64.literal 0.3)
                 (Binary64.literal 0.29999999999999993) 0 0) None 0)
    /\ (Binary64.literal 0.29999999999999993 < Binary64.literal 0.3)%Q
    /\ Binary64.updateSARSA (Binary64.literal 0.3) Binary64.absorbGrid
         (2, 0) UP (Binary64.literal (-0.04)) (1, 0) UP
         (Binary64.literal 0.1) (Binary64.literal 0.9) = Ok gridUp
    /\ cellAt gridUp 2 0 = Ok cellUp
    /\ Binary64.updateSARSA (Binary64.literal 0.3) Binary64.absorbGrid
         (2, 0) UP (Binary64.literal (-0.04)) (1, 0) DOWN
         (Binary64.literal 0.1) (Binary64.literal 0.9) = Ok gridDown
    /\ cellAt gridDown 2 0 = Ok cellDown
    /\ qget (qValues cellUp) UP = Binary64.literal 0.113
    /\ qget (qValues cellDown) UP = Binary64.literal 0.113
    /\ ~ (qget (qValues cellDown) UP < qget (qValues cellUp) UP)%Q.
Proof.
  do 4 eexists.
  split; [vm_compute; reflexivity|]. split; [vm_compute; reflexivity|].
  split; [vm_compute; reflexivity|]. split; [vm_compute; reflexivity|].
  split; [vm_compute; reflexivity|]. split; [vm_compute; reflexivity|].
  split; [vm_compute; reflexivity|]. split; [vm_compute; reflexivity|].
  vm_compute. intros H. discriminate H.
Qed.

(** ** The TD(0) branch *)

(** X11.  With the arithmetic of the code and numbers at most 2^200 in
    magnitude, the TD(0) branch sets the utility of the agent's cell to
    U + alpha * (r + gamma * U' - U), each operation rounded, where U is
    the old utility, r the reward of the successor and U' its utility, or
    its reward when it is TERMINAL.  The Q-values and the policy of the
    cell are not written. *)
Theorem stepRL_TD_target (grid : Grid) (prevAgent : AgentState)
    (nextRow nextCol : Z) (alpha gamma : Q) (cell next : CellState) :
  cellAt grid (agentRow prevAgent) (agentCol prevAgent) = Ok cell ->
  cellAt grid nextRow nextCol = Ok next ->
  Binary64.modest alpha -> Binary64.modest gamma ->
  Binary64.modest (utility cell) ->
  Binary64.modest (reward next) -> Binary64.modest (utility next) ->
  let nextU := if decide (type next = TERMINAL) then reward next
               else utility next in
  exists newGrid cell',
    Binary64.stepRL_TD grid prevAgent nextRow nextCol alpha gamma = Ok newGrid
    /\ cellAt newGrid (agentRow prevAgent) (agentCol prevAgent) = Ok cell'
    /\ utility cell'
       = Binary64.plus (utility cell)
           (Binary64.times alpha
              (Binary64.minus
                 (Binary64.plus (reward next) (Binary64.times gamma nextU))
                 (utility cell)))
    /\ qValues cell' = qValues cell
    /\ policy cell' = policy cell
    /\ sameIdentity cell cell'.
Proof.
  intros Hcell Hnext Ha Hg Hu Hr Hn nextU. unfold Binary64.stepRL_TD.
  rewrite Hnext. cbn [rbind]. rewrite Hcell. cbn [rbind].
  assert (HU : (if decide (type next = TERMINAL) then Ok (reward next)
                else Ok (utility next))
               = Ok nextU).
  { unfold nextU. destruct (decide (type next = TERMINAL)); reflexivity. }
  rewrite HU. cbn [rbind].
  assert (Hm : Binary64.modest nextU)
    by (unfold nextU; destruct (decide (type next = TERMINAL)); assumption).
  rewrite (tdUpdate_modest _ alpha _ gamma nextU Hu Ha Hr Hg Hm).
  cbn [rbind].
  rewrite (modifyCell_Ok grid _ _ _ cell Hcell).
  eexists. exists (set_utility
                     (Binary64.updated (utility cell) alpha (reward next)
                        gamma nextU) cell).
  split; [reflexivity|]. split.
  - rewrite (cellAt_alter grid _ _ _ cell _ _ Hcell).
    rewrite decide_True by tauto. reflexivity.
  - repeat split.
Qed.

Lemma stepRL_TD_target_witness :
  exists newGrid cell',
    Binary64.stepRL_TD Binary64.learningGrid (mkAgent 0 2 None 0) 0 3
      (Binary64.literal 0.1) (Binary64.literal 0.9) = Ok newGrid
    /\ cellAt newGrid 0 2 = Ok cell'
    /\ utility cell' = Binary64.literal 0.19
    /\ policy cell' = None.
Proof.
  destruct (stepRL_TD_target Binary64.learningGrid (mkAgent 0 2 None 0) 0 3
              (Binary64.literal 0.1) (Binary64.literal 0.9)
              (mkCell 0 2 EMPTY (Binary64.literal (-0.04)) 0 (mkQ 0 0 0 0)
                      None 0)
              (mkCell 0 3 TERMINAL 1.0 0 (mkQ 0 0 0 0) None 0))
    as (newGrid & cell' & Hrun & Hs & Hu & _ & Hp & _);
    [reflexivity | reflexivity | vm_compute; discriminate
     | vm_compute; discriminate | vm_compute; discriminate
     | vm_compute; discriminate | vm_compute; discriminate |].
  exists newGrid, cell'. split; [exact Hrun|]. split; [exact Hs|].
  split; [rewrite Hu; vm_compute; reflexivity | exact Hp].
Defined.

(** * What a cell shows, in binary64 *)

Lemma half_times (x : Q) (k : Z) :
  -1074 <= k <= 0 -> (0 <= x <= 2 ^ k)%Q ->
  Binary64.mul x (Binary64.literal 0.5)
  = Ok (Binary64.times x (Binary64.literal 0.5))
  /\ (0 <= Binary64.times x (Binary64.literal 0.5) <= 2 ^ k * (1 # 2))%Q
  /\ ((x == 0)%Q -> (Binary64.times x (Binary64.literal 0.5) == 0)%Q).
Proof.
  intros Hk [H0 H1].
  assert (E : Binary64.literal 0.5 = (1 # 2)%Q) by (vm_compute; reflexivity).
  rewrite E. pose proof (p2_pos k) as Pk.
  assert (Hb : (Qabs (x * (1 # 2)) <= 2 ^ k)%Q)
    by (rewrite Qabs_pos; lra).
  destruct (round_bounded (x * (1 # 2)) k ltac:(lia) Hb) as [Hr _].
  split; [exact Hr|]. unfold Binary64.times. split.
  - split; [apply rnd_nonneg; lra|].
    assert (Ehalf : (2 ^ k * (1 # 2) == 2 ^ (k - 1))%Q).
    { replace k with (k - 1 + 1) at 1 by lia. rewrite p2_succ.
      field. }
    assert (Hle : (x * (1 # 2) <= 2 ^ (k - 1))%Q) by lra.
    apply rnd_mono in Hle. rewrite Ehalf.
    destruct (Z.eq_dec k (-1074)) as [->|Hne].
    + assert (Hz : (Binary64.rnd (2 ^ (-1074 - 1)) == 0)%Q)
        by (vm_compute; reflexivity).
      pose proof (p2_pos (-1074 - 1)). lra.
    + rewrite rnd_p2 in Hle by lia. exact Hle.
  - intros Hx. rewrite rnd_zero; [reflexivity|]. rewrite Hx. ring.
Qed.

(** X23.  The heat-map overlay of [Cell], with the arithmetic of the
    code: a cell has a coloured overlay exactly when it is EMPTY or START;
    its alpha channel lies in [[0, 0.5]], is at most 0.25 for a positive
    utility, and is 0 when the utility is 0. *)
Theorem utilityOverlay_range (cell : CellState) :
  exists overlay,
    Binary64.utilityOverlay cell = Ok overlay
    /\ (overlay = None <-> type cell <> EMPTY /\ type cell <> START)
    /\ forall alpha, overlay = Some alpha ->
         (0 <= alpha <= 0.5)%Q
         /\ ((0 < utility cell)%Q -> (alpha <= 0.25)%Q)
         /\ ((utility cell == 0)%Q -> (alpha == 0)%Q).
Proof.
  unfold Binary64.utilityOverlay, Binary64.opacity.
  set (x := Qmin (Qabs (utility cell)) 1).
  assert (Hx : (0 <= x <= 2 ^ 0)%Q).
  { unfold x. pose proof (Qabs_nonneg (utility cell)).
    change (2 ^ 0)%Q with 1%Q.
    destruct (Q.min_spec (Qabs (utility cell)) 1) as [[? ->]|[? ->]];
      split; lra. }
  destruct (half_times x 0 ltac:(lia) Hx) as (-> & [Ho0 Ho1] & Hoz).
  cbn [rbind]. set (o := Binary64.times x (Binary64.literal 0.5)) in *.
  change (2 ^ 0 * (1 # 2))%Q with (1 # 2)%Q in Ho1.
  assert (Hzero : (utility cell == 0)%Q -> (x == 0)%Q).
  { intros Hu. unfold x. rewrite Hu. reflexivity. }
  destruct (decide (type cell = EMPTY \/ type cell = START)) as [Hshow|Hhide].
  - destruct (Qltb_cases 0 (utility cell)) as [[-> Hpos]|[-> Hneg]].
    + assert (Ho : (0 <= o <= 2 ^ (-1))%Q)
        by (change (2 ^ (-1))%Q with (1 # 2)%Q; split; assumption).
      destruct (half_times o (-1) ltac:(lia) Ho) as (-> & [Hh0 Hh1] & _).
      cbn [rbind]. change (2 ^ (-1) * (1 # 2))%Q with (1 # 4)%Q in Hh1.
      eexists. split; [reflexivity|].
      split; [split; [discriminate | tauto]|].
      intros alpha [= <-]. split; [split; lra|].
      split; [intros; lra | intros; lra].
    + eexists. split; [reflexivity|].
      split; [split; [discriminate | tauto]|].
      intros alpha [= <-]. split; [split; lra|].
      split; [intros; lra | intros Hu; apply Hoz, Hzero, Hu].
  - exists None. split; [reflexivity|].
    split; [split; [tauto | reflexivity]|]. discriminate.
Qed.
